(** * Compliance-test fixture generator: shallow embedding and properties

    The generator walks a tree of policy test-case files, compiles every
    case's modules into an evaluation plan, evaluates the same modules to
    obtain the expected result and writes one JSON fixture per source file.
    [main.go] holds two revisions of the program; both are embedded here,
    as [Middle] and [Final].  An earlier revision, which writes one
    directory per case, is embedded as [First].  The policy engine, the
    JSON codec and the operating system are libraries outside the
    repository: they enter the development as the operations of the
    interfaces [Engine] and [OS], and [CaseLoader] for the first revision.  The builtin that [init] registers before [main]
    runs is part of the engine. *)

From Stdlib Require Import String Ascii ZArith Lia.
From stdpp Require Import base option list gmap strings sorting pretty.

Set Warnings "-register-all".

Local Open Scope list_scope.

(** ** Go values *)

(** A Go string is a sequence of bytes, as is a Rocq [string]. *)

Definition newline : string := String (ascii_of_nat 10) "".

(** [[]byte]: plan modules and file contents. *)
Abbreviation bytes := (list Byte.byte).

(** An [error] value: one a library call returned, kept with the name of
    the call, or one the program built with [fmt.Errorf].  The program
    only prints errors and hands them on. *)
Inductive error : Type :=
  | LibraryError (call msg : string)
  | Errorf (msg : string).

(** [err.Error()] *)
Definition Error (e : error) : string :=
  match e with LibraryError _ m => m | Errorf m => m end.

(** A call either returns or panics; a panic unwinds [main] and aborts
    the process. *)
Inductive go (A : Type) : Type :=
  | Ret (a : A)
  | Panic (v : string).
Arguments Ret {A} a.
Arguments Panic {A} v.

Global Instance go_ret : MRet go := λ A a, Ret a.
Global Instance go_bind : MBind go := λ A B k m,
  match m with
  | Ret a => k a
  | Panic v => Panic v
  end.

Global Instance go_fmap : FMap go := λ A B f m,
  match m with
  | Ret a => Ret (f a)
  | Panic v => Panic v
  end.

(** Decoded JSON, the contents of an [interface{}] that [encoding/json]
    or the engine filled in; [JNull] is the nil interface. *)
Inductive JSON : Type :=
  | JNull
  | JBool (b : bool)
  | JNumber (n : string)
  | JString (s : string)
  | JArray (l : list JSON)
  | JObject (m : gmap string JSON).

(** [type ResultMap map[string]interface{}] *)
Abbreviation ResultMap := (gmap string JSON).

(** ** The [strings] and [fmt] calls of the program *)

(** [strings.HasPrefix(s, prefix)] *)
Definition strings_HasPrefix (s prefix : string) : bool := String.prefix prefix s.

Fixpoint string_drop (n : nat) (s : string) : string :=
  match n, s with
  | O, _ => s
  | S n', String _ s' => string_drop n' s'
  | S _, EmptyString => EmptyString
  end.

(** [strings.TrimPrefix(s, prefix)] *)
Definition strings_TrimPrefix (s prefix : string) : string :=
  if strings_HasPrefix s prefix then string_drop (String.length prefix) s else s.

(** The scan of [strings.ReplaceAll] for a non-empty [old]: occurrences are
    taken from left to right and do not overlap; [skip] counts the bytes of
    the occurrence just replaced that are still to be passed over. *)
Fixpoint replace_go (skip : nat) (old new s : string) : string :=
  match s with
  | EmptyString => EmptyString
  | String c s' =>
      match skip with
      | S k => replace_go k old new s'
      | O =>
          if String.prefix old s
          then new +:+ replace_go (Nat.pred (String.length old)) old new s'
          else String c (replace_go O old new s')
      end
  end.

(** With an empty [old], Go inserts [new] before every character and at
    the end. The program never passes an empty [old]; the case is modelled
    on single-byte characters. *)
Fixpoint replace_empty (new s : string) : string :=
  match s with
  | EmptyString => new
  | String c s' => new +:+ String c (replace_empty new s')
  end.

(** [strings.ReplaceAll(s, old, new)] *)
Definition strings_ReplaceAll (s old new : string) : string :=
  match old with
  | EmptyString => replace_empty new s
  | _ => replace_go O old new s
  end.

(** The scan of [strings.Split] for a non-empty separator: the head of the
    result is the segment being read. *)
Fixpoint split_go (skip : nat) (sep s : string) : list string :=
  match s with
  | EmptyString => [EmptyString]
  | String c s' =>
      match skip with
      | S k => split_go k sep s'
      | O =>
          if String.prefix sep s
          then EmptyString :: split_go (Nat.pred (String.length sep)) sep s'
          else match split_go O sep s' with
               | seg :: rest => String c seg :: rest
               | [] => [String c EmptyString]
               end
      end
  end.

(** [strings.Split(s, sep)]; with an empty separator Go explodes [s] into
    its characters (single bytes here; the program always splits at "/"). *)
Definition strings_Split (s sep : string) : list string :=
  match sep with
  | EmptyString => (λ c, String c EmptyString) <$> list_ascii_of_string s
  | _ => split_go O sep s
  end.

(** [l[i]] for a Go [int] index: out of range is a run-time panic. *)
Definition index {A} (l : list A) (i : Z) : go A :=
  if ((i <? 0) || (Z.of_nat (length l) <=? i))%Z
  then Panic "runtime error: index out of range"
  else match l !! Z.to_nat i with
       | Some x => Ret x
       | None => Panic "runtime error: index out of range"
       end.

(** [%d] of a non-negative [int]. *)
Definition fmt_d (n : nat) : string := pretty n.


(** [fmt.Sprintf("%s/%s", a, b)] *)
Definition path_join (a b : string) : string := a +:+ "/" +:+ b.

(** ** The test-case records *)

(** [cases.TestCase] with the three fields [ExtendedTestCase] adds.  Only
    the fields the program reads or writes are kept. *)
Record ExtendedTestCase : Type := {
  Filename : string;
  Note : string;
  Modules : list string;
  Data : option (gmap string JSON);      (* *map[string]interface{} *)
  Input : option JSON;                   (* *interface{} *)
  InputTerm : option string;             (* *string *)
  WantErrorCode : option string;         (* *string *)
  WantError : option string;             (* *string *)
  StrictError : bool;
  EntryPoints : list string;             (* json:"entrypoints" *)
  Plan : JSON;                           (* json:"plan" *)
  WantPlanResult : JSON                  (* json:"want_plan_result" *)
}.

Definition set_Filename (path : string) (tc : ExtendedTestCase) :=
  {| Filename := path; Note := Note tc; Modules := Modules tc; Data := Data tc;
     Input := Input tc; InputTerm := InputTerm tc;
     WantErrorCode := WantErrorCode tc; WantError := WantError tc;
     StrictError := StrictError tc; EntryPoints := EntryPoints tc;
     Plan := Plan tc; WantPlanResult := WantPlanResult tc |}.

Definition set_EntryPoints (eps : list string) (tc : ExtendedTestCase) :=
  {| Filename := Filename tc; Note := Note tc; Modules := Modules tc;
     Data := Data tc; Input := Input tc; InputTerm := InputTerm tc;
     WantErrorCode := WantErrorCode tc; WantError := WantError tc;
     StrictError := StrictError tc; EntryPoints := eps;
     Plan := Plan tc; WantPlanResult := WantPlanResult tc |}.

Definition set_Plan (plan : JSON) (tc : ExtendedTestCase) :=
  {| Filename := Filename tc; Note := Note tc; Modules := Modules tc;
     Data := Data tc; Input := Input tc; InputTerm := InputTerm tc;
     WantErrorCode := WantErrorCode tc; WantError := WantError tc;
     StrictError := StrictError tc; EntryPoints := EntryPoints tc;
     Plan := plan; WantPlanResult := WantPlanResult tc |}.

Definition set_WantPlanResult (r : JSON) (tc : ExtendedTestCase) :=
  {| Filename := Filename tc; Note := Note tc; Modules := Modules tc;
     Data := Data tc; Input := Input tc; InputTerm := InputTerm tc;
     WantErrorCode := WantErrorCode tc; WantError := WantError tc;
     StrictError := StrictError tc; EntryPoints := EntryPoints tc;
     Plan := Plan tc; WantPlanResult := r |}.

(** [type Test struct { filename string; Cases []*ExtendedTestCase }].
    The cases are pointers: what the generator assigns to a case is seen
    when the test is serialised, also for a case it then gives up on. *)
Record Test : Type := {
  filename : string;
  Cases : list ExtendedTestCase
}.

(** ** The libraries *)

(** [ast.Module], as far as the program looks into it:
    [Package.Path.String()] and [Rules]. *)
Record Module (Rule : Type) : Type := {
  Package_Path_String : string;
  Rules : list Rule
}.
Arguments Package_Path_String {Rule} _.
Arguments Rules {Rule} _.

(** [bundle.ModuleFile] *)
Record ModuleFile (Rule : Type) : Type := {
  URL : string;
  Path : string;
  Raw : bytes;
  Parsed : Module Rule
}.
Arguments URL {Rule} _.
Arguments Path {Rule} _.
Arguments Raw {Rule} _.
Arguments Parsed {Rule} _.

(** [bundle.PlanModuleFile] *)
Record PlanModuleFile : Type := {
  plan_Path : string;
  plan_Raw : bytes
}.

(** [inmem]'s store, by its documented contents: [inmem.New()] is empty
    and [inmem.NewFromObject(data)] holds [data]. *)
Record Store : Type := { store_data : gmap string JSON }.

Definition inmem_New : Store := {| store_data := ∅ |}.
Definition inmem_NewFromObject (data : gmap string JSON) : Store :=
  {| store_data := data |}.

(** The policy engine and the codecs.  A call that returns [(x, err)] is a
    sum, a [Must...] or [...OrDie] call that panics is an [option]. *)
Class Engine : Type := {
  Rule : Type;
  Expr : Type;
  Compiler : Type;
  Query : Type;
  Transaction : Type;
  Term : Type;
  (** [util.Unmarshal(bs, &x)] for [x Test]: the [cases] of the file *)
  util_Unmarshal : bytes → string + list ExtendedTestCase;
  (** [ast.ParseModule(filename, input)] *)
  ast_ParseModule : string → string → string + Module Rule;
  (** [compile.New().WithTarget("plan").WithPruneUnused(prune).
      WithEntrypoints(eps...).WithBundle(&b).Build(ctx)] for
      [b = bundle.Bundle{Modules: mods}]: the error and [b.PlanModules]
      after the call *)
  compiler_Build :
    bool → list string → list (ModuleFile Rule) → option string * list PlanModuleFile;
  (** [json.Unmarshal(raw, &v)] for [v interface{}] *)
  json_Unmarshal : bytes → string + JSON;
  (** [json.MarshalIndent(t, "", "\t")] *)
  json_MarshalIndent : Test → string + bytes;
  (** [ast.MustParseExpr(s)] *)
  ast_MustParseExpr : string → option Expr;
  (** [ast.MustCompileModules(modules)] *)
  ast_MustCompileModules : gmap string string → option Compiler;
  (** [compiler.QueryCompiler().Compile(q)] *)
  QueryCompiler_Compile : Compiler → list Expr → string + Query;
  (** [storage.NewTransactionOrDie(ctx, store)] *)
  storage_NewTransactionOrDie : Store → option Transaction;
  (** [ast.MustParseTerm(s)] *)
  ast_MustParseTerm : string → option Term;
  (** [ast.NewTerm(ast.MustInterfaceToValue(x))] *)
  ast_MustInterfaceToValue : JSON → option Term;
  (** [topdown.NewQuery(query).WithCompiler(c).WithStore(s).
      WithTransaction(txn).WithInput(input).WithStrictBuiltinErrors(b).
      Run(ctx)]: the result sets [qrs], each a [map[ast.Var]*ast.Term],
      and the error *)
  topdown_Run :
    Query → Compiler → Store → Transaction → option Term → bool →
    list (gmap string Term) * option string;
  (** [ast.JSON(term.Value)] *)
  ast_JSON : Term → string + JSON
}.

(** One entry of [filepath.Walk]: the arguments of the callback. *)
Record WalkEntry : Type := {
  walk_path : string;
  walk_IsDir : bool;
  walk_err : option string
}.

(** The operating system.  [filepath_Walk root fs] lists the entries the
    walk visits, in its order, as long as the callback returns nil. *)
Class OS : Type := {
  FileSystem : Type;
  filepath_Walk : string → FileSystem → list WalkEntry;
  ioutil_ReadFile : string → FileSystem → string + bytes;
  os_MkdirAll : string → FileSystem → option string * FileSystem;
  os_WriteFile : string → bytes → FileSystem → option string * FileSystem
}.

(** [for k, v := range m] over a Go map visits every entry once, in an
    order the language leaves open. *)
Definition MapRange : Type := ∀ V : Type, gmap string V → list (string * V).

Definition MapRange_ok (range : MapRange) : Prop :=
  ∀ V (m : gmap string V), range V m ≡ₚ map_to_list m.

(** ** Parts the two revisions share *)

(** The two counters of [generate] and what it has printed, one entry per
    [Printf] or [Println].  The counters are Go [int]s that grow by one
    for a case or a test, far from their range: natural numbers. *)
Record RunState : Type := {
  successCount : nat;
  failureCount : nat;
  stdout : list string
}.

(** [fmt.Printf(line)] *)
Definition printf (line : string) (st : RunState) : RunState :=
  {| successCount := successCount st; failureCount := failureCount st;
     stdout := stdout st ++ [line] |}.

(** [fmt.Printf(line); failureCount++] *)
Definition fail (line : string) (st : RunState) : RunState :=
  {| successCount := successCount st; failureCount := S (failureCount st);
     stdout := stdout st ++ [line] |}.

(** [successCount++] *)
Definition succeed (st : RunState) : RunState :=
  {| successCount := S (successCount st); failureCount := failureCount st;
     stdout := stdout st |}.

(** [strings.HasSuffix(s, suffix)] *)
Definition strings_HasSuffix (s suffix : string) : bool :=
  (String.length suffix <=? String.length s) &&
  String.eqb (string_drop (String.length s - String.length suffix) s) suffix.

(** [m[name(i)] = x] for [i, x := range xs], from index [i] on. *)
Fixpoint modules_from (name : nat → string) (i : nat) (xs : list string)
    (m : gmap string string) : gmap string string :=
  match xs with
  | [] => m
  | x :: rest => modules_from name (S i) rest (<[name i := x]> m)
  end.

(** [fmt.Sprintf("mod_%d", i)] and [fmt.Sprintf("test-%d.rego", i)] *)
Definition mod_name (i : nat) : string := "mod_" +:+ fmt_d i.
Definition rego_name (i : nat) : string := "test-" +:+ fmt_d i +:+ ".rego".

(** [sort.Strings] *)
Definition sort_Strings (keys : list string) : list string :=
  merge_sort String.le keys.

Section Shared.
Context `{!Engine} `{!OS} (range : MapRange).

(** The loop of [getModuleFiles] over the sorted keys. *)
Fixpoint parse_modules (src : gmap string string) (includeRaw : bool)
    (keys : list string) (modules : list (ModuleFile Rule))
    : go (list (ModuleFile Rule)) :=
  match keys with
  | [] => Ret modules
  | k :: rest =>
      let text := default "" (src !! k) in
      match ast_ParseModule k text with
      | inl err => Panic err
      | inr module =>
          parse_modules src includeRaw rest
            (modules ++ [{| Parsed := module; Path := k; URL := k;
                            Raw := if includeRaw
                                   then String.list_byte_of_string text
                                   else [] |}])
      end
  end.

Definition getModuleFiles (src : gmap string string) (includeRaw : bool)
    : go (list (ModuleFile Rule)) :=
  let keys := (range _ src).*1 in
  parse_modules src includeRaw (sort_Strings keys) [].

(** The first lines of the body of [generate]'s loop over the cases:
    the module files of a case. *)
Definition module_files (tc : ExtendedTestCase) : go (list (ModuleFile Rule)) :=
  getModuleFiles (modules_from mod_name 0 (Modules tc) ∅) false.

(** [writeWile] *)
Definition writeWile (folderPath name : string) (data : bytes)
    (fs : FileSystem) : option string * FileSystem :=
  os_WriteFile (path_join folderPath name) data fs.

(** The store [eval] opens. *)
Definition eval_store (tc : ExtendedTestCase) : Store :=
  match Data tc with
  | Some data => inmem_NewFromObject data
  | None => inmem_New
  end.

(** The input document [eval] attaches. *)
Definition eval_input (tc : ExtendedTestCase) : go (option Term) :=
  match InputTerm tc with
  | Some s =>
      match ast_MustParseTerm s with
      | Some t => Ret (Some t)
      | None => Panic "ast.MustParseTerm"
      end
  | None =>
      match Input tc with
      | Some x =>
          match ast_MustInterfaceToValue x with
          | Some t => Ret (Some t)
          | None => Panic "ast.MustInterfaceToValue"
          end
      | None => Ret None
      end
  end.

(** [for k, term := range qr] of [eval] *)
Fixpoint result_of (bindings : list (string * Term)) (result : ResultMap)
    : error + ResultMap :=
  match bindings with
  | [] => inr result
  | (k, term) :: rest =>
      match ast_JSON term with
      | inl err => inl (LibraryError "ast.JSON" err)
      | inr v => result_of rest (<[k := v]> result)
      end
  end.

(** [for _, qr := range qrs] of [eval] *)
Fixpoint resultSet_of (qrs : list (gmap string Term))
    (resultSet : list ResultMap) : error + list ResultMap :=
  match qrs with
  | [] => inr resultSet
  | qr :: rest =>
      match result_of (range _ qr) ∅ with
      | inl err => inl err
      | inr result => resultSet_of rest (resultSet ++ [result])
      end
  end.

(** What [eval] does with [qrs, err] of [Run]. *)
Definition eval_results (tc : ExtendedTestCase)
    (run : list (gmap string Term) * option string)
    : error + list ResultMap :=
  let '(qrs, err) := run in
  match err, WantErrorCode tc, WantError tc with
  | Some e, None, None => inl (LibraryError "topdown.Run" e)
  | _, _, _ =>
      if (1 <? length qrs)
      then inl (Errorf "ResultSet contains more than one entry")
      else resultSet_of qrs []
  end.

(** [eval] after [q := createQuery(...)]; the two revisions differ in
    [createQuery] only. *)
Definition eval_query (q : list Expr) (tc : ExtendedTestCase)
    : go (error + list ResultMap) :=
  let modules := modules_from rego_name 0 (Modules tc) ∅ in
  match ast_MustCompileModules modules with
  | None => Panic "ast.MustCompileModules"
  | Some compiler =>
      match QueryCompiler_Compile compiler q with
      | inl err => Ret (inl (LibraryError "QueryCompiler.Compile" err))
      | inr query =>
          let store := eval_store tc in
          match storage_NewTransactionOrDie store with
          | None => Panic "storage.NewTransactionOrDie"
          | Some txn =>
              input ← eval_input tc;
              Ret (eval_results tc
                     (topdown_Run query compiler store txn input
                                  (StrictError tc)))
          end
      end
  end.

(** [eval] gets as far as [Run]: the modules compile, the query
    compiles, the transaction opens and the input parses. *)
Definition reaches_Run (q : list Expr) (tc : ExtendedTestCase)
    (compiler : Compiler) (query : Query) (txn : Transaction)
    (input : option Term) : Prop :=
  ast_MustCompileModules (modules_from rego_name 0 (Modules tc) ∅)
    = Some compiler
  ∧ QueryCompiler_Compile compiler q = inr query
  ∧ storage_NewTransactionOrDie (eval_store tc) = Some txn
  ∧ eval_input tc = Ret input.

(** The loop of [createQuery], over the text of each expression. *)
Fixpoint parse_exprs (texts : list string) (q : list Expr) : go (list Expr) :=
  match texts with
  | [] => Ret q
  | s :: rest =>
      match ast_MustParseExpr s with
      | Some expr => parse_exprs rest (q ++ [expr])
      | None => Panic "ast.MustParseExpr"
      end
  end.

(** The output path of a test: [tPath[len(tPath)-2]] under [dstPath], and
    [tPath[len(tPath)-1]] with ".yaml" replaced. *)
Definition output_path (dstPath : string) (t : Test) : go (string * string) :=
  let tPath := strings_Split (filename t) "/" in
  group ← index tPath (Z.of_nat (length tPath) - 2)%Z;
  let folderPath := path_join dstPath group in
  name ← index tPath (Z.of_nat (length tPath) - 1)%Z;
  let tcFileName := strings_ReplaceAll name ".yaml" ".json" in
  Ret (folderPath, tcFileName).

(** The end of the body of the loop over the tests, the same in both
    revisions: serialise the test and write it. *)
Definition emit (dstPath : string) (t : Test) (st : RunState)
    (fs : FileSystem) : go (RunState * FileSystem) :=
  match json_MarshalIndent t with
  | inl err =>
      Ret (fail ("Failed to marchal tc to json: " +:+ err +:+ newline) st, fs)
  | inr tcJson =>
      '(folderPath, tcFileName) ← output_path dstPath t;
      match os_MkdirAll folderPath fs with
      | (Some err, _) => Panic err
      | (None, fs) =>
          match writeWile folderPath tcFileName tcJson fs with
          | (Some err, fs) =>
              Ret (fail ("Failed to write tc: " +:+ err +:+ newline) st, fs)
          | (None, fs) => Ret (st, fs)
          end
      end
  end.

(** The last line [generate] prints. *)
Definition tally (st : RunState) : string :=
  "Tests generated: " +:+ fmt_d (successCount st + failureCount st)
  +:+ "; successes: " +:+ fmt_d (successCount st)
  +:+ "; failures: " +:+ fmt_d (failureCount st) +:+ newline.

(** [x.Cases[i].Filename = path; x.filename = path] for every [i]: a
    file without cases keeps the zero [filename]. *)
Definition stamp (path : string) (cases : list ExtendedTestCase) : Test :=
  {| filename := match cases with [] => "" | _ :: _ => path end;
     Cases := set_Filename path <$> cases |}.
End Shared.

(** ** The final revision *)

Module Final.
Section Final.
Context `{!Engine} `{!OS} (range : MapRange).

(** The callback of [filepath.Walk] in [loadTests], over the entries of
    the walk: the first error ends the walk. *)
Fixpoint walk (fs : FileSystem) (entries : list WalkEntry)
    (result : list Test) (out : list string)
    : error + list Test * list string :=
  match entries with
  | [] => inr (result, out)
  | entry :: rest =>
      let path := walk_path entry in
      match walk_err entry with
      | Some err => inl (LibraryError "filepath.Walk" err)
      | None =>
          if walk_IsDir entry then walk fs rest result out
          else
            let out :=
              if strings_HasSuffix path "test-functions-1006.yaml"
              then out ++ ["break" +:+ newline] else out in
            match ioutil_ReadFile path fs with
            | inl err => inl (Errorf (path +:+ ": " +:+ err))
            | inr bs =>
                match util_Unmarshal bs with
                | inl err => inl (Errorf (path +:+ ": " +:+ err))
                | inr cases =>
                    walk fs rest (result ++ [stamp path cases]) out
                end
            end
      end
  end.

Definition loadTests (dirpath : string) (fs : FileSystem)
    : go (list Test * list string) :=
  match walk fs (filepath_Walk dirpath fs) [] [] with
  | inl err => Panic (Error err)
  | inr r => Ret r
  end.

(** [fmt.Sprintf("%s = %s", strings.ReplaceAll(pkg, ".", "_"), pkg)] *)
Definition query_text (pkg : string) : string :=
  strings_ReplaceAll pkg "." "_" +:+ " = " +:+ pkg.

Definition createQuery (packageNames : list string) : go (list Expr) :=
  parse_exprs (query_text <$> packageNames) [].

Definition eval (packageNames : list string) (tc : ExtendedTestCase)
    : go (error + list ResultMap) :=
  q ← createQuery packageNames;
  eval_query range q tc.

(** The entry point of a package path. *)
Definition entry_point (pkg : string) : string :=
  strings_ReplaceAll (strings_TrimPrefix pkg "data.") "." "/".

(** [for _, modFile := range modFiles] of [generate]: the package names,
    the entry points and the state of the run. *)
Fixpoint entry_points (note : string) (modFiles : list (ModuleFile Rule))
    (packageNames entryPoints : list string) (st : RunState)
    : list string * list string * RunState :=
  match modFiles with
  | [] => (packageNames, entryPoints, st)
  | modFile :: rest =>
      let pkg := Package_Path_String (Parsed modFile) in
      if decide (length (Rules (Parsed modFile)) = 0%nat)
      then entry_points note rest packageNames entryPoints
             (printf ("Skipping " +:+ pkg +:+ " in " +:+ note
                      +:+ ": No rules" +:+ newline) st)
      else entry_points note rest (packageNames ++ [pkg])
             (entryPoints ++ [entry_point pkg]) st
  end.

(** The expected result of a case: [inl] is a [continue]. *)
Definition expected_result (packageNames : list string)
    (tc : ExtendedTestCase) (st : RunState)
    : go (RunState + ExtendedTestCase) :=
  if bool_decide (WantError tc = None ∧ WantErrorCode tc = None)
  then
    r ← eval packageNames tc;
    match r with
    | inl err =>
        Ret (inl (fail ("eval/Skipping " +:+ Note tc +:+ ": "
                        +:+ Error err +:+ newline) st))
    | inr expectedResultSet =>
        if decide (length expectedResultSet ≠ 1%nat)
        then Ret (inl (fail ("Unexpected result count "
                             +:+ fmt_d (length expectedResultSet)
                             +:+ " for " +:+ Note tc +:+ newline) st))
        else
          result ← index expectedResultSet 0%Z;
          Ret (inr (set_WantPlanResult (JObject result) tc))
    end
  else Ret (inr tc).

(** The body of the loop over the cases of a test: the case as the
    iteration leaves it, and the state of the run. *)
Definition generate_case (tc : ExtendedTestCase) (st : RunState)
    : go (ExtendedTestCase * RunState) :=
  modFiles ← module_files range tc;
  if decide (length modFiles = 0%nat)
  then Ret (tc, printf ("Skipping " +:+ Note tc +:+ ": No modules"
                        +:+ newline) st)
  else
    let '(packageNames, entryPoints, st) :=
      entry_points (Note tc) modFiles [] [] st in
    let tc := set_EntryPoints entryPoints tc in
    match compiler_Build true entryPoints modFiles with
    | (Some err, _) =>
        Ret (tc, fail ("compile/Skipping " +:+ Note tc +:+ ": "
                       +:+ err +:+ newline) st)
    | (None, planModules) =>
        if decide (length planModules ≠ 1%nat)
        then Ret (tc, fail ("Unexpected plan count "
                            +:+ fmt_d (length planModules)
                            +:+ " for " +:+ Note tc +:+ newline) st)
        else
          expected ← expected_result packageNames tc st;
          match expected with
          | inl st => Ret (tc, st)
          | inr tc =>
              planModule ← index planModules 0%Z;
              match json_Unmarshal (plan_Raw planModule) with
              | inl err =>
                  Ret (tc, fail ("Failed to unmarshal plan: " +:+ err
                                 +:+ newline) st)
              | inr JNull =>
                  Ret (tc, fail ("Failed to unmarshal plan: nil"
                                 +:+ newline) st)
              | inr plan => Ret (set_Plan plan tc, succeed st)
              end
          end
    end.

(** [for _, tc := range t.Cases] *)
Fixpoint generate_cases (cases : list ExtendedTestCase) (st : RunState)
    : go (list ExtendedTestCase * RunState) :=
  match cases with
  | [] => Ret ([], st)
  | tc :: rest =>
      '(tc, st) ← generate_case tc st;
      '(rest, st) ← generate_cases rest st;
      Ret (tc :: rest, st)
  end.

(** The body of the loop over the tests. *)
Definition generate_test (dstPath : string) (t : Test) (st : RunState)
    (fs : FileSystem) : go (RunState * FileSystem) :=
  '(cases, st) ← generate_cases (Cases t) st;
  emit dstPath {| filename := filename t; Cases := cases |} st fs.

(** [for _, t := range loadTests(srcPath)] *)
Fixpoint generate_tests (dstPath : string) (tests : list Test)
    (st : RunState) (fs : FileSystem) : go (RunState * FileSystem) :=
  match tests with
  | [] => Ret (st, fs)
  | t :: rest =>
      '(st, fs) ← generate_test dstPath t st fs;
      generate_tests dstPath rest st fs
  end.

Definition generate (srcPath dstPath : string) (fs : FileSystem)
    : go (RunState * FileSystem) :=
  let out := ["Generating compliance tests" +:+ newline] in
  '(tests, loaded) ← loadTests srcPath fs;
  '(st, fs) ← generate_tests dstPath tests
                {| successCount := 0; failureCount := 0;
                   stdout := out ++ loaded |} fs;
  Ret (printf (tally st) st, fs).

(** [main], on [os.Args] *)
Definition main (args : list string) (fs : FileSystem)
    : go (RunState * FileSystem) :=
  match args with
  | [_; dst] => generate "opa/test/cases/testdata" dst fs
  | [_; src; dst] => generate src dst fs
  | [] => Panic "runtime error: index out of range"
  | prog :: _ => Panic ("Usage: " +:+ prog +:+ " [SRC] DST")
  end.
End Final.
End Final.

(** ** The middle revision *)

Module Middle.
Section Middle.
Context `{!Engine} `{!OS} (range : MapRange).

Fixpoint walk (fs : FileSystem) (entries : list WalkEntry)
    (result : list Test) : error + list Test :=
  match entries with
  | [] => inr result
  | entry :: rest =>
      let path := walk_path entry in
      match walk_err entry with
      | Some err => inl (LibraryError "filepath.Walk" err)
      | None =>
          if walk_IsDir entry then walk fs rest result
          else
            match ioutil_ReadFile path fs with
            | inl err => inl (Errorf (path +:+ ": " +:+ err))
            | inr bs =>
                match util_Unmarshal bs with
                | inl err => inl (Errorf (path +:+ ": " +:+ err))
                | inr cases => walk fs rest (result ++ [stamp path cases])
                end
            end
      end
  end.

Definition loadTests (dirpath : string) (fs : FileSystem) : go (list Test) :=
  match walk fs (filepath_Walk dirpath fs) [] with
  | inl err => Panic (Error err)
  | inr r => Ret r
  end.

(** [fmt.Sprintf("%s = data.%s", entryPoint, entryPoint)] *)
Definition query_text (entryPoint : string) : string :=
  entryPoint +:+ " = data." +:+ entryPoint.

Definition createQuery (entryPoints : list string) : go (list Expr) :=
  parse_exprs (query_text <$> entryPoints) [].

Definition eval (entryPoints : list string) (tc : ExtendedTestCase)
    : go (error + list ResultMap) :=
  q ← createQuery entryPoints;
  eval_query range q tc.

(** The entry point of a package path. *)
Definition entry_point (pkg : string) : string :=
  strings_TrimPrefix (strings_ReplaceAll pkg "." "/") "data/".

(** [for _, modFile := range modFiles] of [generate] *)
Fixpoint entry_points (modFiles : list (ModuleFile Rule))
    (entryPoints : list string) : list string :=
  match modFiles with
  | [] => entryPoints
  | modFile :: rest =>
      entry_points rest
        (entryPoints ++ [entry_point (Package_Path_String (Parsed modFile))])
  end.

(** The expected result of a case: [inl] is a [continue]. *)
Definition expected_result (entryPoints : list string)
    (tc : ExtendedTestCase) (st : RunState)
    : go (RunState + ExtendedTestCase) :=
  if bool_decide (WantError tc = None)
  then
    r ← eval entryPoints tc;
    match r with
    | inl err =>
        Ret (inl (fail ("Skipping " +:+ Note tc +:+ ": " +:+ Error err
                        +:+ newline) st))
    | inr expectedResultSet =>
        if decide (length expectedResultSet ≠ 1%nat)
        then Ret (inl (fail ("Unexpected result count: "
                             +:+ fmt_d (length expectedResultSet)
                             +:+ newline) st))
        else
          result ← index expectedResultSet 0%Z;
          Ret (inr (set_WantPlanResult (JObject result) tc))
    end
  else Ret (inr tc).

Definition generate_case (tc : ExtendedTestCase) (st : RunState)
    : go (ExtendedTestCase * RunState) :=
  modFiles ← module_files range tc;
  let entryPoints := entry_points modFiles [] in
  let tc := set_EntryPoints entryPoints tc in
  match compiler_Build false entryPoints modFiles with
  | (Some err, _) =>
      Ret (tc, fail ("Skipping " +:+ Note tc +:+ ": " +:+ err +:+ newline) st)
  | (None, planModules) =>
      if decide (length planModules ≠ 1%nat)
      then Ret (tc, fail ("Unexpected plan count: "
                          +:+ fmt_d (length planModules) +:+ newline) st)
      else
        expected ← expected_result entryPoints tc st;
        match expected with
        | inl st => Ret (tc, st)
        | inr tc =>
            planModule ← index planModules 0%Z;
            match json_Unmarshal (plan_Raw planModule) with
            | inl err =>
                Ret (tc, fail ("Failed to unmarshal plan: " +:+ err
                               +:+ newline) st)
            | inr plan => Ret (set_Plan plan tc, succeed st)
            end
        end
  end.

Fixpoint generate_cases (cases : list ExtendedTestCase) (st : RunState)
    : go (list ExtendedTestCase * RunState) :=
  match cases with
  | [] => Ret ([], st)
  | tc :: rest =>
      '(tc, st) ← generate_case tc st;
      '(rest, st) ← generate_cases rest st;
      Ret (tc :: rest, st)
  end.

Definition generate_test (dstPath : string) (t : Test) (st : RunState)
    (fs : FileSystem) : go (RunState * FileSystem) :=
  '(cases, st) ← generate_cases (Cases t) st;
  emit dstPath {| filename := filename t; Cases := cases |} st fs.

Fixpoint generate_tests (dstPath : string) (tests : list Test)
    (st : RunState) (fs : FileSystem) : go (RunState * FileSystem) :=
  match tests with
  | [] => Ret (st, fs)
  | t :: rest =>
      '(st, fs) ← generate_test dstPath t st fs;
      generate_tests dstPath rest st fs
  end.

Definition generate (srcPath dstPath : string) (fs : FileSystem)
    : go (RunState * FileSystem) :=
  let out := ["Generating compliance tests" +:+ newline] in
  tests ← loadTests srcPath fs;
  '(st, fs) ← generate_tests dstPath tests
                {| successCount := 0; failureCount := 0; stdout := out |} fs;
  Ret (printf (tally st) st, fs).

Definition main (args : list string) (fs : FileSystem)
    : go (RunState * FileSystem) :=
  match args with
  | [_; dst] => generate "opa/test/cases/testdata" dst fs
  | [_; src; dst] => generate src dst fs
  | [] => Panic "runtime error: index out of range"
  | prog :: _ => Panic ("Usage: " +:+ prog +:+ " [SRC] DST")
  end.
End Middle.
End Middle.

(** ** The first revision

    [part_000], the earliest revision of the program: every case gets a
    directory of its own under [tmp], and the plan, the input, the data and
    the expected results are written to files of their own in it.  Its
    [getModuleFiles] and [writeWile] are the ones above; its entry points
    and its query are the middle revision's. *)

(** The library calls only the first revision makes. *)
Class CaseLoader `{!OS} : Type := {
  (** [cases.MustLoad(path).Sorted().Cases]; [None] is the panic *)
  cases_MustLoad : string → FileSystem → option (list ExtendedTestCase);
  (** [json.MarshalIndent(v, "", "\t")] for a decoded value [v] *)
  json_MarshalIndent_value : JSON → string + bytes
}.

(** [strings.Index(s, sep)] with the two slices around the match: the text
    before the first occurrence of a non-empty [sep], and the text after
    it. *)
Fixpoint cut (sep s : string) : option (string * string) :=
  match s with
  | EmptyString => None
  | String c s' =>
      if String.prefix sep s
      then Some (EmptyString, string_drop (String.length sep) s)
      else match cut sep s' with
           | Some (before, after) => Some (String c before, after)
           | None => None
           end
  end.

(** [strings.SplitN(s, sep, 2)] for a non-empty [sep]: one split at the
    first occurrence, or [s] alone. *)
Definition strings_SplitN_2 (s sep : string) : list string :=
  match cut sep s with
  | Some (before, after) => [before; after]
  | None => [s]
  end.

Module First.
Section First.
Context `{!Engine} `{!OS} `{!CaseLoader} (range : MapRange).

(** The group and the name of a case: from its note, or from the
    directory of its file.  [fileParts[l-2 : l-1][0]] is
    [fileParts[l-2]], and panics when that is out of range. *)
Definition group_and_name (tc : ExtendedTestCase)
    : go (error + string * string) :=
  let parts := strings_SplitN_2 (Note tc) "/" in
  match parts with
  | [name] =>
      let fileParts := strings_Split (Filename tc) "/" in
      let l := length fileParts in
      if l <? 2
      then Ret (inl (Errorf
                  ("test case file path could not be split into group: "
                   +:+ Filename tc)))
      else
        group ← index fileParts (Z.of_nat l - 2)%Z;
        Ret (inr (group, name))
  | [group; name] => Ret (inr (group, name))
  | _ =>
      Ret (inl (Errorf
             ("test case note could not be split into group and name: "
              +:+ Note tc)))
  end.

Definition createFolder (tc : ExtendedTestCase) (fs : FileSystem)
    : go ((error + string) * FileSystem) :=
  r ← group_and_name tc;
  match r with
  | inl err => Ret (inl err, fs)
  | inr (group, name) =>
      let name := strings_ReplaceAll name " " "_" in
      let path := "tmp/" +:+ group +:+ "/" +:+ name in
      match os_MkdirAll path fs with
      | (Some err, fs) => Ret (inl (LibraryError "os.MkdirAll" err), fs)
      | (None, fs) => Ret (inr path, fs)
      end
  end.

(** [indent] *)
Definition indent (raw : bytes) : string + bytes :=
  match json_Unmarshal raw with
  | inl err => inl err
  | inr d => json_MarshalIndent_value d
  end.

(** [fmt.Sprintf("%s = data.%s", entryPoint, entryPoint)] *)
Definition query_text (entryPoint : string) : string :=
  entryPoint +:+ " = data." +:+ entryPoint.

Definition createQuery (entryPoints : list string) : go (list Expr) :=
  parse_exprs (query_text <$> entryPoints) [].

(** What [eval] does with [qrs, err] of [Run]: every error is returned. *)
Definition eval_results (run : list (gmap string Term) * option string)
    : error + list ResultMap :=
  let '(qrs, err) := run in
  match err with
  | Some e => inl (LibraryError "topdown.Run" e)
  | None =>
      if (1 <? length qrs)
      then inl (Errorf "ResultSet contains more than one entry")
      else resultSet_of range qrs []
  end.

Definition eval (entryPoints : list string) (tc : ExtendedTestCase)
    : go (error + list ResultMap) :=
  q ← createQuery entryPoints;
  let modules := modules_from rego_name 0 (Modules tc) ∅ in
  match ast_MustCompileModules modules with
  | None => Panic "ast.MustCompileModules"
  | Some compiler =>
      match QueryCompiler_Compile compiler q with
      | inl err => Ret (inl (LibraryError "QueryCompiler.Compile" err))
      | inr query =>
          let store := eval_store tc in
          match storage_NewTransactionOrDie store with
          | None => Panic "storage.NewTransactionOrDie"
          | Some txn =>
              input ← eval_input tc;
              Ret (eval_results
                     (topdown_Run query compiler store txn input
                                  (StrictError tc)))
          end
      end
  end.

(** Marshal a value and write it to [name] in the folder of the case;
    the flag tells whether both went well.  The three places of [main]
    that do this differ in the word [what] of the lines they print. *)
Definition write_json (what folderPath name : string) (v : JSON)
    (st : RunState) (fs : FileSystem) : bool * RunState * FileSystem :=
  match json_MarshalIndent_value v with
  | inl err =>
      (false, fail ("Failed to marshal " +:+ what +:+ ": " +:+ err
                    +:+ newline) st, fs)
  | inr data =>
      match writeWile folderPath name data fs with
      | (Some err, fs) =>
          (false, fail ("Failed to write " +:+ what +:+ ": " +:+ err
                        +:+ newline) st, fs)
      | (None, fs) => (true, st, fs)
      end
  end.

(** [if v != nil { ... }] for the input and for the data: the flag is
    false after a [continue]. *)
Definition write_optional (what folderPath name : string) (v : option JSON)
    (st : RunState) (fs : FileSystem) : bool * RunState * FileSystem :=
  match v with
  | Some v => write_json what folderPath name v st fs
  | None => (true, st, fs)
  end.

(** [for entryPoint, expectedResult := range expectedResultSet[0]]: a
    [continue] in this loop goes on with the next expected result. *)
Fixpoint write_expected (folderPath : string) (results : list (string * JSON))
    (st : RunState) (fs : FileSystem) : RunState * FileSystem :=
  match results with
  | [] => (st, fs)
  | (entryPoint, expectedResult) :: rest =>
      let fileName := "expected_" +:+ entryPoint +:+ ".json" in
      let '(_, st, fs) :=
        write_json "expected result" folderPath fileName expectedResult st fs in
      write_expected folderPath rest st fs
  end.

(** The body of the loop of [main], from the plan file on. *)
Definition write_case (folderPath : string) (tc : ExtendedTestCase)
    (planData : bytes) (result : ResultMap) (st : RunState)
    (fs : FileSystem) : RunState * FileSystem :=
  match writeWile folderPath "plan.json" planData fs with
  | (Some err, fs) =>
      (fail ("Failed to write plan: " +:+ err +:+ newline) st, fs)
  | (None, fs) =>
      let '(ok, st, fs) :=
        write_optional "input" folderPath "input.json" (Input tc) st fs in
      if negb ok then (st, fs)
      else
        let '(ok, st, fs) :=
          write_optional "data" folderPath "data.json"
            (JObject <$> Data tc) st fs in
        if negb ok then (st, fs)
        else
          let '(st, fs) :=
            write_expected folderPath (range _ result) st fs in
          (succeed st, fs)
  end.

(** The body of the loop of [main].  [expectedResultSet[0]] is read
    where the plan is at hand, before the files are written: after the
    check of the length it cannot panic, wherever it is read. *)
Definition generate_case (tc : ExtendedTestCase) (st : RunState)
    (fs : FileSystem) : go (RunState * FileSystem) :=
  '(folder, fs) ← createFolder tc fs;
  match folder with
  | inl err => Panic (Error err)
  | inr folderPath =>
      modFiles ← module_files range tc;
      let entryPoints := Middle.entry_points modFiles [] in
      match compiler_Build false entryPoints modFiles with
      | (Some err, _) =>
          Ret (fail ("Skipping " +:+ Note tc +:+ ": " +:+ err +:+ newline) st,
               fs)
      | (None, planModules) =>
          if decide (length planModules ≠ 1%nat)
          then Ret (fail ("Unexpected plan count: "
                          +:+ fmt_d (length planModules) +:+ newline) st, fs)
          else
            r ← eval entryPoints tc;
            match r with
            | inl err =>
                Ret (fail ("Skipping " +:+ Note tc +:+ ": " +:+ Error err
                           +:+ newline) st, fs)
            | inr expectedResultSet =>
                if decide (length expectedResultSet ≠ 1%nat)
                then Ret (fail ("Unexpected result count: "
                                +:+ fmt_d (length expectedResultSet)
                                +:+ newline) st, fs)
                else
                  planModule ← index planModules 0%Z;
                  match indent (plan_Raw planModule) with
                  | inl err =>
                      Ret (fail ("Failed to marshal plan: " +:+ err
                                 +:+ newline) st, fs)
                  | inr planData =>
                      result ← index expectedResultSet 0%Z;
                      Ret (write_case folderPath tc planData result st fs)
                  end
            end
      end
  end.

(** [for _, tc := range cases.MustLoad(...).Sorted().Cases] *)
Fixpoint generate_cases (cases : list ExtendedTestCase) (st : RunState)
    (fs : FileSystem) : go (RunState * FileSystem) :=
  match cases with
  | [] => Ret (st, fs)
  | tc :: rest =>
      '(st, fs) ← generate_case tc st fs;
      generate_cases rest st fs
  end.

Definition main (fs : FileSystem) : go (RunState * FileSystem) :=
  let st := {| successCount := 0; failureCount := 0;
               stdout := ["Generating compliance tests" +:+ newline] |} in
  match cases_MustLoad "opa/test/cases/testdata" fs with
  | None => Panic "cases.MustLoad"
  | Some cases =>
      '(st, fs) ← generate_cases cases st fs;
      Ret (printf (tally st) st, fs)
  end.
End First.
End First.

(** ** A scripted engine and a small file system

    Concrete instances of the two interfaces, on which the generator runs
    inside Rocq.  The engine is driven by the words of the module text:
    ["package p r1 r2"] parses to package [data.p] with the rules [r1] and
    [r2], and a few rule names make the compiler or the evaluator
    misbehave in a chosen way. *)

Module Script.

Definition of_string (s : string) : bytes := String.list_byte_of_string s.
Definition to_string (b : bytes) : string := String.string_of_list_byte b.

Definition words (s : string) : list string := strings_Split s " ".

Definition has (w : string) (ws : list string) : bool := bool_decide (w ∈ ws).

Definition ParseModule (file text : string) : string + Module string :=
  match words text with
  | "package" :: path :: rules =>
      inr {| Package_Path_String := "data." +:+ path; Rules := rules |}
  | _ => inl (file +:+ ": rego_parse_error: package expected")
  end.

Definition rules_of (mods : list (ModuleFile string)) : list string :=
  mods ≫= (λ m, Rules (Parsed m)).

Definition plan_of (raw : string) : PlanModuleFile :=
  {| plan_Path := "plan.json"; plan_Raw := of_string raw |}.

Definition Build (prune : bool) (eps : list string)
    (mods : list (ModuleFile string)) : option string * list PlanModuleFile :=
  let rs := rules_of mods in
  if bool_decide (eps = [])
  then (Some "plan compilation requires at least one entrypoint", [])
  else if has "undefined_ref" rs then (Some "rego_unsafe_var_error", [])
  else if has "no_plan" rs then (None, [])
  else if has "two_plans" rs then (None, [plan_of "{}"; plan_of "{}"])
  else if has "bad_plan" rs then (None, [plan_of "{"])
  else if has "null_plan" rs then (None, [plan_of "null"])
  else (None, [plan_of ("plan for " +:+ String.concat "," eps)]).

Definition Unmarshal (raw : bytes) : string + JSON :=
  let s := to_string raw in
  if String.eqb s "{" then inl "unexpected end of JSON input"
  else if String.eqb s "null" then inr JNull
  else inr (JString s).

Definition show (v : JSON) : string :=
  match v with
  | JNull => "null"
  | JBool true => "true"
  | JBool false => "false"
  | JNumber n => n
  | JString s => s
  | JArray _ => "[...]"
  | JObject m => "{" +:+ String.concat "," (map_to_list m).*1 +:+ "}"
  end.

Definition show_case (tc : ExtendedTestCase) : string :=
  Note tc +:+ " entrypoints=" +:+ String.concat "," (EntryPoints tc)
  +:+ " plan=" +:+ show (Plan tc)
  +:+ " want_plan_result=" +:+ show (WantPlanResult tc) +:+ ";".

Definition unsupported (tc : ExtendedTestCase) : bool :=
  match Input tc with
  | Some (JNumber n) => String.eqb n "NaN"
  | _ => false
  end.

Definition MarshalIndent (t : Test) : string + bytes :=
  if existsb unsupported (Cases t)
  then inl "json: unsupported value: NaN"
  else inr (of_string (String.concat "" (show_case <$> Cases t))).

Fixpoint compile_texts (texts : list string) : option (list string) :=
  match texts with
  | [] => Some []
  | text :: rest =>
      match ParseModule "" text, compile_texts rest with
      | inr m, Some rs => Some (Rules m ++ rs)
      | _, _ => None
      end
  end.

Definition MustCompileModules (modules : gmap string string)
    : option (list string) :=
  compile_texts (map_to_list modules).*2.

Definition var_of (expr : string) : string :=
  match words expr with
  | v :: _ => v
  | [] => ""
  end.

Definition Run (query rules : list string) (store : Store) (txn : unit)
    (input : option JSON) (strict : bool)
    : list (gmap string JSON) * option string :=
  let value := JArray [JObject (store_data store); default JNull input] in
  let bound : gmap string JSON :=
    list_to_map ((λ e, (var_of e, value)) <$> query) in
  if has "eval_error" rules then ([], Some "eval_builtin_error")
  else if has "partial_error" rules then ([bound], Some "eval_builtin_error")
  else if has "no_result" rules then ([], None)
  else if has "two_results" rules then ([bound; bound], None)
  else if has "unground" rules then ([{[ "x" := JString "_" ]}], None)
  else ([bound], None).

Definition ToJSON (term : JSON) : string + JSON :=
  match term with
  | JString s => if String.eqb s "_" then inl "unground term" else inr term
  | _ => inr term
  end.

(** The fixture files are looked up by their text in [fixtures]. *)
Definition LoadYAML (fixtures : list (string * list ExtendedTestCase))
    (bs : bytes) : string + list ExtendedTestCase :=
  match list_find (λ f, f.1 = to_string bs) fixtures with
  | Some (_, (_, cases)) => inr cases
  | None => inl "yaml: unmarshal errors"
  end.

Definition engine (fixtures : list (string * list ExtendedTestCase))
    : Engine :=
  {| Rule := string; Expr := string; Compiler := list string;
     Query := list string; Transaction := unit; Term := JSON;
     util_Unmarshal := LoadYAML fixtures;
     ast_ParseModule := ParseModule;
     compiler_Build := Build;
     json_Unmarshal := Unmarshal;
     json_MarshalIndent := MarshalIndent;
     ast_MustParseExpr := Some;
     ast_MustCompileModules := MustCompileModules;
     QueryCompiler_Compile := λ _ q, inr q;
     storage_NewTransactionOrDie := λ _, Some ();
     ast_MustParseTerm := λ s, Some (JString s);
     ast_MustInterfaceToValue := Some;
     topdown_Run := Run;
     ast_JSON := ToJSON |}.

(** A file system: the files of the source tree in walk order, the
    files written and the directories made.  Making a directory fails
    where a file is in the way, writing a file fails where a directory
    is. *)
Record Files : Type := {
  source : list (string * string);
  written : gmap string bytes;
  dirs : gset string
}.

Definition Walk (root : string) (fs : Files) : list WalkEntry :=
  {| walk_path := root; walk_IsDir := true; walk_err := None |} ::
  ((λ f, {| walk_path := f.1; walk_IsDir := false; walk_err := None |})
     <$> filter (λ f, strings_HasPrefix f.1 (root +:+ "/") = true) (source fs)).

Definition ReadFile (path : string) (fs : Files) : string + bytes :=
  match list_find (λ f, f.1 = path) (source fs) with
  | Some (_, (_, text)) => inr (of_string text)
  | None => inl "no such file or directory"
  end.

Definition MkdirAll (path : string) (fs : Files) : option string * Files :=
  if bool_decide (path ∈ dirs fs) then (None, fs)
  else if bool_decide (is_Some (written fs !! path))
  then (Some "not a directory", fs)
  else (None, {| source := source fs; written := written fs;
                 dirs := {[path]} ∪ dirs fs |}).

Definition WriteFile (path : string) (data : bytes) (fs : Files)
    : option string * Files :=
  if bool_decide (path ∈ dirs fs)
  then (Some "is a directory", fs)
  else (None, {| source := source fs; written := <[path := data]> (written fs);
                 dirs := dirs fs |}).

Definition os : OS :=
  {| FileSystem := Files; filepath_Walk := Walk; ioutil_ReadFile := ReadFile;
     os_MkdirAll := MkdirAll; os_WriteFile := WriteFile |}.

(** Go's runtime picks the order of a map iteration; here it is the
    order of the map's list of entries, or the reverse. *)
Definition forwards : MapRange := λ V m, map_to_list m.
Definition backwards : MapRange := λ V m, reverse (map_to_list m).

(** A test case with the given note, modules and expectations. *)
Definition case (note : string) (modules : list string)
    (wantErrorCode wantError : option string) : ExtendedTestCase :=
  {| Filename := ""; Note := note; Modules := modules; Data := None;
     Input := None; InputTerm := None; WantErrorCode := wantErrorCode;
     WantError := wantError; StrictError := false; EntryPoints := [];
     Plan := JNull; WantPlanResult := JNull |}.

Definition start : RunState :=
  {| successCount := 0; failureCount := 0; stdout := [] |}.

(** A case whose input cannot be serialised. *)
Definition nan_case : ExtendedTestCase :=
  {| Filename := ""; Note := "nan"; Modules := ["package example.nan p"];
     Data := None; Input := Some (JNumber "NaN"); InputTerm := None;
     WantErrorCode := None; WantError := None; StrictError := false;
     EntryPoints := []; Plan := JNull; WantPlanResult := JNull |}.

(** The fixture files, by their text. *)
Definition fixtures : list (string * list ExtendedTestCase) :=
  [("allow", [case "allow" ["package example.allow p"] None None]);
   ("no modules", [case "nomod" [] None None]);
   ("nan", [nan_case]);
   ("no cases", []);
   ("bad module", [case "bad" ["not a module"] None None]);
   ("failures",
    [case "undefined" ["package a undefined_ref"] None None;
     case "no plan" ["package a no_plan"] None None;
     case "no result" ["package a no_result"] None None;
     case "allow" ["package example.allow p"] None None])].

(** A source tree with the one file [path], of text [text], and nothing
    written yet. *)
Definition tree (path text : string) : Files :=
  {| source := [(path, text)]; written := ∅; dirs := ∅ |}.

(** The same tree where the directory [dir] is a file, and where the
    file [file] is a directory. *)
Definition tree_with_file (path text dir : string) : Files :=
  {| source := [(path, text)]; written := {[dir := []]}; dirs := ∅ |}.

Definition tree_with_dir (path text file : string) : Files :=
  {| source := [(path, text)]; written := ∅; dirs := {[file]} |}.

End Script.

(** The libraries of the first revision, scripted: the cases of the
    files of the tree, in its order, and a serialiser for values. *)

Module ScriptFirst.

Fixpoint load (fixtures : list (string * list ExtendedTestCase))
    (files : list (string * string)) : option (list ExtendedTestCase) :=
  match files with
  | [] => Some []
  | (path, text) :: rest =>
      match Script.LoadYAML fixtures (Script.of_string text),
            load fixtures rest with
      | inr cases, Some more => Some ((set_Filename path <$> cases) ++ more)
      | _, _ => None
      end
  end.

Definition MustLoad (fixtures : list (string * list ExtendedTestCase))
    (root : string) (fs : Script.Files) : option (list ExtendedTestCase) :=
  load fixtures
    (filter (λ f, strings_HasPrefix f.1 (root +:+ "/") = true)
       (Script.source fs)).

Definition MarshalIndent (v : JSON) : string + bytes :=
  match v with
  | JNumber n =>
      if String.eqb n "NaN" then inl "json: unsupported value: NaN"
      else inr (Script.of_string n)
  | _ => inr (Script.of_string (Script.show v))
  end.

Definition loader (fixtures : list (string * list ExtendedTestCase))
    : @CaseLoader Script.os :=
  @Build_CaseLoader Script.os (MustLoad fixtures) MarshalIndent.

End ScriptFirst.


(** ** The entry point of a package, in the words of the specification *)

Fixpoint map_chars (f : ascii → ascii) (s : string) : string :=
  match s with
  | EmptyString => EmptyString
  | String c s' => String (f c) (map_chars f s')
  end.

(** Strip the namespace prefix [data.], then turn every namespace
    separator [.] into the path separator [/]. *)
Definition spec_entry_point (pkg : string) : string :=
  map_chars (λ c, if Ascii.eqb c "." then "/"%char else c)
    match pkg with
    | String "d" (String "a" (String "t" (String "a" (String "." rest)))) => rest
    | _ => pkg
    end.

(** The engine [E] with another evaluator in the place of [topdown]'s. *)
Definition with_Run (E : Engine)
    (run : Query → Compiler → Store → Transaction → option Term → bool →
           list (gmap string Term) * option string) : Engine :=
  {| Rule := Rule; Expr := Expr; Compiler := Compiler; Query := Query;
     Transaction := Transaction; Term := Term;
     util_Unmarshal := util_Unmarshal; ast_ParseModule := ast_ParseModule;
     compiler_Build := compiler_Build; json_Unmarshal := json_Unmarshal;
     json_MarshalIndent := json_MarshalIndent;
     ast_MustParseExpr := ast_MustParseExpr;
     ast_MustCompileModules := ast_MustCompileModules;
     QueryCompiler_Compile := QueryCompiler_Compile;
     storage_NewTransactionOrDie := storage_NewTransactionOrDie;
     ast_MustParseTerm := ast_MustParseTerm;
     ast_MustInterfaceToValue := ast_MustInterfaceToValue;
     topdown_Run := run; ast_JSON := ast_JSON |}.

(** ** Runs compared

    Two runs of the generator are compared by their counters and by the
    files they leave; the lines printed may differ where an error is
    quoted. *)
Definition counters (st : RunState) : nat * nat :=
  (successCount st, failureCount st).

Definition same_counters (st1 st2 : RunState) : Prop :=
  counters st1 = counters st2.

(** Both panic with the same value, or both return, related results. *)
Definition go_rel {A} (R : A → A → Prop) (x y : go A) : Prop :=
  match x, y with
  | Ret a, Ret b => R a b
  | Panic v, Panic w => v = w
  | _, _ => False
  end.

(** Both are errors, or both are the same value. *)
Definition sum_rel {E A} (x y : E + A) : Prop :=
  match x, y with
  | inl _, inl _ => True
  | inr a, inr b => a = b
  | _, _ => False
  end.

(** The same cases, or the same test, with counters related by [C]. *)
Definition same_result {A} (C : nat * nat → nat * nat → Prop)
    (x y : A * RunState) : Prop :=
  x.1 = y.1 ∧ C (counters x.2) (counters y.2).

(** The same counters and the same files. *)
Definition same_files {F} (x y : RunState * F) : Prop :=
  same_counters x.1 y.1 ∧ x.2 = y.2.

(** The expected result of a case: a [continue], with counters related by
    [C], or the same case. *)
Definition same_expected (C : nat * nat → nat * nat → Prop)
    (x y : RunState + ExtendedTestCase) : Prop :=
  match x, y with
  | inl st1, inl st2 => C (counters st1) (counters st2)
  | inr tc1, inr tc2 => tc1 = tc2
  | _, _ => False
  end.

(** A relation between counters that counting a failure in both runs, or a
    success in both, keeps. *)
Definition counted (C : nat * nat → nat * nat → Prop) : Prop :=
  ∀ s1 f1 s2 f2,
    C (s1, f1) (s2, f2) → C (s1, S f1) (s2, S f2) ∧ C (S s1, f1) (S s2, f2).

(** The operating system [os] with a record of the files it is asked to
    write, in order: the path and the bytes of every [os.WriteFile]. *)
Definition recording (os : OS) : OS :=
  {| FileSystem := (@FileSystem os * list (string * bytes))%type;
     filepath_Walk := λ root s, @filepath_Walk os root s.1;
     ioutil_ReadFile := λ path s, @ioutil_ReadFile os path s.1;
     os_MkdirAll := λ path s,
       let (err, fs) := @os_MkdirAll os path s.1 in (err, (fs, s.2));
     os_WriteFile := λ path data s,
       let (err, fs) := @os_WriteFile os path data s.1 in
       (err, (fs, s.2 ++ [(path, data)])) |}.

(** A run without its record. *)
Definition unrecorded {os : OS}
    (r : go (RunState * (@FileSystem os * list (string * bytes))))
    : go (RunState * @FileSystem os) :=
  (λ x, (x.1, x.2.1)) <$> r.

(** Two recorded runs that both return have asked for the same files. *)
Definition same_writes {os : OS}
    (x y : go (RunState * (@FileSystem os * list (string * bytes)))) : Prop :=
  match x, y with
  | Ret (_, (_, writes1)), Ret (_, (_, writes2)) => writes1 = writes2
  | _, _ => True
  end.

(** What Go documents of [os.MkdirAll], for the directories [IsDir] of a
    file system: after a call that returns nil the path is a directory; on
    a path that is a directory already the call returns nil; and writing
    a file removes no directory. *)
Definition create_if_missing `{!OS} (IsDir : string → FileSystem → Prop)
    : Prop :=
  (∀ path fs fs', os_MkdirAll path fs = (None, fs') → IsDir path fs')
  ∧ (∀ path fs, IsDir path fs → ∃ fs', os_MkdirAll path fs = (None, fs'))
  ∧ (∀ path file data fs err fs',
        IsDir path fs → os_WriteFile file data fs = (err, fs') →
        IsDir path fs').

(** [ast.JSON] as a partial function. *)
Definition term_JSON `{!Engine} (term : Term) : option JSON :=
  match ast_JSON term with
  | inl _ => None
  | inr v => Some v
  end.

(** The number of cases in the tests [loadTests] returns. *)
Definition loaded_cases (tests : list Test) : nat :=
  sum_list (length ∘ Cases <$> tests).

(** The package path of a module file, whether it declares rules, and the
    notice [generate] prints for one that declares none. *)
Definition package_of {R} (modFile : ModuleFile R) : string :=
  Package_Path_String (Parsed modFile).

Definition has_rules {R} (modFile : ModuleFile R) : Prop :=
  length (Rules (Parsed modFile)) ≠ 0.

Definition no_rules_notice (note pkg : string) : string :=
  "Skipping " +:+ pkg +:+ " in " +:+ note +:+ ": No rules" +:+ newline.

(** ** Characters of a path *)

(** The character [c] occurs in [s]. *)
Fixpoint has_char (c : ascii) (s : string) : bool :=
  match s with
  | EmptyString => false
  | String c' s' => Ascii.eqb c' c || has_char c s'
  end.

(** ** Loading, entry by entry *)

(** The file of the entry reads and parses, and [t] is what [loadTests]
    appends for it. *)
Definition loads `{!Engine} `{!OS} (fs : FileSystem) (entry : WalkEntry)
    (t : Test) : Prop :=
  ∃ bs cases,
    ioutil_ReadFile (walk_path entry) fs = inr bs
    ∧ util_Unmarshal bs = inr cases
    ∧ t = stamp (walk_path entry) cases.

(** The value the callback of [loadTests] returns at an entry, as the
    text [panic] is raised with; [None] is nil. *)
Definition entry_error `{!Engine} `{!OS} (fs : FileSystem)
    (entry : WalkEntry) : option string :=
  match walk_err entry with
  | Some err => Some err
  | None =>
      if walk_IsDir entry then None
      else match ioutil_ReadFile (walk_path entry) fs with
           | inl err => Some (walk_path entry +:+ ": " +:+ err)
           | inr bs =>
               match util_Unmarshal bs with
               | inl err => Some (walk_path entry +:+ ": " +:+ err)
               | inr _ => None
               end
           end
  end.

(** The line the final revision prints for a file of that name. *)
Definition break_line (entry : WalkEntry) : Prop :=
  walk_IsDir entry = false
  ∧ strings_HasSuffix (walk_path entry) "test-functions-1006.yaml" = true.

Global Instance break_line_dec entry : Decision (break_line entry).
Proof. unfold break_line. apply _. Defined.

(** ** What the generator leaves of a case *)

(** The fields a fixture file gives a case are the same in [tc'] as in
    [tc]: all but the three the generator fills in. *)
Definition same_fixture (tc tc' : ExtendedTestCase) : Prop :=
  Filename tc' = Filename tc ∧ Note tc' = Note tc
  ∧ Modules tc' = Modules tc ∧ Data tc' = Data tc ∧ Input tc' = Input tc
  ∧ InputTerm tc' = InputTerm tc ∧ WantErrorCode tc' = WantErrorCode tc
  ∧ WantError tc' = WantError tc ∧ StrictError tc' = StrictError tc.

(** The case [tc] with another [input]. *)
Definition with_Input (input : option JSON) (tc : ExtendedTestCase) :=
  {| Filename := Filename tc; Note := Note tc; Modules := Modules tc;
     Data := Data tc; Input := input; InputTerm := InputTerm tc;
     WantErrorCode := WantErrorCode tc; WantError := WantError tc;
     StrictError := StrictError tc; EntryPoints := EntryPoints tc;
     Plan := Plan tc; WantPlanResult := WantPlanResult tc |}.

(** * Properties *)

(** ** Strings *)

Lemma prefix_empty (s : string) : String.prefix "" s = true.
Proof. destruct s; reflexivity. Qed.

Lemma replace_go_char (a b : ascii) (s : string) :
  replace_go 0 (String a "") (String b "") s
  = map_chars (λ c, if Ascii.eqb c a then b else c) s.
Proof.
  induction s as [|c s IH]; simpl; [reflexivity|].
  destruct (ascii_dec a c) as [->|Hne].
  - rewrite Ascii.eqb_refl, prefix_empty. simpl. rewrite IH. reflexivity.
  - destruct (Ascii.eqb_spec c a) as [->|_]; [done|]. rewrite IH. reflexivity.
Qed.

Lemma ReplaceAll_char (a b : ascii) (s : string) :
  strings_ReplaceAll s (String a "") (String b "")
  = map_chars (λ c, if Ascii.eqb c a then b else c) s.
Proof. apply replace_go_char. Qed.

Lemma HasPrefix_data (pkg : string) :
  strings_HasPrefix pkg "data." = true → ∃ rest, pkg = "data." +:+ rest.
Proof.
  unfold strings_HasPrefix. intros H.
  do 5 (destruct pkg as [|? pkg]; simpl in H; [discriminate|];
        match type of H with
        | (if ?d then _ else _) = _ => destruct d as [<-|]; [|discriminate]
        end).
  by exists pkg.
Qed.

Lemma TrimPrefix_data (pkg : string) :
  strings_TrimPrefix pkg "data."
  = match pkg with
    | String "d" (String "a" (String "t" (String "a" (String "." rest)))) => rest
    | _ => pkg
    end.
Proof.
  unfold strings_TrimPrefix, strings_HasPrefix.
  destruct (String.prefix "data." pkg) eqn:H.
  - apply (HasPrefix_data pkg) in H as [rest ->]. reflexivity.
  - do 5 (destruct pkg as [|c pkg]; [reflexivity|]; simpl in H;
          match type of H with
          | (if ?d then _ else _) = _ =>
              destruct d as [<-|Hne];
              [|destruct c as [[] [] [] [] [] [] [] []];
                first [reflexivity | by destruct Hne]]
          end).
    rewrite prefix_empty in H. discriminate.
Qed.

Lemma Final_entry_point_spec (pkg : string) :
  Final.entry_point pkg = spec_entry_point pkg.
Proof.
  unfold Final.entry_point, spec_entry_point.
  rewrite ReplaceAll_char, TrimPrefix_data. reflexivity.
Qed.

Lemma Middle_entry_point_data (rest : string) :
  Middle.entry_point ("data." +:+ rest) = spec_entry_point ("data." +:+ rest).
Proof.
  unfold Middle.entry_point, spec_entry_point, strings_TrimPrefix,
    strings_HasPrefix.
  rewrite ReplaceAll_char. simpl. rewrite prefix_empty. reflexivity.
Qed.

(** C10. A package path that begins with [data.] gets the same entry point
    from the middle revision, which replaces every [.] by [/] and then
    strips [data/], and from the final revision, which strips [data.] and
    then replaces every [.] by [/]. *)
Theorem entry_point_revisions_agree (pkg : string) :
  strings_HasPrefix pkg "data." = true →
  Middle.entry_point pkg = Final.entry_point pkg.
Proof.
  intros [rest ->]%HasPrefix_data.
  rewrite Middle_entry_point_data, Final_entry_point_spec. reflexivity.
Qed.

Lemma entry_point_revisions_agree_witness :
  strings_HasPrefix "data.example.allow" "data." = true ∧
  Middle.entry_point "data.example.allow" = Final.entry_point "data.example.allow".
Proof.
  split; [reflexivity|].
  apply (entry_point_revisions_agree "data.example.allow"). reflexivity.
Defined.

(** ** One case of the final revision, branch by branch *)

Section FinalCase.
Context `{!Engine} (range : MapRange).

Implicit Types (tc : ExtendedTestCase) (st : RunState).

Lemma Final_case_no_modules tc st :
  module_files range tc = Ret [] →
  Final.generate_case range tc st
  = Ret (tc, printf ("Skipping " +:+ Note tc +:+ ": No modules" +:+ newline) st).
Proof.
  intros Hm. unfold Final.generate_case.
  rewrite Hm. reflexivity.
Qed.

(** Past the modules: the files are there, and there is at least one. *)
Lemma Final_case_modules tc st modFiles pkgs eps st1 :
  module_files range tc = Ret modFiles → modFiles ≠ [] →
  Final.entry_points (Note tc) modFiles [] [] st = (pkgs, eps, st1) →
  Final.generate_case range tc st
  = let tc1 := set_EntryPoints eps tc in
    match compiler_Build true eps modFiles with
    | (Some err, _) =>
        Ret (tc1, fail ("compile/Skipping " +:+ Note tc +:+ ": " +:+ err
                        +:+ newline) st1)
    | (None, planModules) =>
        if decide (length planModules ≠ 1)
        then Ret (tc1, fail ("Unexpected plan count "
                             +:+ fmt_d (length planModules)
                             +:+ " for " +:+ Note tc +:+ newline) st1)
        else
          expected ← Final.expected_result range pkgs tc1 st1;
          match expected with
          | inl st => Ret (tc1, st)
          | inr tc2 =>
              planModule ← index planModules 0%Z;
              match json_Unmarshal (plan_Raw planModule) with
              | inl err =>
                  Ret (tc2, fail ("Failed to unmarshal plan: " +:+ err
                                  +:+ newline) st1)
              | inr JNull =>
                  Ret (tc2, fail ("Failed to unmarshal plan: nil"
                                  +:+ newline) st1)
              | inr plan => Ret (set_Plan plan tc2, succeed st1)
              end
          end
    end.
Proof.
  intros Hm Hne He. unfold Final.generate_case.
  rewrite Hm. simpl.
  destruct (decide (length modFiles = 0)) as [Hl|_].
  { by destruct modFiles. }
  rewrite He. reflexivity.
Qed.

Lemma Final_case_compile_failure tc st modFiles pkgs eps st1 err pms :
  module_files range tc = Ret modFiles → modFiles ≠ [] →
  Final.entry_points (Note tc) modFiles [] [] st = (pkgs, eps, st1) →
  compiler_Build true eps modFiles = (Some err, pms) →
  Final.generate_case range tc st
  = Ret (set_EntryPoints eps tc,
         fail ("compile/Skipping " +:+ Note tc +:+ ": " +:+ err +:+ newline) st1).
Proof.
  intros Hm Hne He Hb. rewrite (Final_case_modules _ _ _ _ _ _ Hm Hne He).
  simpl. rewrite Hb. reflexivity.
Qed.

Lemma Final_case_plan_count tc st modFiles pkgs eps st1 pms :
  module_files range tc = Ret modFiles → modFiles ≠ [] →
  Final.entry_points (Note tc) modFiles [] [] st = (pkgs, eps, st1) →
  compiler_Build true eps modFiles = (None, pms) → length pms ≠ 1 →
  Final.generate_case range tc st
  = Ret (set_EntryPoints eps tc,
         fail ("Unexpected plan count " +:+ fmt_d (length pms)
               +:+ " for " +:+ Note tc +:+ newline) st1).
Proof.
  intros Hm Hne He Hb Hl. rewrite (Final_case_modules _ _ _ _ _ _ Hm Hne He).
  simpl. rewrite Hb. rewrite decide_True by done. reflexivity.
Qed.

(** Past the compiler, with its one plan. *)
Lemma Final_case_planned tc st modFiles pkgs eps st1 pm :
  module_files range tc = Ret modFiles → modFiles ≠ [] →
  Final.entry_points (Note tc) modFiles [] [] st = (pkgs, eps, st1) →
  compiler_Build true eps modFiles = (None, [pm]) →
  Final.generate_case range tc st
  = let tc1 := set_EntryPoints eps tc in
    expected ← Final.expected_result range pkgs tc1 st1;
    match expected with
    | inl st => Ret (tc1, st)
    | inr tc2 =>
        match json_Unmarshal (plan_Raw pm) with
        | inl err =>
            Ret (tc2, fail ("Failed to unmarshal plan: " +:+ err
                            +:+ newline) st1)
        | inr JNull =>
            Ret (tc2, fail ("Failed to unmarshal plan: nil" +:+ newline) st1)
        | inr plan => Ret (set_Plan plan tc2, succeed st1)
        end
    end.
Proof.
  intros Hm Hne He Hb. rewrite (Final_case_modules _ _ _ _ _ _ Hm Hne He).
  simpl. rewrite Hb. rewrite decide_False by (simpl; lia). reflexivity.
Qed.

(** The expected result, when neither an error nor an error code is
    wanted. *)
Lemma Final_expected_evaluated pkgs tc st :
  WantError tc = None → WantErrorCode tc = None →
  Final.expected_result range pkgs tc st
  = r ← Final.eval range pkgs tc;
    match r with
    | inr [result] => Ret (inr (set_WantPlanResult (JObject result) tc))
    | inr rs =>
        Ret (inl (fail ("Unexpected result count " +:+ fmt_d (length rs)
                        +:+ " for " +:+ Note tc +:+ newline) st))
    | inl err =>
        Ret (inl (fail ("eval/Skipping " +:+ Note tc +:+ ": "
                        +:+ Error err +:+ newline) st))
    end.
Proof.
  intros He Hc. unfold Final.expected_result.
  rewrite bool_decide_eq_true_2 by done.
  destruct (Final.eval range pkgs tc) as [[err|rs]|v]; simpl; try done.
  destruct rs as [|r [|r' rs]]; simpl; try done.
Qed.

(** The expected result, when an error or an error code is wanted. *)
Lemma Final_expected_skipped pkgs tc st :
  WantError tc ≠ None ∨ WantErrorCode tc ≠ None →
  Final.expected_result range pkgs tc st = Ret (inr tc).
Proof.
  intros Hw. unfold Final.expected_result.
  rewrite bool_decide_eq_false_2; [done|]. intros [??]. by destruct Hw.
Qed.
End FinalCase.

(** ** Entry points *)

Section EntryPoints.
Context `{!Engine}.

Lemma Final_entry_points_spec note (modFiles : list (ModuleFile Rule))
    pkgs eps st :
  Final.entry_points note modFiles pkgs eps st
  = (pkgs ++ (package_of <$> filter has_rules modFiles),
     eps ++ (Final.entry_point ∘ package_of <$> filter has_rules modFiles),
     {| successCount := successCount st; failureCount := failureCount st;
        stdout := stdout st ++ (no_rules_notice note ∘ package_of
                                <$> filter (λ m, ¬ has_rules m) modFiles) |}).
Proof.
  revert pkgs eps st. induction modFiles as [|m ms IH]; intros pkgs eps st.
  - simpl. rewrite !app_nil_r. by destruct st.
  - simpl. rewrite !filter_cons.
    destruct (decide (length (Rules (Parsed m)) = 0)) as [Hz|Hz];
      rewrite IH; repeat case_decide; unfold has_rules in *; try tauto;
      simpl; rewrite <- ?app_assoc; reflexivity.
Qed.

Lemma Final_entry_points_counters note (modFiles : list (ModuleFile Rule))
    pkgs eps st pkgs' eps' st' :
  Final.entry_points note modFiles pkgs eps st = (pkgs', eps', st') →
  successCount st' = successCount st ∧ failureCount st' = failureCount st.
Proof. rewrite Final_entry_points_spec. by intros [= _ _ <-]. Qed.

Lemma Middle_entry_points_spec (modFiles : list (ModuleFile Rule)) eps :
  Middle.entry_points modFiles eps
  = eps ++ (Middle.entry_point ∘ package_of <$> modFiles).
Proof.
  revert eps. induction modFiles as [|m ms IH]; intros eps; simpl.
  - rewrite app_nil_r. reflexivity.
  - rewrite IH, <- app_assoc. reflexivity.
Qed.
End EntryPoints.

(** ** Evaluation *)

Section Eval.
Context `{!Engine} (range : MapRange).

Implicit Types (tc : ExtendedTestCase) (st : RunState).

Lemma result_of_error bindings result err :
  result_of bindings result = inl err →
  ∃ msg, err = LibraryError "ast.JSON" msg.
Proof.
  revert result. induction bindings as [|[k term] rest IH]; intros result;
    simpl; [done|].
  destruct (ast_JSON term) as [msg|v]; [|by apply IH].
  intros [= <-]. by exists msg.
Qed.

Lemma resultSet_of_error qrs acc err :
  resultSet_of range qrs acc = inl err →
  ∃ msg, err = LibraryError "ast.JSON" msg.
Proof.
  revert acc. induction qrs as [|qr rest IH]; intros acc; simpl; [done|].
  destruct (result_of (range Term qr) ∅) as [e|result] eqn:Hr; [|by apply IH].
  intros [= <-]. by eapply result_of_error.
Qed.

Lemma resultSet_of_length qrs acc rs :
  resultSet_of range qrs acc = inr rs → length rs = length acc + length qrs.
Proof.
  revert acc. induction qrs as [|qr rest IH]; intros acc; simpl.
  - intros [= <-]. lia.
  - destruct (result_of (range Term qr) ∅) as [e|result]; [done|].
    intros Hrs%IH. rewrite length_app in Hrs. simpl in *. lia.
Qed.

(** A result set for every result set of the engine, of which there is
    at most one. *)
Lemma eval_results_length tc qrs err rs :
  eval_results range tc (qrs, err) = inr rs →
  length rs = length qrs ∧ length qrs ≤ 1.
Proof.
  unfold eval_results. intros Hr.
  assert ((if 1 <? length qrs
           then inl (Errorf "ResultSet contains more than one entry")
           else resultSet_of range qrs []) = inr rs) as Hr'.
  { destruct err as [e|]; [|done].
    destruct (WantErrorCode tc), (WantError tc); done. }
  destruct (Nat.ltb_spec 1 (length qrs)); [done|].
  apply resultSet_of_length in Hr'. simpl in Hr'. lia.
Qed.

Lemma eval_results_swallowed tc qrs e :
  WantError tc ≠ None ∨ WantErrorCode tc ≠ None →
  eval_results range tc (qrs, Some e)
  = if 1 <? length qrs
    then inl (Errorf "ResultSet contains more than one entry")
    else resultSet_of range qrs [].
Proof.
  unfold eval_results. destruct (WantErrorCode tc), (WantError tc); try done.
  by intros [?|?].
Qed.

Lemma eval_results_no_error tc qrs :
  eval_results range tc (qrs, None)
  = if 1 <? length qrs
    then inl (Errorf "ResultSet contains more than one entry")
    else resultSet_of range qrs [].
Proof. reflexivity. Qed.

Lemma eval_results_propagated tc qrs e :
  WantError tc = None → WantErrorCode tc = None →
  eval_results range tc (qrs, Some e) = inl (LibraryError "topdown.Run" e).
Proof. unfold eval_results. by intros -> ->. Qed.

(** [eval] from [Run] on. *)
Lemma eval_query_Run q tc compiler query txn input :
  reaches_Run q tc compiler query txn input →
  eval_query range q tc
  = Ret (eval_results range tc
           (topdown_Run query compiler (eval_store tc) txn input
                        (StrictError tc))).
Proof.
  intros (Hc & Hq & Ht & Hi). unfold eval_query.
  rewrite Hc, Hq, Ht, Hi. reflexivity.
Qed.

(** [eval] returns either the error of the query compiler or what it
    makes of [Run]. *)
Lemma eval_query_Ret q tc r :
  eval_query range q tc = Ret r →
  (∃ compiler err,
      ast_MustCompileModules (modules_from rego_name 0 (Modules tc) ∅)
        = Some compiler
      ∧ QueryCompiler_Compile compiler q = inl err
      ∧ r = inl (LibraryError "QueryCompiler.Compile" err))
  ∨ (∃ compiler query txn input,
      reaches_Run q tc compiler query txn input
      ∧ r = eval_results range tc
              (topdown_Run query compiler (eval_store tc) txn input
                           (StrictError tc))).
Proof.
  unfold eval_query, reaches_Run.
  destruct (ast_MustCompileModules _) as [compiler|]; [|done].
  destruct (QueryCompiler_Compile compiler q) as [err|query] eqn:Hq.
  { intros [= <-]. left. by exists compiler, err. }
  destruct (storage_NewTransactionOrDie _) as [txn|]; [|done].
  destruct (eval_input tc) as [input|]; [|done]. simpl.
  intros [= <-]. right. by exists compiler, query, txn, input.
Qed.

Lemma Final_eval_query pkgs q tc :
  Final.createQuery pkgs = Ret q →
  Final.eval range pkgs tc = eval_query range q tc.
Proof. unfold Final.eval. by intros ->. Qed.

Lemma Middle_eval_query eps q tc :
  Middle.createQuery eps = Ret q →
  Middle.eval range eps tc = eval_query range q tc.
Proof. unfold Middle.eval. by intros ->. Qed.

Lemma Final_eval_Ret pkgs tc r :
  Final.eval range pkgs tc = Ret r →
  ∃ q, Final.createQuery pkgs = Ret q ∧ eval_query range q tc = Ret r.
Proof.
  unfold Final.eval. destruct (Final.createQuery pkgs) as [q|]; [|done].
  by exists q.
Qed.
End Eval.

Section EvalClaims.
Context `{!Engine} (range : MapRange).

(** C4. When [Run] returns an error, [eval] returns that error if and
    only if the case wants neither an error nor an error code; with
    either wanted, the error is dropped and [eval] goes on with the
    result sets [Run] produced, as it does after a [Run] without error:
    neither the error nor the text of the expectation are looked at.  An
    error [eval] returns makes [generate] count a failure and go on to
    the next case. Both revisions share this part of [eval]. *)
Theorem evaluation_error_propagated_iff_unexpected
    q tc compiler query txn input qrs e :
  reaches_Run q tc compiler query txn input →
  topdown_Run query compiler (eval_store tc) txn input (StrictError tc)
    = (qrs, Some e) →
  (eval_query range q tc = Ret (inl (LibraryError "topdown.Run" e))
   ↔ WantError tc = None ∧ WantErrorCode tc = None)
  ∧ (WantError tc ≠ None ∨ WantErrorCode tc ≠ None →
     eval_query range q tc
     = Ret (if 1 <? length qrs
            then inl (Errorf "ResultSet contains more than one entry")
            else resultSet_of range qrs [])
     ∧ eval_results range tc (qrs, Some e) = eval_results range tc (qrs, None))
  ∧ (∀ pkgs, Final.createQuery pkgs = Ret q →
       Final.eval range pkgs tc = eval_query range q tc
       ∧ (WantError tc = None ∧ WantErrorCode tc = None →
          ∀ st, Final.expected_result range pkgs tc st
                = Ret (inl (fail ("eval/Skipping " +:+ Note tc +:+ ": " +:+ e
                                  +:+ newline) st))))
  ∧ (∀ eps, Middle.createQuery eps = Ret q →
       Middle.eval range eps tc = eval_query range q tc).
Proof.
  intros Hreach Hrun.
  pose proof (eval_query_Run range _ _ _ _ _ _ Hreach) as Hq.
  rewrite Hrun in Hq.
  split; [|split; [|split]].
  - split.
    + intros Hp. rewrite Hq in Hp. injection Hp as Hp.
      destruct (WantError tc) as [w|], (WantErrorCode tc) as [c|];
        try done;
        (destruct (1 <? length qrs); [done|];
         apply resultSet_of_error in Hp as [msg [=]]).
    + intros [Hw Hc]. rewrite Hq. f_equal.
      by apply eval_results_propagated.
  - intros Hw. rewrite Hq, eval_results_no_error.
    rewrite eval_results_swallowed by done. done.
  - intros pkgs Hpkgs. split; [by apply Final_eval_query|].
    intros [Hw Hc] st. rewrite Final_expected_evaluated by done.
    rewrite (Final_eval_query _ _ _ _ Hpkgs), Hq.
    rewrite eval_results_propagated by done. reflexivity.
  - intros eps Heps. by apply Middle_eval_query.
Qed.

(** C6. The store [eval] opens holds the base data document of the case
    when there is one and is empty otherwise, and that store is the one
    the query runs on: an evaluator that differs from the engine's only on
    stores with other contents gives the same [eval]. *)
Theorem evaluation_store_is_base_data tc :
  store_data (eval_store tc) = default ∅ (Data tc)
  ∧ (∀ data, Data tc = Some data → eval_store tc = inmem_NewFromObject data)
  ∧ (Data tc = None → eval_store tc = inmem_New)
  ∧ (∀ q r, eval_query range q tc = Ret r →
       (∃ err, r = inl (LibraryError "QueryCompiler.Compile" err))
       ∨ ∃ compiler query txn input,
           r = eval_results range tc
                 (topdown_Run query compiler (eval_store tc) txn input
                              (StrictError tc)))
  ∧ (∀ run q,
       (∀ query compiler store txn input strict,
           store_data store = default ∅ (Data tc) →
           run query compiler store txn input strict
           = topdown_Run query compiler store txn input strict) →
       @eval_query (with_Run _ run) range q tc = eval_query range q tc).
Proof.
  assert (store_data (eval_store tc) = default ∅ (Data tc)) as Hs.
  { unfold eval_store. by destruct (Data tc). }
  split; [done|]. split; [|split; [|split]].
  - intros data Hd. unfold eval_store. by rewrite Hd.
  - intros Hd. unfold eval_store. by rewrite Hd.
  - intros q r [(c & err & _ & _ & ->)|(c & qu & txn & i & _ & ->)]%eval_query_Ret.
    + left. by exists err.
    + right. by exists c, qu, txn, i.
  - intros run q Hrun. unfold eval_query, eval_input. simpl.
    repeat case_match; simpl; try done; by rewrite Hrun.
Qed.
End EvalClaims.

(** ** What one case of the final revision can come to *)

Section FinalOutcomes.
Context `{!Engine} (range : MapRange).

Implicit Types (tc : ExtendedTestCase) (st : RunState).

(** A case with modules either fails, with one line printed and one
    failure counted, or succeeds, and then the compiler gave one plan that
    decodes to a value, and [eval], if it was called, one result set. *)
Lemma Final_case_outcomes tc st modFiles pkgs eps st1 tc' st' :
  module_files range tc = Ret modFiles → modFiles ≠ [] →
  Final.entry_points (Note tc) modFiles [] [] st = (pkgs, eps, st1) →
  Final.generate_case range tc st = Ret (tc', st') →
  let tc1 := set_EntryPoints eps tc in
  (∃ line, st' = fail line st1
           ∧ (tc' = tc1
              ∨ (WantError tc = None ∧ WantErrorCode tc = None
                 ∧ ∃ result, tc' = set_WantPlanResult (JObject result) tc1)))
  ∨ (∃ pm plan,
        compiler_Build true eps modFiles = (None, [pm])
        ∧ json_Unmarshal (plan_Raw pm) = inr plan ∧ plan ≠ JNull
        ∧ st' = succeed st1
        ∧ ((WantError tc = None ∧ WantErrorCode tc = None
            ∧ ∃ result, Final.eval range pkgs tc1 = Ret (inr [result])
                ∧ tc' = set_Plan plan (set_WantPlanResult (JObject result) tc1))
           ∨ ((WantError tc ≠ None ∨ WantErrorCode tc ≠ None)
              ∧ tc' = set_Plan plan tc1))).
Proof.
  intros Hm Hne He. rewrite (Final_case_modules _ _ _ _ _ _ _ Hm Hne He).
  cbv zeta.
  destruct (compiler_Build true eps modFiles) as [[err|] pms] eqn:Hb.
  { intros [= <- <-]. left. eauto. }
  destruct (decide (length pms ≠ 1)) as [Hl|Hl].
  { intros [= <- <-]. left. eauto. }
  destruct pms as [|pm [|pm' pms]]; simpl in Hl; try lia. clear Hl.
  destruct (decide (WantError tc = None ∧ WantErrorCode tc = None)) as [[Hw Hc]|Hw].
  - rewrite Final_expected_evaluated by done.
    destruct (Final.eval range pkgs (set_EntryPoints eps tc))
      as [[err|rs]|v] eqn:Hev; simpl; [| |done].
    { intros [= <- <-]. left. eauto. }
    destruct rs as [|result [|result' rs]]; simpl.
    { intros [= <- <-]. left. eauto. }
    2:{ intros [= <- <-]. left. eauto. }
    destruct (json_Unmarshal (plan_Raw pm)) as [err|plan] eqn:Hj.
    { intros [= <- <-]. left. eauto 10. }
    destruct plan; intros [= <- <-];
      first [ by left; eauto 10
            | right; eexists pm, _; repeat split; [done..|]; left; eauto ].
  - assert (WantError tc ≠ None ∨ WantErrorCode tc ≠ None) as Hw'.
    { destruct (WantError tc), (WantErrorCode tc); auto; by destruct Hw. }
    rewrite Final_expected_skipped by done. simpl.
    destruct (json_Unmarshal (plan_Raw pm)) as [err|plan] eqn:Hj.
    { intros [= <- <-]. left. eauto. }
    destruct plan; intros [= <- <-];
      first [ by left; eauto
            | right; eexists pm, _; repeat split; [done..|]; right; eauto ].
Qed.

(** A case comes to one of three counts: skipped, failed or succeeded. *)
Lemma Final_case_counters tc st tc' st' :
  Final.generate_case range tc st = Ret (tc', st') →
  (successCount st' = successCount st ∧ failureCount st' = failureCount st)
  ∨ (successCount st' = successCount st ∧ failureCount st' = S (failureCount st))
  ∨ (successCount st' = S (successCount st) ∧ failureCount st' = failureCount st).
Proof.
  intros Hg.
  destruct (module_files range tc) as [modFiles|v] eqn:Hm.
  2:{ unfold Final.generate_case in Hg. by rewrite Hm in Hg. }
  destruct (decide (modFiles = [])) as [->|Hne].
  { rewrite Final_case_no_modules in Hg by done. injection Hg as <- <-. by left. }
  destruct (Final.entry_points (Note tc) modFiles [] [] st)
    as [[pkgs eps] st1] eqn:He.
  destruct (Final_entry_points_counters _ _ _ _ _ _ _ _ He) as [Hs Hf].
  destruct (Final_case_outcomes _ _ _ _ _ _ _ _ Hm Hne He Hg)
    as [(line & -> & _)|(pm & plan & _ & _ & _ & -> & _)]; simpl; auto.
Qed.
End FinalOutcomes.

(** ** The loops go on after a case or a test that returns *)

Section Loops.
Context `{!Engine} `{!OS} (range : MapRange).

Lemma Final_generate_cases_cons tc st tc' st' rest :
  Final.generate_case range tc st = Ret (tc', st') →
  Final.generate_cases range (tc :: rest) st
  = '(rest', st'') ← Final.generate_cases range rest st';
    Ret (tc' :: rest', st'').
Proof. intros Hg. simpl. rewrite Hg. reflexivity. Qed.

Lemma Final_generate_cases_panic tc st v rest :
  Final.generate_case range tc st = Panic v →
  Final.generate_cases range (tc :: rest) st = Panic v.
Proof. intros Hg. simpl. rewrite Hg. reflexivity. Qed.

Lemma Final_generate_tests_cons dstPath t st fs st' fs' rest :
  Final.generate_test range dstPath t st fs = Ret (st', fs') →
  Final.generate_tests range dstPath (t :: rest) st fs
  = Final.generate_tests range dstPath rest st' fs'.
Proof. intros Hg. simpl. rewrite Hg. reflexivity. Qed.

Lemma Final_generate_tests_panic dstPath t st fs v rest :
  Final.generate_test range dstPath t st fs = Panic v →
  Final.generate_tests range dstPath (t :: rest) st fs = Panic v.
Proof. intros Hg. simpl. rewrite Hg. reflexivity. Qed.
End Loops.

(** ** Plans and result sets *)

Section Counts.
Context `{!Engine} (range : MapRange).

(** C1. In the final revision, for a case that wants neither an error nor
    an error code: when the case is counted as a success, the compiler
    gave exactly one plan module and [eval] exactly one result set (so the
    engine's [Run] gave exactly one); any other number of plan modules, and
    anything else from [eval], prints a line, counts one failure and no
    success, and the loop goes on with the next case: nothing panics. *)
Theorem success_needs_one_plan_and_one_result_set tc st :
  WantError tc = None → WantErrorCode tc = None →
  (∀ tc' st',
      Final.generate_case range tc st = Ret (tc', st') →
      successCount st' = S (successCount st) →
      ∃ modFiles pkgs eps st1 pm result,
        module_files range tc = Ret modFiles
        ∧ Final.entry_points (Note tc) modFiles [] [] st = (pkgs, eps, st1)
        ∧ compiler_Build true eps modFiles = (None, [pm])
        ∧ Final.eval range pkgs (set_EntryPoints eps tc) = Ret (inr [result]))
  ∧ (∀ q tc1 compiler query txn input qrs err result,
        reaches_Run q tc1 compiler query txn input →
        topdown_Run query compiler (eval_store tc1) txn input (StrictError tc1)
          = (qrs, err) →
        eval_query range q tc1 = Ret (inr [result]) → length qrs = 1)
  ∧ (∀ modFiles pkgs eps st1,
        module_files range tc = Ret modFiles → modFiles ≠ [] →
        Final.entry_points (Note tc) modFiles [] [] st = (pkgs, eps, st1) →
        (∀ pms,
            compiler_Build true eps modFiles = (None, pms) → length pms ≠ 1 →
            ∃ line,
              Final.generate_case range tc st
              = Ret (set_EntryPoints eps tc, fail line st1)
              ∧ successCount (fail line st1) = successCount st
              ∧ failureCount (fail line st1) = S (failureCount st))
        ∧ (∀ pm r,
              compiler_Build true eps modFiles = (None, [pm]) →
              Final.eval range pkgs (set_EntryPoints eps tc) = Ret r →
              (∀ result, r ≠ inr [result]) →
              ∃ line,
                Final.generate_case range tc st
                = Ret (set_EntryPoints eps tc, fail line st1)
                ∧ successCount (fail line st1) = successCount st
                ∧ failureCount (fail line st1) = S (failureCount st)))
  ∧ (∀ tc' st' rest,
        Final.generate_case range tc st = Ret (tc', st') →
        Final.generate_cases range (tc :: rest) st
        = '(rest', st'') ← Final.generate_cases range rest st';
          Ret (tc' :: rest', st'')).
Proof.
  intros Hw Hc. split; [|split; [|split]].
  - intros tc' st' Hg Hs.
    destruct (module_files range tc) as [modFiles|v] eqn:Hm.
    2:{ unfold Final.generate_case in Hg. by rewrite Hm in Hg. }
    destruct (decide (modFiles = [])) as [->|Hne].
    { rewrite Final_case_no_modules in Hg by done. injection Hg as <- <-.
      simpl in Hs. lia. }
    destruct (Final.entry_points (Note tc) modFiles [] [] st)
      as [[pkgs eps] st1] eqn:He.
    destruct (Final_entry_points_counters _ _ _ _ _ _ _ _ He) as [Hs1 Hf1].
    destruct (Final_case_outcomes _ _ _ _ _ _ _ _ _ Hm Hne He Hg)
      as [(line & -> & _)|(pm & plan & Hb & _ & _ & -> & Hres)].
    { simpl in Hs. lia. }
    destruct Hres as [(_ & _ & result & Hev & _)|([Hw'|Hc'] & _)]; [|done..].
    by exists modFiles, pkgs, eps, st1, pm, result.
  - intros q tc1 compiler query txn input qrs err result Hreach Hrun Hev.
    rewrite (eval_query_Run _ _ _ _ _ _ _ Hreach), Hrun in Hev.
    injection Hev as Hev. by apply eval_results_length in Hev as [<- _].
  - intros modFiles pkgs eps st1 Hm Hne He.
    destruct (Final_entry_points_counters _ _ _ _ _ _ _ _ He) as [Hs1 Hf1].
    split.
    + intros pms Hb Hl. eexists. split; [|by simpl; rewrite Hs1, Hf1].
      by eapply Final_case_plan_count.
    + intros pm r Hb Hev Hr.
      rewrite (Final_case_planned _ _ _ _ _ _ _ _ Hm Hne He Hb). cbv zeta.
      rewrite Final_expected_evaluated by done. rewrite Hev. simpl.
      destruct r as [err|[|result [|result' rs]]]; simpl;
        try (eexists; split; [reflexivity|by simpl; rewrite Hs1, Hf1]).
      by destruct (Hr result).
  - intros tc' st' rest. apply Final_generate_cases_cons.
Qed.
End Counts.

(** ** Cases that want an error *)

Section WantedErrors.
Context `{!Engine} (range : MapRange).

Implicit Types (tc : ExtendedTestCase) (st : RunState).

Lemma Middle_case_modules tc st modFiles :
  module_files range tc = Ret modFiles →
  Middle.generate_case range tc st
  = let eps := Middle.entry_points modFiles [] in
    let tc1 := set_EntryPoints eps tc in
    match compiler_Build false eps modFiles with
    | (Some err, _) =>
        Ret (tc1, fail ("Skipping " +:+ Note tc +:+ ": " +:+ err +:+ newline) st)
    | (None, planModules) =>
        if decide (length planModules ≠ 1)
        then Ret (tc1, fail ("Unexpected plan count: "
                             +:+ fmt_d (length planModules) +:+ newline) st)
        else
          expected ← Middle.expected_result range eps tc1 st;
          match expected with
          | inl st => Ret (tc1, st)
          | inr tc2 =>
              planModule ← index planModules 0%Z;
              match json_Unmarshal (plan_Raw planModule) with
              | inl err =>
                  Ret (tc2, fail ("Failed to unmarshal plan: " +:+ err
                                  +:+ newline) st)
              | inr plan => Ret (set_Plan plan tc2, succeed st)
              end
          end
    end.
Proof. intros Hm. unfold Middle.generate_case. rewrite Hm. reflexivity. Qed.

Lemma Middle_expected_skipped eps tc st :
  WantError tc ≠ None → Middle.expected_result range eps tc st = Ret (inr tc).
Proof.
  intros Hw. unfold Middle.expected_result.
  by rewrite bool_decide_eq_false_2.
Qed.

End WantedErrors.

Section NoEvaluation.
Context `{!Engine} (range : MapRange).

Implicit Types (tc : ExtendedTestCase) (st : RunState).

Lemma Final_case_no_eval tc st run :
  WantError tc ≠ None ∨ WantErrorCode tc ≠ None →
  @Final.generate_case (with_Run _ run) range tc st
  = Final.generate_case range tc st.
Proof.
  intros Hw. unfold Final.generate_case.
  change (@module_files (with_Run _ run) range tc) with (module_files range tc).
  destruct (module_files range tc) as [modFiles|v]; [|done]. simpl.
  case_decide; [done|].
  change (@Final.entry_points (with_Run _ run)) with (@Final.entry_points _).
  destruct (Final.entry_points _ _ _ _ _) as [[pkgs eps] st1].
  destruct (compiler_Build true eps modFiles) as [[err|] pms]; [done|].
  case_decide; [done|].
  do 2 rewrite Final_expected_skipped by done. reflexivity.
Qed.

Lemma Middle_case_no_eval tc st run :
  WantError tc ≠ None →
  @Middle.generate_case (with_Run _ run) range tc st
  = Middle.generate_case range tc st.
Proof.
  intros Hw. unfold Middle.generate_case.
  change (@module_files (with_Run _ run) range tc) with (module_files range tc).
  destruct (module_files range tc) as [modFiles|v]; [|done]. simpl.
  change (@Middle.entry_points (with_Run _ run)) with (@Middle.entry_points _).
  destruct (compiler_Build false _ modFiles) as [[err|] pms]; [done|].
  case_decide; [done|].
  do 2 rewrite Middle_expected_skipped by done. reflexivity.
Qed.
End NoEvaluation.

Section WantedErrorClaims.
Context `{!Engine} (range : MapRange).

End WantedErrorClaims.

Section EntryPointClaims.
Context `{!Engine} (range : MapRange).

Implicit Types (tc : ExtendedTestCase) (st : RunState).

Lemma Middle_expected_EntryPoints eps tc st tc2 :
  Middle.expected_result range eps tc st = Ret (inr tc2) →
  EntryPoints tc2 = EntryPoints tc.
Proof.
  unfold Middle.expected_result. case_bool_decide; [|by intros [= <-]].
  destruct (Middle.eval range eps tc) as [[err|rs]|v]; simpl; try done.
  case_decide; [done|].
  destruct (index rs 0) as [result|]; simpl; [|done]. by intros [= <-].
Qed.

Lemma Middle_case_EntryPoints tc st tc' st' modFiles :
  module_files range tc = Ret modFiles →
  Middle.generate_case range tc st = Ret (tc', st') →
  EntryPoints tc' = Middle.entry_points modFiles [].
Proof.
  intros Hm. rewrite (Middle_case_modules _ _ _ _ Hm). cbv zeta.
  destruct (compiler_Build false _ modFiles) as [[err|] pms].
  { by intros [= <- <-]. }
  case_decide; [by intros [= <- <-]|].
  destruct (Middle.expected_result _ _ _ _) as [[st2|tc2]|v] eqn:He; simpl;
    [by intros [= <- <-]| |done].
  apply Middle_expected_EntryPoints in He.
  destruct (index pms 0) as [pm|]; [|done]. simpl.
  destruct (json_Unmarshal (plan_Raw pm)); by intros [= <- <-].
Qed.

(** C3. The entry point the final revision derives from a package path is
    the path with the prefix [data.] stripped and every [.] turned into
    [/]: [data.example.allow] gives [example/allow]; the middle revision
    derives the same from every path that begins with [data.], as the
    paths of parsed modules do.  In the final revision the modules that
    declare rules give the entry points of a case, in their order; a
    module without rules gives none, its notice is printed, and neither
    counter moves. *)
Theorem entry_point_is_stripped_package_path :
  (∀ pkg, Final.entry_point pkg = spec_entry_point pkg)
  ∧ Final.entry_point "data.example.allow" = "example/allow"
  ∧ (∀ pkg, strings_HasPrefix pkg "data." = true →
       Middle.entry_point pkg = spec_entry_point pkg)
  ∧ (∀ note (modFiles : list (ModuleFile Rule)) st,
       Final.entry_points note modFiles [] [] st
       = (package_of <$> filter has_rules modFiles,
          spec_entry_point ∘ package_of <$> filter has_rules modFiles,
          {| successCount := successCount st;
             failureCount := failureCount st;
             stdout := stdout st
                       ++ (no_rules_notice note ∘ package_of
                           <$> filter (λ m, ¬ has_rules m) modFiles) |}))
  ∧ (∀ tc st tc' st' modFiles,
       module_files range tc = Ret modFiles → modFiles ≠ [] →
       Final.generate_case range tc st = Ret (tc', st') →
       EntryPoints tc'
       = spec_entry_point ∘ package_of <$> filter has_rules modFiles)
  ∧ (∀ tc st tc' st' modFiles,
       module_files range tc = Ret modFiles →
       Forall (λ m, strings_HasPrefix (package_of m) "data." = true) modFiles →
       Middle.generate_case range tc st = Ret (tc', st') →
       EntryPoints tc' = spec_entry_point ∘ package_of <$> modFiles).
Proof.
  assert (∀ l : list (ModuleFile Rule),
            Final.entry_point ∘ package_of <$> l
            = spec_entry_point ∘ package_of <$> l) as Hspec.
  { intros l. apply list_fmap_ext. intros _ m _. apply Final_entry_point_spec. }
  split; [exact Final_entry_point_spec|]. split; [reflexivity|].
  split; [|split; [|split]].
  - intros pkg [rest ->]%HasPrefix_data. apply Middle_entry_point_data.
  - intros note modFiles st. rewrite Final_entry_points_spec. simpl.
    by rewrite Hspec.
  - intros tc st tc' st' modFiles Hm Hne Hg.
    destruct (Final.entry_points (Note tc) modFiles [] [] st)
      as [[pkgs eps] st1] eqn:He.
    assert (EntryPoints tc' = eps) as ->.
    { destruct (Final_case_outcomes _ _ _ _ _ _ _ _ _ Hm Hne He Hg)
        as [(line & _ & [->|(_ & _ & result & ->)])
           |(pm & plan & _ & _ & _ & _
             & [(_ & _ & result & _ & ->)|(_ & ->)])]; done. }
    rewrite Final_entry_points_spec in He. injection He as _ <- _.
    simpl. apply Hspec.
  - intros tc st tc' st' modFiles Hm Hall Hg.
    rewrite (Middle_case_EntryPoints _ _ _ _ _ Hm Hg).
    rewrite Middle_entry_points_spec. simpl.
    apply Forall_fmap_ext_1. eapply Forall_impl; [exact Hall|].
    intros m [rest Hrest]%HasPrefix_data. simpl. rewrite Hrest.
    apply Middle_entry_point_data.
Qed.
End EntryPointClaims.

(** ** Module files *)

Section ModuleFiles.
Context `{!Engine} (range : MapRange).

Lemma modules_from_lookup_ne (name : nat → string) xs i m k :
  (∀ j, j < length xs → k ≠ name (i + j)) →
  modules_from name i xs m !! k = m !! k.
Proof.
  revert i m. induction xs as [|x xs IH]; intros i m Hk; simpl; [done|].
  rewrite IH.
  - rewrite lookup_insert_ne; [done|].
    intros Heq. apply (Hk 0); [simpl; lia|]. by rewrite Nat.add_0_r.
  - intros j Hj. replace (S i + j) with (i + S j) by lia.
    apply Hk. simpl. lia.
Qed.

Lemma modules_from_lookup (name : nat → string) `{!Inj (=) (=) name}
    xs i m j x :
  xs !! j = Some x → modules_from name i xs m !! name (i + j) = Some x.
Proof.
  revert i m j. induction xs as [|y xs IH]; intros i m j; [done|].
  destruct j as [|j]; simpl.
  - intros [= ->]. rewrite modules_from_lookup_ne.
    + rewrite Nat.add_0_r. by rewrite lookup_insert_eq.
    + intros j _ Heq%(inj name). lia.
  - intros Hx. replace (i + S j) with (S i + j) by lia. by apply IH.
Qed.

Global Instance mod_name_inj : Inj (=) (=) mod_name.
Proof.
  intros i j Heq. unfold mod_name, fmt_d in Heq.
  apply (inj (String.app "mod_")) in Heq. by apply (inj pretty) in Heq.
Qed.

Lemma modules_from_empty (name : nat → string) i :
  modules_from name i [] ∅ = ∅.
Proof. reflexivity. Qed.

Lemma parse_modules_panic src includeRaw keys acc k err :
  k ∈ keys → ast_ParseModule k (default "" (src !! k)) = inl err →
  ∃ v, parse_modules src includeRaw keys acc = Panic v.
Proof.
  intros Hk Hp. revert acc.
  induction keys as [|k' keys IH]; intros acc; [by apply elem_of_nil in Hk|].
  simpl. destruct (ast_ParseModule k' _) as [e|m] eqn:Hk'; [by eexists|].
  apply elem_of_cons in Hk as [->|Hk]; [congruence|]. by apply IH.
Qed.

(** The keys [getModuleFiles] parses are the keys of the map. *)
Lemma sorted_keys_elem_of {V} (m : gmap string V) k :
  MapRange_ok range →
  k ∈ sort_Strings (range V m).*1 ↔ is_Some (m !! k).
Proof.
  intros Hok. unfold sort_Strings. rewrite merge_sort_Permutation.
  rewrite (Hok V m). rewrite list_elem_of_fmap. split.
  - intros ([k' v] & -> & Hin). apply elem_of_map_to_list in Hin. by eexists.
  - intros [v Hv]. exists (k, v). split; [done|]. by apply elem_of_map_to_list.
Qed.

(** An unparsable module is a panic. *)
Lemma module_files_panic tc i text err :
  MapRange_ok range →
  Modules tc !! i = Some text →
  ast_ParseModule (mod_name i) text = inl err →
  ∃ v, module_files range tc = Panic v.
Proof.
  intros Hok Hi Hp. unfold module_files, getModuleFiles.
  pose proof (modules_from_lookup mod_name (Modules tc) 0 ∅ i text Hi) as Hl.
  simpl in Hl. eapply parse_modules_panic.
  - apply sorted_keys_elem_of; [done|]. by eexists.
  - rewrite Hl. simpl. exact Hp.
Qed.

(** A case without modules has no module files. *)
Lemma module_files_none tc :
  MapRange_ok range → Modules tc = [] → module_files range tc = Ret [].
Proof.
  intros Hok Hm. unfold module_files, getModuleFiles. rewrite Hm. simpl.
  pose proof (Hok string ∅) as Hp. rewrite map_to_list_empty in Hp.
  apply Permutation_nil_r in Hp. rewrite Hp. reflexivity.
Qed.
End ModuleFiles.

(** ** Writing a test *)

Section Emit.
Context `{!Engine} `{!OS}.

Implicit Types (t : Test) (st : RunState) (fs : FileSystem).

Lemma index_lookup {A} (l : list A) (i : nat) (x : A) :
  l !! i = Some x → index l (Z.of_nat i) = Ret x.
Proof.
  intros Hi. pose proof (lookup_lt_Some _ _ _ Hi) as Hlt. unfold index.
  destruct (Z.ltb_spec (Z.of_nat i) 0), (Z.leb_spec (Z.of_nat (length l))
                                                    (Z.of_nat i));
    simpl; try lia.
  by rewrite Nat2Z.id, Hi.
Qed.

Lemma index_app_2 {A} (l : list A) (a b : A) :
  index (l ++ [a; b]) (Z.of_nat (length (l ++ [a; b])) - 2) = Ret a
  ∧ index (l ++ [a; b]) (Z.of_nat (length (l ++ [a; b])) - 1) = Ret b.
Proof.
  rewrite length_app. simpl length. split.
  - replace (Z.of_nat (length l + 2) - 2)%Z with (Z.of_nat (length l)) by lia.
    apply index_lookup. rewrite lookup_app_r by lia. by rewrite Nat.sub_diag.
  - replace (Z.of_nat (length l + 2) - 1)%Z with (Z.of_nat (S (length l)))
      by lia.
    apply index_lookup. rewrite lookup_app_r by lia.
    by replace (S (length l) - length l) with 1 by lia.
Qed.

Lemma index_short {A} (l : list A) :
  length l < 2 →
  index l (Z.of_nat (length l) - 2) = Panic "runtime error: index out of range".
Proof.
  intros Hl. unfold index.
  replace (Z.of_nat (length l) - 2 <? 0)%Z with true; [done|].
  symmetry. apply Z.ltb_lt. lia.
Qed.

(** The last two segments of the path make the output path. *)
Lemma output_path_segments dstPath t segs group name :
  strings_Split (filename t) "/" = segs ++ [group; name] →
  output_path dstPath t
  = Ret (path_join dstPath group, strings_ReplaceAll name ".yaml" ".json").
Proof.
  intros Hs. unfold output_path. rewrite Hs.
  destruct (index_app_2 segs group name) as [-> ->]. reflexivity.
Qed.

(** A path of one segment has no group: a run-time panic. *)
Lemma output_path_short dstPath t :
  length (strings_Split (filename t) "/") < 2 →
  output_path dstPath t = Panic "runtime error: index out of range".
Proof. intros Hl. unfold output_path. by rewrite index_short. Qed.

Lemma emit_marshal_failure dstPath t st fs err :
  json_MarshalIndent t = inl err →
  emit dstPath t st fs
  = Ret (fail ("Failed to marchal tc to json: " +:+ err +:+ newline) st, fs).
Proof. intros Hj. unfold emit. by rewrite Hj. Qed.

Lemma emit_marshalled dstPath t st fs tcJson folderPath tcFileName :
  json_MarshalIndent t = inr tcJson →
  output_path dstPath t = Ret (folderPath, tcFileName) →
  emit dstPath t st fs
  = match os_MkdirAll folderPath fs with
    | (Some err, _) => Panic err
    | (None, fs1) =>
        match os_WriteFile (path_join folderPath tcFileName) tcJson fs1 with
        | (Some err, fs2) =>
            Ret (fail ("Failed to write tc: " +:+ err +:+ newline) st, fs2)
        | (None, fs2) => Ret (st, fs2)
        end
    end.
Proof. intros Hj Hp. unfold emit. rewrite Hj, Hp. reflexivity. Qed.

Lemma emit_no_path dstPath t st fs tcJson v :
  json_MarshalIndent t = inr tcJson → output_path dstPath t = Panic v →
  emit dstPath t st fs = Panic v.
Proof. intros Hj Hp. unfold emit. rewrite Hj, Hp. reflexivity. Qed.
End Emit.

(** ** Panics end the run *)

Section Panics.
Context `{!Engine} `{!OS} (range : MapRange).

Lemma Final_walk_malformed fs entries result out entry bs err :
  entry ∈ entries → walk_err entry = None → walk_IsDir entry = false →
  ioutil_ReadFile (walk_path entry) fs = inr bs →
  util_Unmarshal bs = inl err →
  ∃ e, Final.walk fs entries result out = inl e.
Proof.
  intros Hin He Hd Hr Hu. revert result out.
  induction entries as [|entry' entries IH]; intros result out;
    [by apply elem_of_nil in Hin|].
  apply elem_of_cons in Hin as [<-|Hin].
  - simpl. rewrite He, Hd, Hr, Hu. by eexists.
  - simpl. destruct (walk_err entry'); [by eexists|].
    destruct (walk_IsDir entry'); [exact (IH Hin _ _)|].
    destruct (ioutil_ReadFile (walk_path entry') fs) as [e|b]; [by eexists|].
    destruct (util_Unmarshal b); [by eexists|]. exact (IH Hin _ _).
Qed.

Lemma Final_generate_cases_panics cases tc :
  tc ∈ cases →
  (∀ st, ∃ v, Final.generate_case range tc st = Panic v) →
  ∀ st, ∃ v, Final.generate_cases range cases st = Panic v.
Proof.
  intros Hin Hp. induction cases as [|tc' cases IH]; intros st;
    [by apply elem_of_nil in Hin|].
  simpl. apply elem_of_cons in Hin as [<-|Hin].
  - destruct (Hp st) as [v ->]. by eexists.
  - destruct (Final.generate_case range tc' st) as [[tc'' st']|v];
      [|by eexists].
    simpl. destruct (IH Hin st') as [v ->]. by eexists.
Qed.

Lemma Final_generate_tests_panics dstPath tests t :
  t ∈ tests →
  (∀ st fs, ∃ v, Final.generate_test range dstPath t st fs = Panic v) →
  ∀ st fs, ∃ v, Final.generate_tests range dstPath tests st fs = Panic v.
Proof.
  intros Hin Hp. induction tests as [|t' tests IH]; intros st fs;
    [by apply elem_of_nil in Hin|].
  simpl. apply elem_of_cons in Hin as [<-|Hin].
  - destruct (Hp st fs) as [v ->]. by eexists.
  - destruct (Final.generate_test range dstPath t' st fs) as [[st' fs']|v];
      [|by eexists].
    simpl. by apply IH.
Qed.

Lemma Final_generate_test_panics dstPath t tc :
  tc ∈ Cases t →
  (∀ st, ∃ v, Final.generate_case range tc st = Panic v) →
  ∀ st fs, ∃ v, Final.generate_test range dstPath t st fs = Panic v.
Proof.
  intros Hin Hp st fs. unfold Final.generate_test.
  destruct (Final_generate_cases_panics _ _ Hin Hp st) as [v ->]. by eexists.
Qed.

Lemma Final_generate_panics srcPath dstPath fs tests out t :
  Final.loadTests srcPath fs = Ret (tests, out) → t ∈ tests →
  (∀ st fs, ∃ v, Final.generate_test range dstPath t st fs = Panic v) →
  ∃ v, Final.generate range srcPath dstPath fs = Panic v.
Proof.
  intros Hl Hin Hp. unfold Final.generate. rewrite Hl. simpl.
  destruct (Final_generate_tests_panics _ _ _ Hin Hp
              {| successCount := 0; failureCount := 0;
                 stdout := ("Generating compliance tests" +:+ newline) :: out |}
              fs) as [v Hv].
  simpl in Hv. rewrite Hv. by eexists.
Qed.
End Panics.

(** ** Fatal errors and counted errors *)

Section Severities.
Context `{!Engine} `{!OS} (range : MapRange).

Implicit Types (tc : ExtendedTestCase) (t : Test) (st : RunState).

Lemma Final_case_result_count tc st modFiles pkgs eps st1 pm r :
  WantError tc = None → WantErrorCode tc = None →
  module_files range tc = Ret modFiles → modFiles ≠ [] →
  Final.entry_points (Note tc) modFiles [] [] st = (pkgs, eps, st1) →
  compiler_Build true eps modFiles = (None, [pm]) →
  Final.eval range pkgs (set_EntryPoints eps tc) = Ret r →
  (∀ result, r ≠ inr [result]) →
  ∃ line, Final.generate_case range tc st
          = Ret (set_EntryPoints eps tc, fail line st1).
Proof.
  intros Hw Hc Hm Hne He Hb Hev Hr.
  rewrite (Final_case_planned _ _ _ _ _ _ _ _ Hm Hne He Hb). cbv zeta.
  rewrite Final_expected_evaluated by done. rewrite Hev. simpl.
  destruct r as [err|[|result [|result' rs]]]; simpl; try by eexists.
  by destruct (Hr result).
Qed.

Lemma Final_generate_test_cases dstPath t st fs cases st1 :
  Final.generate_cases range (Cases t) st = Ret (cases, st1) →
  Final.generate_test range dstPath t st fs
  = emit dstPath {| filename := filename t; Cases := cases |} st1 fs.
Proof. intros Hc. unfold Final.generate_test. by rewrite Hc. Qed.

Lemma Final_main_usage args fs :
  length args ≠ 2 → length args ≠ 3 → ∃ v, Final.main range args fs = Panic v.
Proof.
  intros H2 H3. destruct args as [|a0 [|a1 [|a2 [|a3 args]]]];
    simpl in *; try done; by eexists.
Qed.

(** C5. Errors come in two kinds.  A fixture file that does not parse, a
    module that does not parse, a number of arguments other than the two
    accepted and a directory that cannot be made each end the run of the
    final revision in a panic.  A compiler error, a number of plan modules
    or of result sets other than one, a test that cannot be serialised and
    a file that cannot be written each print a line and count one failure
    (no success), and the run goes on with the next case or the next
    test. *)
Theorem fatal_errors_abort_and_counted_errors_continue :
  MapRange_ok range →
  (* a malformed fixture file *)
  (∀ srcPath dstPath fs entry bs err,
      entry ∈ filepath_Walk srcPath fs →
      walk_err entry = None → walk_IsDir entry = false →
      ioutil_ReadFile (walk_path entry) fs = inr bs →
      util_Unmarshal bs = inl err →
      ∃ v, Final.generate range srcPath dstPath fs = Panic v)
  (* a module that does not parse *)
  ∧ (∀ srcPath dstPath fs tests out t tc i text err,
        Final.loadTests srcPath fs = Ret (tests, out) →
        t ∈ tests → tc ∈ Cases t →
        Modules tc !! i = Some text →
        ast_ParseModule (mod_name i) text = inl err →
        ∃ v, Final.generate range srcPath dstPath fs = Panic v)
  (* the command line *)
  ∧ (∀ args fs, length args ≠ 2 → length args ≠ 3 →
        ∃ v, Final.main range args fs = Panic v)
  (* a directory that cannot be made *)
  ∧ (∀ dstPath t rest st fs cases st1 tcJson folderPath tcFileName err fs',
        Final.generate_cases range (Cases t) st = Ret (cases, st1) →
        json_MarshalIndent {| filename := filename t; Cases := cases |}
          = inr tcJson →
        output_path dstPath {| filename := filename t; Cases := cases |}
          = Ret (folderPath, tcFileName) →
        os_MkdirAll folderPath fs = (Some err, fs') →
        Final.generate_tests range dstPath (t :: rest) st fs = Panic err)
  (* the compiler, the plan modules, the result sets *)
  ∧ (∀ tc st modFiles pkgs eps st1 rest,
        module_files range tc = Ret modFiles → modFiles ≠ [] →
        Final.entry_points (Note tc) modFiles [] [] st = (pkgs, eps, st1) →
        ((∃ err pms, compiler_Build true eps modFiles = (Some err, pms))
         ∨ (∃ pms, compiler_Build true eps modFiles = (None, pms)
                   ∧ length pms ≠ 1)
         ∨ (∃ pm r, WantError tc = None ∧ WantErrorCode tc = None
                    ∧ compiler_Build true eps modFiles = (None, [pm])
                    ∧ Final.eval range pkgs (set_EntryPoints eps tc) = Ret r
                    ∧ ∀ result, r ≠ inr [result])) →
        ∃ line,
          Final.generate_case range tc st
          = Ret (set_EntryPoints eps tc, fail line st1)
          ∧ successCount (fail line st1) = successCount st
          ∧ failureCount (fail line st1) = S (failureCount st)
          ∧ stdout (fail line st1) = stdout st1 ++ [line]
          ∧ Final.generate_cases range (tc :: rest) st
            = '(rest', st'') ← Final.generate_cases range rest (fail line st1);
              Ret (set_EntryPoints eps tc :: rest', st''))
  (* a test that cannot be serialised *)
  ∧ (∀ dstPath t rest st fs cases st1 err,
        Final.generate_cases range (Cases t) st = Ret (cases, st1) →
        json_MarshalIndent {| filename := filename t; Cases := cases |}
          = inl err →
        ∃ line,
          Final.generate_tests range dstPath (t :: rest) st fs
          = Final.generate_tests range dstPath rest (fail line st1) fs)
  (* a file that cannot be written *)
  ∧ (∀ dstPath t rest st fs cases st1 tcJson folderPath tcFileName fs1 err fs2,
        Final.generate_cases range (Cases t) st = Ret (cases, st1) →
        json_MarshalIndent {| filename := filename t; Cases := cases |}
          = inr tcJson →
        output_path dstPath {| filename := filename t; Cases := cases |}
          = Ret (folderPath, tcFileName) →
        os_MkdirAll folderPath fs = (None, fs1) →
        os_WriteFile (path_join folderPath tcFileName) tcJson fs1
          = (Some err, fs2) →
        ∃ line,
          Final.generate_tests range dstPath (t :: rest) st fs
          = Final.generate_tests range dstPath rest (fail line st1) fs2).
Proof.
  intros Hok. repeat split.
  - intros srcPath dstPath fs entry bs err Hin He Hd Hr Hu.
    unfold Final.generate, Final.loadTests.
    destruct (Final_walk_malformed fs _ [] [] _ _ _ Hin He Hd Hr Hu) as [e ->].
    by eexists.
  - intros srcPath dstPath fs tests out t tc i text err Hl Ht Htc Hi Hp.
    eapply Final_generate_panics; [done..|].
    eapply Final_generate_test_panics; [done|].
    intros st. destruct (module_files_panic range _ _ _ _ Hok Hi Hp) as [v Hv].
    exists v. unfold Final.generate_case. by rewrite Hv.
  - apply Final_main_usage.
  - intros dstPath t rest st fs cases st1 tcJson folderPath tcFileName err fs'
      Hc Hj Hp Hmk.
    apply Final_generate_tests_panic.
    rewrite (Final_generate_test_cases _ _ _ _ _ _ Hc).
    rewrite (emit_marshalled _ _ _ _ _ _ _ Hj Hp). by rewrite Hmk.
  - intros tc st modFiles pkgs eps st1 rest Hm Hne He Hcause.
    destruct (Final_entry_points_counters _ _ _ _ _ _ _ _ He) as [Hs1 Hf1].
    assert (∃ line, Final.generate_case range tc st
                    = Ret (set_EntryPoints eps tc, fail line st1))
      as [line Hg].
    { destruct Hcause as [(err & pms & Hb)|[(pms & Hb & Hl)
                         |(pm & r & Hw & Hc & Hb & Hev & Hr)]].
      - eexists. by eapply Final_case_compile_failure.
      - eexists. by eapply Final_case_plan_count.
      - by eapply Final_case_result_count. }
    exists line. split; [done|]. simpl. rewrite Hs1, Hf1.
    repeat split; try done. by apply Final_generate_cases_cons.
  - intros dstPath t rest st fs cases st1 err Hc Hj. eexists.
    apply Final_generate_tests_cons.
    rewrite (Final_generate_test_cases _ _ _ _ _ _ Hc).
    by apply emit_marshal_failure.
  - intros dstPath t rest st fs cases st1 tcJson folderPath tcFileName
      fs1 err fs2 Hc Hj Hp Hmk Hw. eexists.
    apply Final_generate_tests_cons.
    rewrite (Final_generate_test_cases _ _ _ _ _ _ Hc).
    rewrite (emit_marshalled _ _ _ _ _ _ _ Hj Hp). by rewrite Hmk, Hw.
Qed.
End Severities.

(** ** The tally *)

Section Tally.
Context `{!Engine} `{!OS} (range : MapRange).

Implicit Types (tc : ExtendedTestCase) (t : Test) (st : RunState).

(** The loop over the cases counts at most one for each case. *)
Lemma Final_generate_cases_counters cases st cases' st' :
  Final.generate_cases range cases st = Ret (cases', st') →
  successCount st ≤ successCount st' ∧ failureCount st ≤ failureCount st'
  ∧ successCount st' + failureCount st'
    ≤ successCount st + failureCount st + length cases.
Proof.
  revert st cases' st'. induction cases as [|tc cases IH];
    intros st cases' st'; simpl.
  { intros [= <- <-]. lia. }
  destruct (Final.generate_case range tc st) as [[tc1 st1]|v] eqn:Hg; [|done].
  simpl.
  destruct (Final.generate_cases range cases st1) as [[cases1 st2]|v] eqn:Hgs;
    [|done].
  simpl. intros [= <- <-]. apply IH in Hgs.
  apply Final_case_counters in Hg. lia.
Qed.
End Tally.


(** ** The output path *)

Section OutputPath.
Context `{!Engine} `{!OS} (range : MapRange).

Implicit Types (t : Test) (st : RunState) (fs : FileSystem).

(** A test with at least one case carries the path of its file. *)
Lemma stamp_filename path tc cases :
  filename (stamp path (tc :: cases)) = path.
Proof. reflexivity. Qed.

(** X1. A test whose path ends in [group/name] is written to
    [dstPath/group], under [name] with every ".yaml" replaced by ".json":
    the directory is made first, then the file is written. *)
Theorem emit_mirrors_last_two_segments dstPath t st fs segs group name tcJson :
  strings_Split (filename t) "/" = segs ++ [group; name] →
  json_MarshalIndent t = inr tcJson →
  emit dstPath t st fs
  = match os_MkdirAll (path_join dstPath group) fs with
    | (Some err, _) => Panic err
    | (None, fs1) =>
        match os_WriteFile
                (path_join (path_join dstPath group)
                           (strings_ReplaceAll name ".yaml" ".json"))
                tcJson fs1 with
        | (Some err, fs2) =>
            Ret (fail ("Failed to write tc: " +:+ err +:+ newline) st, fs2)
        | (None, fs2) => Ret (st, fs2)
        end
    end.
Proof.
  intros Hs Hj. eapply emit_marshalled; [done|].
  by eapply output_path_segments.
Qed.

(** X2. The directory is made with [os.MkdirAll], which makes it if it is
    missing: once a test was written, writing a test of the same file
    again, over the file system the first writing left, does not panic. *)
Theorem emit_again_does_not_panic IsDir dstPath t st fs tcJson st' fs' :
  create_if_missing IsDir →
  json_MarshalIndent t = inr tcJson →
  emit dstPath t st fs = Ret (st', fs') →
  ∀ t2 st2, filename t2 = filename t →
    ∃ r, emit dstPath t2 st2 fs' = Ret r.
Proof.
  intros (Hmade & Hagain & Hkept) Hj Hemit t2 st2 Hname.
  assert (output_path dstPath t2 = output_path dstPath t) as Hpath.
  { unfold output_path. by rewrite Hname. }
  unfold emit in Hemit. rewrite Hj in Hemit.
  destruct (output_path dstPath t) as [[folderPath tcFileName]|] eqn:Hp;
    [|done].
  simpl in Hemit.
  destruct (os_MkdirAll folderPath fs) as [[err|] fs1] eqn:Hmk; [done|].
  apply Hmade in Hmk. unfold writeWile in Hemit.
  destruct (os_WriteFile _ tcJson fs1) as [err fs2] eqn:Hw.
  assert (fs2 = fs') as -> by (destruct err; by injection Hemit).
  pose proof (Hkept _ _ _ _ _ _ Hmk Hw) as Hdir.
  unfold emit. destruct (json_MarshalIndent t2) as [e|tcJson2]; [by eexists|].
  rewrite Hpath. simpl. destruct (Hagain _ _ Hdir) as [fs3 ->].
  destruct (writeWile folderPath tcFileName tcJson2 fs3) as [[e|] fs4];
    by eexists.
Qed.

(** C8, at the input where the code fails it. A file without cases is
    loaded as a test whose [filename] is empty, since [loadTests] sets it
    in its loop over the cases: once the test is serialised, [generate]
    looks for the second-to-last segment of the empty path and panics, in
    both revisions, instead of writing the file under the mirrored
    path. *)
Theorem file_without_cases_panics dstPath path st fs tcJson :
  json_MarshalIndent {| filename := ""; Cases := [] |} = inr tcJson →
  filename (stamp path []) = ""
  ∧ Final.generate_test range dstPath (stamp path []) st fs
    = Panic "runtime error: index out of range"
  ∧ Middle.generate_test range dstPath (stamp path []) st fs
    = Panic "runtime error: index out of range".
Proof.
  intros Hj. split; [done|].
  unfold Final.generate_test, Middle.generate_test. simpl.
  split; (eapply emit_no_path; [exact Hj|]);
    apply output_path_short; simpl; lia.
Qed.
End OutputPath.

(** ** The order of map iterations *)

Section Orders.
Context `{!Engine} (range1 range2 : MapRange).
Context (Hok1 : MapRange_ok range1) (Hok2 : MapRange_ok range2).

Implicit Types (tc : ExtendedTestCase) (st : RunState).

Lemma sort_Strings_Permutation (l1 l2 : list string) :
  l1 ≡ₚ l2 → sort_Strings l1 = sort_Strings l2.
Proof.
  intros Hp. unfold sort_Strings.
  apply (Sorted_unique String.le); [apply Sorted_merge_sort; apply _..|].
  by rewrite !merge_sort_Permutation.
Qed.

(** The keys are sorted before the modules are parsed: the module files
    do not depend on the order in which the map gives its keys. *)
Lemma getModuleFiles_range src includeRaw :
  getModuleFiles range1 src includeRaw = getModuleFiles range2 src includeRaw.
Proof.
  unfold getModuleFiles. f_equal. apply sort_Strings_Permutation.
  by rewrite (Hok1 _ src), (Hok2 _ src).
Qed.

Lemma module_files_range tc : module_files range1 tc = module_files range2 tc.
Proof. apply getModuleFiles_range. Qed.

Lemma result_of_spec (bindings : list (string * Term)) (acc : ResultMap) :
  NoDup bindings.*1 →
  match result_of bindings acc with
  | inr m =>
      (∀ k, m !! k = match (list_to_map bindings : gmap string Term) !! k with
                     | Some term => term_JSON term
                     | None => acc !! k
                     end)
      ∧ Forall (λ b, is_Some (term_JSON b.2)) bindings
  | inl _ => Exists (λ b, term_JSON b.2 = None) bindings
  end.
Proof.
  revert acc. induction bindings as [|[k0 t0] bs IH]; intros acc Hnd.
  { simpl. split; [|constructor]. intros k. by rewrite lookup_empty. }
  rewrite fmap_cons in Hnd. apply NoDup_cons in Hnd as [Hk0 Hnd]. simpl.
  destruct (ast_JSON t0) as [err|v] eqn:Hj.
  { apply Exists_cons_hd. unfold term_JSON. simpl. by rewrite Hj. }
  specialize (IH (<[k0:=v]> acc) Hnd).
  destruct (result_of bs (<[k0:=v]> acc)) as [e|m].
  { by apply Exists_cons_tl. }
  destruct IH as [Hm Hall]. split.
  - intros k. rewrite Hm. destruct (decide (k = k0)) as [->|Hne].
    + rewrite lookup_insert_eq.
      rewrite (not_elem_of_list_to_map_1 _ _ Hk0).
      rewrite lookup_insert_eq. unfold term_JSON. by rewrite Hj.
    + rewrite !lookup_insert_ne by done. reflexivity.
  - constructor; [|done]. unfold term_JSON. simpl. rewrite Hj. by eexists.
Qed.

Lemma result_of_Permutation (bs1 bs2 : list (string * Term)) :
  NoDup bs1.*1 → bs1 ≡ₚ bs2 →
  sum_rel (result_of bs1 ∅) (result_of bs2 ∅).
Proof.
  intros Hnd1 Hp.
  assert (NoDup bs2.*1) as Hnd2 by by rewrite <- Hp.
  pose proof (result_of_spec bs1 ∅ Hnd1) as H1.
  pose proof (result_of_spec bs2 ∅ Hnd2) as H2.
  assert ((list_to_map bs1 : gmap string Term) = list_to_map bs2) as Hmap
    by by apply list_to_map_proper.
  destruct (result_of bs1 ∅) as [e1|m1], (result_of bs2 ∅) as [e2|m2]; simpl.
  - done.
  - destruct H2 as [_ Hall]. rewrite <- Hp in Hall.
    apply Exists_exists in H1 as (b & Hb & Hnone).
    rewrite Forall_forall in Hall. destruct (Hall b Hb) as [v Hv]. congruence.
  - destruct H1 as [_ Hall]. rewrite Hp in Hall.
    apply Exists_exists in H2 as (b & Hb & Hnone).
    rewrite Forall_forall in Hall. destruct (Hall b Hb) as [v Hv]. congruence.
  - destruct H1 as [H1 _], H2 as [H2 _]. apply map_eq. intros k.
    by rewrite H1, H2, Hmap.
Qed.

Lemma result_of_range (qr : gmap string Term) :
  sum_rel (result_of (range1 _ qr) ∅) (result_of (range2 _ qr) ∅).
Proof.
  apply result_of_Permutation.
  - rewrite (Hok1 _ qr). apply NoDup_fst_map_to_list.
  - by rewrite (Hok1 _ qr), (Hok2 _ qr).
Qed.

Lemma resultSet_of_range qrs acc :
  sum_rel (resultSet_of range1 qrs acc) (resultSet_of range2 qrs acc).
Proof.
  revert acc. induction qrs as [|qr qrs IH]; intros acc; simpl; [done|].
  pose proof (result_of_range qr) as Hr.
  destruct (result_of (range1 _ qr) ∅), (result_of (range2 _ qr) ∅);
    simpl in Hr; try done.
  subst. apply IH.
Qed.

Lemma eval_results_range tc run :
  sum_rel (eval_results range1 tc run) (eval_results range2 tc run).
Proof.
  destruct run as [qrs err]. unfold eval_results.
  destruct err, (WantErrorCode tc), (WantError tc); try done;
    (destruct (1 <? length qrs); [done|apply resultSet_of_range]).
Qed.

Lemma eval_query_range q tc :
  go_rel sum_rel (eval_query range1 q tc) (eval_query range2 q tc).
Proof.
  unfold eval_query.
  destruct (ast_MustCompileModules _) as [compiler|]; [|done].
  destruct (QueryCompiler_Compile compiler q) as [err|query]; [done|].
  destruct (storage_NewTransactionOrDie _) as [txn|]; [|done].
  destruct (eval_input tc) as [input|]; [|done]. simpl.
  apply eval_results_range.
Qed.

Lemma Final_eval_range pkgs tc :
  go_rel sum_rel (Final.eval range1 pkgs tc) (Final.eval range2 pkgs tc).
Proof.
  unfold Final.eval. destruct (Final.createQuery pkgs) as [q|]; [|done].
  apply eval_query_range.
Qed.
End Orders.

Section Determinism.
Context `{!Engine} `{!OS} (range1 range2 : MapRange).
Context (Hok1 : MapRange_ok range1) (Hok2 : MapRange_ok range2).
Context (C : nat * nat → nat * nat → Prop) (HC : counted C).

Implicit Types (tc : ExtendedTestCase) (t : Test) (st : RunState).

Lemma counted_fail line1 line2 st1 st2 :
  C (counters st1) (counters st2) →
  C (counters (fail line1 st1)) (counters (fail line2 st2)).
Proof. intros Hst. by apply HC. Qed.

Lemma counted_succeed st1 st2 :
  C (counters st1) (counters st2) →
  C (counters (succeed st1)) (counters (succeed st2)).
Proof. intros Hst. by apply HC. Qed.

Lemma Final_expected_range pkgs tc st1 st2 :
  C (counters st1) (counters st2) →
  go_rel (same_expected C) (Final.expected_result range1 pkgs tc st1)
                           (Final.expected_result range2 pkgs tc st2).
Proof.
  intros Hst. unfold Final.expected_result. case_bool_decide; [|done].
  pose proof (Final_eval_range range1 range2 Hok1 Hok2 pkgs tc) as Hev.
  destruct (Final.eval range1 pkgs tc) as [[e1|rs1]|v1],
           (Final.eval range2 pkgs tc) as [[e2|rs2]|v2]; simpl in *; try done.
  - by apply counted_fail.
  - subst rs2. case_decide; simpl; [by apply counted_fail|].
    by destruct (index rs1 0).
Qed.

Lemma Final_generate_case_range tc st1 st2 :
  C (counters st1) (counters st2) →
  go_rel (same_result C) (Final.generate_case range1 tc st1)
                         (Final.generate_case range2 tc st2).
Proof.
  intros Hst. unfold Final.generate_case.
  rewrite (module_files_range range1 range2 Hok1 Hok2).
  destruct (module_files range2 tc) as [modFiles|v]; [|done]. simpl.
  case_decide; [by split|].
  rewrite !Final_entry_points_spec.
  set (pkgs := [] ++ (package_of <$> _)).
  set (eps := [] ++ (Final.entry_point ∘ package_of <$> _)).
  set (st1' := {| successCount := successCount st1 |}).
  set (st2' := {| successCount := successCount st2 |}).
  assert (C (counters st1') (counters st2')) as Hst' by exact Hst.
  cbv iota beta.
  destruct (compiler_Build true eps modFiles) as [[err|] pms].
  { simpl. split; [done|]. by apply counted_fail. }
  case_decide.
  { simpl. split; [done|]. by apply counted_fail. }
  pose proof (Final_expected_range pkgs (set_EntryPoints eps tc) _ _ Hst')
    as Hexp.
  destruct (Final.expected_result range1 _ _ st1') as [[s1|tc1]|v1],
           (Final.expected_result range2 _ _ st2') as [[s2|tc2]|v2];
    simpl in Hexp; try done.
  subst tc2. simpl. destruct (index pms 0) as [pm|]; [|done]. simpl.
  destruct (json_Unmarshal (plan_Raw pm)) as [err|plan].
  { simpl. split; [done|]. by apply counted_fail. }
  destruct plan; simpl; (split; [done|]);
    first [by apply counted_fail | by apply counted_succeed].
Qed.

Lemma Final_generate_cases_range cases st1 st2 :
  C (counters st1) (counters st2) →
  go_rel (same_result C) (Final.generate_cases range1 cases st1)
                         (Final.generate_cases range2 cases st2).
Proof.
  revert st1 st2. induction cases as [|tc cases IH]; intros st1 st2 Hst.
  { done. }
  simpl. pose proof (Final_generate_case_range tc _ _ Hst) as Hc.
  destruct (Final.generate_case range1 tc st1) as [[tc1 s1]|v1],
           (Final.generate_case range2 tc st2) as [[tc2 s2]|v2];
    simpl in *; try done.
  destruct Hc as [Htc Hs]. simpl in *. subst tc2.
  specialize (IH _ _ Hs).
  destruct (Final.generate_cases range1 cases s1) as [[cs1 s1']|w1],
           (Final.generate_cases range2 cases s2) as [[cs2 s2']|w2];
    simpl in *; try done.
  destruct IH as [Hcs Hs']. simpl in *. by subst cs2.
Qed.
End Determinism.

Section SameFiles.
Context `{!Engine} `{!OS} (range1 range2 : MapRange).
Context (Hok1 : MapRange_ok range1) (Hok2 : MapRange_ok range2).

Implicit Types (tc : ExtendedTestCase) (t : Test) (st : RunState).

Lemma counted_eq : counted eq.
Proof. intros s1 f1 s2 f2 [= -> ->]. done. Qed.

Lemma counted_any : counted (λ _ _, True).
Proof. done. Qed.

Lemma same_counters_fail line1 line2 st1 st2 :
  same_counters st1 st2 → same_counters (fail line1 st1) (fail line2 st2).
Proof. unfold same_counters, counters. simpl. congruence. Qed.

Lemma emit_same_counters dstPath t st1 st2 fs :
  same_counters st1 st2 →
  go_rel same_files (emit dstPath t st1 fs) (emit dstPath t st2 fs).
Proof.
  intros Hst. unfold emit.
  destruct (json_MarshalIndent t) as [err|tcJson].
  { split; [|done]. by apply same_counters_fail. }
  destruct (output_path dstPath t) as [[folderPath tcFileName]|v]; [|done].
  simpl. destruct (os_MkdirAll folderPath fs) as [[err|] fs1]; [done|].
  destruct (writeWile folderPath tcFileName tcJson fs1) as [[err|] fs2].
  - split; [|done]. by apply same_counters_fail.
  - by split.
Qed.

Lemma Final_generate_test_range dstPath t st1 st2 fs :
  same_counters st1 st2 →
  go_rel same_files (Final.generate_test range1 dstPath t st1 fs)
                    (Final.generate_test range2 dstPath t st2 fs).
Proof.
  intros Hst. unfold Final.generate_test.
  pose proof (Final_generate_cases_range range1 range2 Hok1 Hok2 eq counted_eq
                (Cases t) _ _ Hst) as Hc.
  destruct (Final.generate_cases range1 (Cases t) st1) as [[cs1 s1]|v1],
           (Final.generate_cases range2 (Cases t) st2) as [[cs2 s2]|v2];
    simpl in *; try done.
  destruct Hc as [Hcs Hs]. simpl in *. subst cs2.
  by apply emit_same_counters.
Qed.

Lemma Final_generate_tests_range dstPath tests st1 st2 fs :
  same_counters st1 st2 →
  go_rel same_files (Final.generate_tests range1 dstPath tests st1 fs)
                    (Final.generate_tests range2 dstPath tests st2 fs).
Proof.
  revert st1 st2 fs. induction tests as [|t tests IH]; intros st1 st2 fs Hst.
  { by split. }
  simpl. pose proof (Final_generate_test_range dstPath t _ _ fs Hst) as Ht.
  destruct (Final.generate_test range1 dstPath t st1 fs) as [[s1 fs1]|v1],
           (Final.generate_test range2 dstPath t st2 fs) as [[s2 fs2]|v2];
    simpl in *; try done.
  destruct Ht as [Hs Hfs]. simpl in *. subst fs2. by apply IH.
Qed.

Lemma Final_generate_range srcPath dstPath fs :
  go_rel same_files (Final.generate range1 srcPath dstPath fs)
                    (Final.generate range2 srcPath dstPath fs).
Proof.
  unfold Final.generate.
  destruct (Final.loadTests srcPath fs) as [[tests out]|v]; [|done]. simpl.
  match goal with
  | |- context [Final.generate_tests range1 dstPath tests ?st fs] =>
      pose proof (Final_generate_tests_range dstPath tests st st fs eq_refl)
        as Hg
  end.
  destruct (Final.generate_tests range1 _ _ _ _) as [[s1 fs1]|v1],
           (Final.generate_tests range2 _ _ _ _) as [[s2 fs2]|v2];
    simpl in *; done.
Qed.
End SameFiles.

(** ** The files a run asks for *)

Section Recording.
Context `{!Engine} {os : OS} (range1 range2 : MapRange).
Context (Hok1 : MapRange_ok range1) (Hok2 : MapRange_ok range2).

Implicit Types (t : Test) (st : RunState) (fs : @FileSystem os)
  (writes : list (string * bytes)).

Lemma recording_walk fs writes entries result out :
  @Final.walk _ (recording os) (fs, writes) entries result out
  = @Final.walk _ os fs entries result out.
Proof.
  revert result out. induction entries as [|entry entries IH];
    intros result out; simpl; [done|].
  destruct (walk_err entry); [done|].
  destruct (walk_IsDir entry); [apply IH|].
  destruct (ioutil_ReadFile _ fs); [done|].
  destruct (util_Unmarshal _); [done|]. apply IH.
Qed.

Lemma recording_loadTests srcPath fs writes :
  @Final.loadTests _ (recording os) srcPath (fs, writes)
  = @Final.loadTests _ os srcPath fs.
Proof. unfold Final.loadTests. simpl. by rewrite recording_walk. Qed.

(** The record changes nothing else. *)
Lemma recording_emit dstPath t st fs writes :
  unrecorded (@emit _ (recording os) dstPath t st (fs, writes))
  = @emit _ os dstPath t st fs.
Proof.
  unfold emit, unrecorded. destruct (json_MarshalIndent t); [done|].
  destruct (output_path dstPath t) as [[folderPath tcFileName]|]; [|done].
  simpl. destruct (os_MkdirAll folderPath fs) as [[err|] fs1]; [done|].
  unfold writeWile. simpl.
  by destruct (os_WriteFile _ _ fs1) as [[err|] fs2].
Qed.

Lemma recording_generate_tests range dstPath tests st fs writes :
  unrecorded (@Final.generate_tests _ (recording os) range dstPath tests st
                (fs, writes))
  = @Final.generate_tests _ os range dstPath tests st fs.
Proof.
  revert st fs writes. induction tests as [|t tests IH]; intros st fs writes.
  { done. }
  simpl. unfold Final.generate_test.
  destruct (Final.generate_cases range (Cases t) st) as [[cases st1]|]; [|done].
  simpl. rewrite <- (recording_emit dstPath _ st1 fs writes).
  destruct (@emit _ (recording os) _ _ _ _) as [[st2 [fs2 writes2]]|]; [|done].
  simpl. apply IH.
Qed.

Lemma recording_generate range srcPath dstPath fs writes :
  unrecorded (@Final.generate _ (recording os) range srcPath dstPath
                (fs, writes))
  = @Final.generate _ os range srcPath dstPath fs.
Proof.
  unfold Final.generate. rewrite recording_loadTests.
  destruct (Final.loadTests srcPath fs) as [[tests out]|]; [|done]. simpl.
  match goal with
  | |- context [@Final.generate_tests _ os range dstPath tests ?st fs] =>
      rewrite <- (recording_generate_tests range dstPath tests st fs writes)
  end.
  by destruct (@Final.generate_tests _ (recording os) _ _ _ _ _)
    as [[st2 [fs2 writes2]]|].
Qed.

Lemma same_writes_Panic_l v
    (y : go (RunState * (@FileSystem os * list (string * bytes)))) :
  same_writes (Panic v) y.
Proof. done. Qed.

Lemma same_writes_Panic_r v
    (x : go (RunState * (@FileSystem os * list (string * bytes)))) :
  same_writes x (Panic v).
Proof. by destruct x as [[? [? ?]]|]. Qed.

(** Whatever the file system holds and whatever was counted before, the
    tests are written to the same paths with the same bytes. *)
Lemma same_writes_generate_tests dstPath tests st1 st2 fs1 fs2 writes :
  same_writes
    (@Final.generate_tests _ (recording os) range1 dstPath tests st1
       (fs1, writes))
    (@Final.generate_tests _ (recording os) range2 dstPath tests st2
       (fs2, writes)).
Proof.
  revert st1 st2 fs1 fs2 writes.
  induction tests as [|t tests IH]; intros st1 st2 fs1 fs2 writes.
  { done. }
  simpl. unfold Final.generate_test.
  pose proof (Final_generate_cases_range range1 range2 Hok1 Hok2 _ counted_any
                (Cases t) st1 st2 I) as Hc.
  destruct (Final.generate_cases range1 (Cases t) st1) as [[cs1 s1]|v1],
           (Final.generate_cases range2 (Cases t) st2) as [[cs2 s2]|v2];
    simpl in Hc; try done.
  destruct Hc as [Hcs _]. simpl in Hcs. subst cs2. simpl.
  unfold emit. destruct (json_MarshalIndent _) as [err|tcJson]; [apply IH|].
  destruct (output_path dstPath _) as [[folderPath tcFileName]|]; [|done].
  simpl.
  destruct (os_MkdirAll folderPath fs1) as [[e1|] fs1'],
           (os_MkdirAll folderPath fs2) as [[e2|] fs2'];
    try apply same_writes_Panic_l; try apply same_writes_Panic_r.
  unfold writeWile. simpl.
  destruct (os_WriteFile _ tcJson fs1') as [[e1|] fs1''],
           (os_WriteFile _ tcJson fs2') as [[e2|] fs2'']; simpl; apply IH.
Qed.
End Recording.


(** * The claims on the scripted engine *)

Lemma forwards_ok : MapRange_ok Script.forwards.
Proof. intros V m. reflexivity. Qed.

Lemma backwards_ok : MapRange_ok Script.backwards.
Proof. intros V m. unfold Script.backwards. by rewrite reverse_Permutation. Qed.

Lemma success_needs_one_plan_and_one_result_set_witness :
  (∃ tc' st' pm result,
      @Final.generate_case (Script.engine Script.fixtures) Script.forwards
        (Script.case "allow" ["package example.allow p"] None None)
        Script.start = Ret (tc', st')
      ∧ successCount st' = 1
      ∧ @compiler_Build (Script.engine Script.fixtures) true
          ["example/allow"]
          [{| URL := "mod_0"; Path := "mod_0"; Raw := [];
              Parsed := {| Package_Path_String := "data.example.allow";
                           Rules := ["p"] |} |}]
        = (None, [pm])
      ∧ @Final.eval (Script.engine Script.fixtures) Script.forwards
          ["data.example.allow"]
          (set_EntryPoints ["example/allow"]
             (Script.case "allow" ["package example.allow p"] None None))
        = Ret (inr [result]))
  ∧ (∃ line,
        @Final.generate_case (Script.engine Script.fixtures) Script.forwards
          (Script.case "no plan" ["package a no_plan"] None None) Script.start
        = Ret (set_EntryPoints ["a"]
                 (Script.case "no plan" ["package a no_plan"] None None),
               fail line Script.start))
  ∧ (∃ line,
        @Final.generate_case (Script.engine Script.fixtures) Script.forwards
          (Script.case "no result" ["package a no_result"] None None)
          Script.start
        = Ret (set_EntryPoints ["a"]
                 (Script.case "no result" ["package a no_result"] None None),
               fail line Script.start)).
Proof.
  split; [|split].
  - destruct (success_needs_one_plan_and_one_result_set
                (H:=Script.engine Script.fixtures) Script.forwards
                (Script.case "allow" ["package example.allow p"] None None)
                Script.start eq_refl eq_refl) as [Hsuccess _].
    destruct (Hsuccess _ _ eq_refl eq_refl)
      as (modFiles & pkgs & eps & st1 & pm & result & Hm & He & Hb & Hev).
    vm_compute in Hm. injection Hm as <-.
    vm_compute in He. injection He as <- <- <-.
    eexists _, _, pm, result. split; [reflexivity|]. split; [reflexivity|].
    split; [exact Hb|exact Hev].
  - destruct (success_needs_one_plan_and_one_result_set
                (H:=Script.engine Script.fixtures) Script.forwards
                (Script.case "no plan" ["package a no_plan"] None None)
                Script.start eq_refl eq_refl) as (_ & _ & Hfail & _).
    destruct (Hfail _ _ _ _ eq_refl ltac:(done) eq_refl) as [Hplans _].
    destruct (Hplans [] eq_refl ltac:(done)) as (line & Hg & _).
    by exists line.
  - destruct (success_needs_one_plan_and_one_result_set
                (H:=Script.engine Script.fixtures) Script.forwards
                (Script.case "no result" ["package a no_result"] None None)
                Script.start eq_refl eq_refl) as (_ & _ & Hfail & _).
    destruct (Hfail _ _ _ _ eq_refl ltac:(done) eq_refl) as [_ Hresults].
    destruct (Hresults _ (inr []) eq_refl eq_refl ltac:(done))
      as (line & Hg & _).
    by exists line.
Defined.



Lemma entry_point_is_stripped_package_path_witness :
  ∃ tc' st',
    @Final.generate_case (Script.engine Script.fixtures) Script.forwards
      (Script.case "two" ["package a"; "package example.allow p"] None None)
      Script.start
    = Ret (tc', st')
    ∧ EntryPoints tc' = ["example/allow"]
    ∧ failureCount st' = 0
    ∧ stdout st' = [no_rules_notice "two" "data.a"].
Proof.
  destruct (entry_point_is_stripped_package_path
              (H:=Script.engine Script.fixtures) Script.forwards)
    as (_ & _ & _ & _ & Hcase & _).
  eexists _, _. split; [vm_compute; reflexivity|].
  split; [|split; reflexivity].
  exact (Hcase (Script.case "two" ["package a"; "package example.allow p"]
                  None None)
               Script.start _ _ _ eq_refl ltac:(done) eq_refl).
Defined.

Lemma evaluation_error_propagated_iff_unexpected_witness :
  (@eval_query (Script.engine Script.fixtures) Script.forwards
     ["data_a = data.a"]
     (Script.case "unexpected" ["package a eval_error"] None None)
   = Ret (inl (LibraryError "topdown.Run" "eval_builtin_error"))
   ↔ WantError (Script.case "unexpected" ["package a eval_error"] None None)
       = None
     ∧ WantErrorCode (Script.case "unexpected" ["package a eval_error"]
                        None None) = None)
  ∧ @eval_query (Script.engine Script.fixtures) Script.forwards
      ["data_a = data.a"]
      (Script.case "wanted" ["package a partial_error"] None (Some "an error"))
    = Ret (inr [{[ "data_a" := JArray [JObject ∅; JNull] ]}]).
Proof.
  split.
  - refine (proj1 (evaluation_error_propagated_iff_unexpected
                     (H:=Script.engine Script.fixtures) Script.forwards
                     ["data_a = data.a"]
                     (Script.case "unexpected" ["package a eval_error"]
                        None None)
                     ["eval_error"] ["data_a = data.a"] () None []
                     "eval_builtin_error" _ _)).
    + repeat split; vm_compute; reflexivity.
    + vm_compute. reflexivity.
  - refine (eq_trans
              (proj1 (proj1 (proj2 (evaluation_error_propagated_iff_unexpected
                     (H:=Script.engine Script.fixtures) Script.forwards
                     ["data_a = data.a"]
                     (Script.case "wanted" ["package a partial_error"]
                        None (Some "an error"))
                     ["partial_error"] ["data_a = data.a"] () None
                     [{[ "data_a" := JArray [JObject ∅; JNull] ]}]
                     "eval_builtin_error" _ _)) _)) _).
    + repeat split; vm_compute; reflexivity.
    + vm_compute. reflexivity.
    + by left.
    + vm_compute. reflexivity.
Defined.

Lemma fatal_errors_abort_and_counted_errors_continue_witness :
  MapRange_ok Script.forwards
  ∧ (∃ v, @Final.generate (Script.engine Script.fixtures) Script.os
            Script.forwards "testdata" "out"
            (Script.tree "testdata/grp/a.yaml" "not a fixture") = Panic v)
  ∧ (∃ v, @Final.generate (Script.engine Script.fixtures) Script.os
            Script.forwards "testdata" "out"
            (Script.tree "testdata/grp/a.yaml" "bad module") = Panic v)
  ∧ (∃ v, @Final.main (Script.engine Script.fixtures) Script.os
            Script.forwards ["generator"]
            (Script.tree "testdata/grp/a.yaml" "allow") = Panic v)
  ∧ @Final.generate_tests (Script.engine Script.fixtures) Script.os
      Script.forwards "out"
      [stamp "testdata/grp/a.yaml"
         [Script.case "allow" ["package example.allow p"] None None]]
      Script.start
      (Script.tree_with_file "testdata/grp/a.yaml" "allow" "out/grp")
    = Panic "not a directory"
  ∧ (∃ line,
        @Final.generate_case (Script.engine Script.fixtures) Script.forwards
          (Script.case "undefined" ["package a undefined_ref"] None None)
          Script.start
        = Ret (set_EntryPoints ["a"]
                 (Script.case "undefined" ["package a undefined_ref"]
                    None None),
               fail line Script.start))
  ∧ (∃ line,
        @Final.generate_tests (Script.engine Script.fixtures) Script.os
          Script.forwards "out" [stamp "testdata/grp/a.yaml" [Script.nan_case]]
          Script.start (Script.tree "testdata/grp/a.yaml" "nan")
        = Ret (fail line (succeed Script.start),
               Script.tree "testdata/grp/a.yaml" "nan"))
  ∧ (∃ line fs,
        @Final.generate_tests (Script.engine Script.fixtures) Script.os
          Script.forwards "out"
          [stamp "testdata/grp/a.yaml"
             [Script.case "allow" ["package example.allow p"] None None]]
          Script.start
          (Script.tree_with_dir "testdata/grp/a.yaml" "allow" "out/grp/a.json")
        = Ret (fail line (succeed Script.start), fs)).
Proof.
  split; [exact forwards_ok|].
  destruct (fatal_errors_abort_and_counted_errors_continue
              (H:=Script.engine Script.fixtures) (H0:=Script.os)
              Script.forwards forwards_ok)
    as (Hfixture & Hmodule & Husage & Hmkdir & Hcase & Hmarshal & Hwrite).
  split; [|split; [|split; [|split; [|split; [|split]]]]].
  - apply (Hfixture "testdata" "out" _
             {| walk_path := "testdata/grp/a.yaml"; walk_IsDir := false;
                walk_err := None |}
             (Script.of_string "not a fixture") "yaml: unmarshal errors");
      try reflexivity.
    vm_compute. apply list_elem_of_further, list_elem_of_here.
  - apply (Hmodule "testdata" "out" _
             [stamp "testdata/grp/a.yaml"
                [Script.case "bad" ["not a module"] None None]]
             []
             (stamp "testdata/grp/a.yaml"
                [Script.case "bad" ["not a module"] None None])
             (set_Filename "testdata/grp/a.yaml"
                (Script.case "bad" ["not a module"] None None))
             0 "not a module"
             "mod_0: rego_parse_error: package expected");
      try reflexivity; apply list_elem_of_here.
  - apply Husage; simpl; lia.
  - eapply (Hmkdir "out" _ [] Script.start _ _ _ _ "out/grp" "a.json");
      vm_compute; reflexivity.
  - destruct (Hcase (Script.case "undefined" ["package a undefined_ref"]
                       None None)
                    Script.start _ _ _ _ [] eq_refl ltac:(done) eq_refl
                    (or_introl (ex_intro _ _ (ex_intro _ _ eq_refl))))
      as (line & Hg & _).
    by exists line.
  - destruct (Hmarshal "out" (stamp "testdata/grp/a.yaml" [Script.nan_case])
                [] Script.start (Script.tree "testdata/grp/a.yaml" "nan")
                _ _ "json: unsupported value: NaN" eq_refl eq_refl)
      as (line & Hg).
    exists line. rewrite Hg. reflexivity.
  - destruct (Hwrite "out"
                (stamp "testdata/grp/a.yaml"
                   [Script.case "allow" ["package example.allow p"] None None])
                [] Script.start
                (Script.tree_with_dir "testdata/grp/a.yaml" "allow"
                   "out/grp/a.json")
                _ _ _ "out/grp" "a.json" _ "is a directory" _
                eq_refl eq_refl eq_refl eq_refl eq_refl)
      as (line & Hg).
    eexists line, _. rewrite Hg. reflexivity.
Defined.

Lemma evaluation_store_is_base_data_witness :
  eval_store
    {| Filename := ""; Note := "data"; Modules := ["package a p"];
       Data := Some {[ "a" := JBool true ]}; Input := None; InputTerm := None;
       WantErrorCode := None; WantError := None; StrictError := false;
       EntryPoints := []; Plan := JNull; WantPlanResult := JNull |}
  = inmem_NewFromObject {[ "a" := JBool true ]}
  ∧ eval_store (Script.case "no data" ["package a p"] None None) = inmem_New.
Proof.
  split.
  - exact (proj1 (proj2 (evaluation_store_is_base_data
                           (H:=Script.engine Script.fixtures) Script.forwards
                           {| Filename := ""; Note := "data";
                              Modules := ["package a p"];
                              Data := Some {[ "a" := JBool true ]};
                              Input := None; InputTerm := None;
                              WantErrorCode := None; WantError := None;
                              StrictError := false; EntryPoints := [];
                              Plan := JNull; WantPlanResult := JNull |}))
             {[ "a" := JBool true ]} eq_refl).
  - exact (proj1 (proj2 (proj2 (evaluation_store_is_base_data
                                  (H:=Script.engine Script.fixtures)
                                  Script.forwards
                                  (Script.case "no data" ["package a p"]
                                     None None)))) eq_refl).
Defined.


Lemma file_without_cases_panics_witness :
  @json_MarshalIndent (Script.engine Script.fixtures)
    {| filename := ""; Cases := [] |} = inr []
  ∧ @Final.generate_test (Script.engine Script.fixtures) Script.os
      Script.forwards "out" (stamp "testdata/grp/empty.yaml" []) Script.start
      (Script.tree "testdata/grp/empty.yaml" "no cases")
    = Panic "runtime error: index out of range"
  ∧ @Final.generate (Script.engine Script.fixtures) Script.os
      Script.forwards "testdata" "out"
      (Script.tree "testdata/grp/empty.yaml" "no cases")
    = Panic "runtime error: index out of range".
Proof.
  split; [reflexivity|]. split; [|vm_compute; reflexivity].
  exact (proj1 (proj2 (file_without_cases_panics
                         (H:=Script.engine Script.fixtures) (H0:=Script.os)
                         Script.forwards "out" "testdata/grp/empty.yaml"
                         Script.start _ [] eq_refl))).
Defined.


Lemma emit_mirrors_last_two_segments_witness :
  @emit (Script.engine Script.fixtures) Script.os "out"
    (stamp "testdata/grp/a.yaml"
       [Script.case "allow" ["package example.allow p"] None None])
    Script.start (Script.tree "testdata/grp/a.yaml" "allow")
  = match Script.MkdirAll "out/grp"
            (Script.tree "testdata/grp/a.yaml" "allow") with
    | (Some err, _) => Panic err
    | (None, fs1) =>
        match Script.WriteFile "out/grp/a.json"
                (Script.of_string
                   "allow entrypoints= plan=null want_plan_result=null;")
                fs1 with
        | (Some err, fs2) =>
            Ret (fail ("Failed to write tc: " +:+ err +:+ newline)
                   Script.start, fs2)
        | (None, fs2) => Ret (Script.start, fs2)
        end
    end.
Proof.
  exact (emit_mirrors_last_two_segments
           (H:=Script.engine Script.fixtures) (H0:=Script.os) "out"
           (stamp "testdata/grp/a.yaml"
              [Script.case "allow" ["package example.allow p"] None None])
           Script.start (Script.tree "testdata/grp/a.yaml" "allow")
           ["testdata"] "grp" "a.yaml" _ eq_refl eq_refl).
Defined.

Lemma Script_create_if_missing :
  @create_if_missing Script.os (λ path fs, path ∈ Script.dirs fs).
Proof.
  split; [|split].
  - intros path fs fs'. simpl. unfold Script.MkdirAll.
    repeat case_bool_decide; intros [= <-]; [done|]. simpl. set_solver.
  - intros path fs Hdir. simpl. unfold Script.MkdirAll.
    rewrite bool_decide_eq_true_2 by done. by eexists.
  - intros path file data fs err fs' Hdir. simpl. unfold Script.WriteFile.
    case_bool_decide; by intros [= _ <-].
Qed.

Lemma emit_again_does_not_panic_witness :
  ∃ st' fs',
    @emit (Script.engine Script.fixtures) Script.os "out"
      (stamp "testdata/grp/a.yaml"
         [Script.case "allow" ["package example.allow p"] None None])
      Script.start (Script.tree "testdata/grp/a.yaml" "allow")
    = Ret (st', fs')
    ∧ ∃ r,
        @emit (Script.engine Script.fixtures) Script.os "out"
          (stamp "testdata/grp/a.yaml"
             [Script.case "allow" ["package example.allow p"] None None])
          Script.start fs'
        = Ret r.
Proof.
  eexists _, _. split; [vm_compute; reflexivity|].
  exact (emit_again_does_not_panic
           (H:=Script.engine Script.fixtures) (H0:=Script.os)
           (λ path fs, path ∈ Script.dirs fs) "out"
           (stamp "testdata/grp/a.yaml"
              [Script.case "allow" ["package example.allow p"] None None])
           Script.start (Script.tree "testdata/grp/a.yaml" "allow")
           _ _ _ Script_create_if_missing eq_refl eq_refl _ Script.start
           eq_refl).
Defined.

(** * Further properties *)

(** ** Loading the tests *)

Section Loading.
Context `{!Engine} `{!OS}.

Implicit Types (fs : FileSystem) (entry : WalkEntry) (t : Test).

Lemma Final_walk_inr fs entries result out tests out' :
  Final.walk fs entries result out = inr (tests, out') →
  ∃ new,
    tests = result ++ new
    ∧ Forall2 (loads fs) (filter (λ e, walk_IsDir e = false) entries) new
    ∧ out' = out ++ ((λ _, "break" +:+ newline) <$> filter break_line entries).
Proof.
  revert result out. induction entries as [|entry entries IH];
    intros result out; simpl.
  { intros [= <- <-]. exists []. by rewrite !app_nil_r. }
  destruct (walk_err entry) as [err|] eqn:He; [done|].
  destruct (walk_IsDir entry) eqn:Hd.
  { intros (new & -> & Hnew & ->)%IH. exists new. rewrite !filter_cons.
    rewrite decide_False by (by rewrite Hd).
    rewrite decide_False by (unfold break_line; rewrite Hd; by intros [? _]).
    done. }
  destruct (ioutil_ReadFile (walk_path entry) fs) as [err|bs] eqn:Hr; [done|].
  destruct (util_Unmarshal bs) as [err|cases] eqn:Hu; [done|].
  intros (new & -> & Hnew & ->)%IH. exists (stamp (walk_path entry) cases :: new).
  rewrite !filter_cons. rewrite decide_True by done.
  split; [by rewrite <- app_assoc|]. split.
  { constructor; [|done]. by exists bs, cases. }
  destruct (strings_HasSuffix _ _) eqn:Hs.
  - rewrite decide_True by done. by rewrite fmap_cons, <- app_assoc.
  - rewrite decide_False by (unfold break_line; rewrite Hs; by intros [_ ?]).
    done.
Qed.

Lemma Final_walk_inr_no_error fs entries result out r :
  Final.walk fs entries result out = inr r →
  Forall (λ e, entry_error fs e = None) entries.
Proof.
  revert result out. induction entries as [|entry entries IH];
    intros result out; simpl; [constructor|].
  destruct (walk_err entry) as [err|] eqn:He; [done|].
  destruct (walk_IsDir entry) eqn:Hd.
  { intros Hw%IH. constructor; [|done]. unfold entry_error.
    by rewrite He, Hd. }
  destruct (ioutil_ReadFile (walk_path entry) fs) as [err|bs] eqn:Hr; [done|].
  destruct (util_Unmarshal bs) as [err|cases] eqn:Hu; [done|].
  intros Hw%IH. constructor; [|done]. unfold entry_error.
  by rewrite He, Hd, Hr, Hu.
Qed.

Lemma Final_walk_no_error fs entries result out :
  Forall (λ e, entry_error fs e = None) entries →
  ∃ r, Final.walk fs entries result out = inr r.
Proof.
  intros Hall. revert result out.
  induction Hall as [|entry entries Hentry _ IH]; intros result out; simpl.
  { by eexists. }
  unfold entry_error in Hentry.
  destruct (walk_err entry) as [err|]; [done|].
  destruct (walk_IsDir entry); [apply IH|].
  destruct (ioutil_ReadFile (walk_path entry) fs) as [err|bs]; [done|].
  destruct (util_Unmarshal bs) as [err|cases]; [done|]. apply IH.
Qed.

Lemma Final_walk_first_error fs good bad rest msg result out :
  Forall (λ e, entry_error fs e = None) good →
  entry_error fs bad = Some msg →
  ∃ e, Final.walk fs (good ++ bad :: rest) result out = inl e ∧ Error e = msg.
Proof.
  intros Hall Hbad. revert result out.
  induction Hall as [|entry entries Hentry _ IH]; intros result out; simpl.
  - unfold entry_error in Hbad.
    destruct (walk_err bad) as [err|].
    { injection Hbad as <-. by eexists. }
    destruct (walk_IsDir bad); [done|].
    destruct (ioutil_ReadFile (walk_path bad) fs) as [err|bs].
    { injection Hbad as <-. by eexists. }
    destruct (util_Unmarshal bs) as [err|cases]; [|done].
    injection Hbad as <-. by eexists.
  - unfold entry_error in Hentry.
    destruct (walk_err entry) as [err|]; [done|].
    destruct (walk_IsDir entry); [apply IH|].
    destruct (ioutil_ReadFile (walk_path entry) fs) as [err|bs]; [done|].
    destruct (util_Unmarshal bs) as [err|cases]; [done|]. apply IH.
Qed.

Lemma Middle_walk_Final fs entries result out :
  Middle.walk fs entries result
  = match Final.walk fs entries result out with
    | inl e => inl e
    | inr r => inr r.1
    end.
Proof.
  revert result out. induction entries as [|entry entries IH];
    intros result out; simpl; [done|].
  destruct (walk_err entry) as [err|]; [done|].
  destruct (walk_IsDir entry); [apply IH|].
  destruct (ioutil_ReadFile (walk_path entry) fs) as [err|bs]; [done|].
  destruct (util_Unmarshal bs) as [err|cases]; [done|]. apply IH.
Qed.

Lemma stamp_Filename path cases :
  Forall (λ tc, Filename tc = filename (stamp path cases))
    (Cases (stamp path cases)).
Proof.
  destruct cases as [|tc cases]; [constructor|]. simpl.
  constructor; [done|]. apply Forall_fmap, Forall_true. done.
Qed.

(** X3. When [loadTests] returns, it returns one test for every entry of
    the walk that is not a directory, in the order of the walk: the file's
    cases as [util.Unmarshal] decodes them, each stamped with the path of
    its file.  In every test, each case's [Filename] is the test's
    [filename].  What the final revision prints while loading is one
    [break] line for each file whose path ends in
    [test-functions-1006.yaml]. *)
Theorem loaded_tests_follow_the_walk dirpath fs tests out :
  Final.loadTests dirpath fs = Ret (tests, out) →
  Forall2 (loads fs)
    (filter (λ e, walk_IsDir e = false) (filepath_Walk dirpath fs)) tests
  ∧ Forall (λ t, Forall (λ tc, Filename tc = filename t) (Cases t)) tests
  ∧ out = (λ _, "break" +:+ newline)
            <$> filter break_line (filepath_Walk dirpath fs).
Proof.
  unfold Final.loadTests.
  destruct (Final.walk fs (filepath_Walk dirpath fs) [] []) as [e|r] eqn:Hw;
    [done|].
  intros [= ->]. apply Final_walk_inr in Hw as (new & -> & Hnew & ->).
  simpl. split; [done|]. split; [|done].
  clear -Hnew. induction Hnew as [|entry t entries ts Ht _ IH]; [constructor|].
  constructor; [|done]. destruct Ht as (bs & cases & _ & _ & ->).
  apply stamp_Filename.
Qed.


(** X5. The two revisions load the same tests from the same tree, or
    panic with the same text: the line the final revision prints for one
    file name is all that differs. *)
Theorem revisions_load_the_same_tests dirpath fs :
  Middle.loadTests dirpath fs = fst <$> Final.loadTests dirpath fs.
Proof.
  unfold Middle.loadTests, Final.loadTests.
  rewrite (Middle_walk_Final _ _ _ []).
  by destruct (Final.walk fs (filepath_Walk dirpath fs) [] []) as [e|[??]].
Qed.
End Loading.

Lemma loaded_tests_follow_the_walk_witness :
  ∃ tests out,
    @Final.loadTests (Script.engine Script.fixtures) Script.os "testdata"
      (Script.tree "testdata/grp/a.yaml" "allow") = Ret (tests, out)
    ∧ Forall2 (@loads (Script.engine Script.fixtures) Script.os
                 (Script.tree "testdata/grp/a.yaml" "allow"))
        (filter (λ e, walk_IsDir e = false)
           (Script.Walk "testdata" (Script.tree "testdata/grp/a.yaml" "allow")))
        tests
    ∧ Forall (λ t, Forall (λ tc, Filename tc = filename t) (Cases t)) tests
    ∧ out = (λ _, "break" +:+ newline)
              <$> filter break_line
                    (Script.Walk "testdata"
                       (Script.tree "testdata/grp/a.yaml" "allow")).
Proof.
  eexists _, _. split; [vm_compute; reflexivity|].
  exact (loaded_tests_follow_the_walk
           (H:=Script.engine Script.fixtures) (H0:=Script.os) "testdata"
           (Script.tree "testdata/grp/a.yaml" "allow") _ _ eq_refl).
Defined.


(** ** The module files *)

Section ModuleOrder.
Context `{!Engine} (range : MapRange).

Implicit Types (tc : ExtendedTestCase) (src : gmap string string).

(** What [getModuleFiles] appends for the key [k]. *)
Lemma parse_modules_Ret src includeRaw keys acc mods :
  parse_modules src includeRaw keys acc = Ret mods →
  ∃ new,
    mods = acc ++ new
    ∧ Forall2 (λ k m,
        Path m = k ∧ URL m = k
        ∧ ast_ParseModule k (default "" (src !! k)) = inr (Parsed m)
        ∧ Raw m = if includeRaw
                  then String.list_byte_of_string (default "" (src !! k))
                  else []) keys new.
Proof.
  revert acc. induction keys as [|k keys IH]; intros acc; simpl.
  { intros [= <-]. exists []. by rewrite app_nil_r. }
  destruct (ast_ParseModule k (default "" (src !! k))) as [err|m] eqn:Hp;
    [done|].
  intros (new & -> & Hnew)%IH. eexists (_ :: new).
  split; [by rewrite <- app_assoc|]. by constructor.
Qed.

Lemma parse_modules_Panic src includeRaw keys acc v :
  parse_modules src includeRaw keys acc = Panic v →
  ∃ k, k ∈ keys ∧ ast_ParseModule k (default "" (src !! k)) = inl v.
Proof.
  revert acc. induction keys as [|k keys IH]; intros acc; simpl; [done|].
  destruct (ast_ParseModule k (default "" (src !! k))) as [err|m] eqn:Hp.
  - intros [= <-]. exists k. split; [apply list_elem_of_here|done].
  - intros (k' & Hin & Hk')%IH. exists k'.
    split; [by apply list_elem_of_further|done].
Qed.

Lemma Forall2_Path_fmap {R} (P : string → ModuleFile R → Prop) keys mods :
  Forall2 (λ k m, Path m = k ∧ P k m) keys mods → Path <$> mods = keys.
Proof.
  induction 1 as [|k m keys mods [Hk _] _ IH]; [done|].
  by rewrite fmap_cons, Hk, IH.
Qed.

Lemma getModuleFiles_Ret src includeRaw mods :
  MapRange_ok range →
  getModuleFiles range src includeRaw = Ret mods →
  Path <$> mods = sort_Strings (map_to_list src).*1
  ∧ Forall (λ m,
      URL m = Path m
      ∧ ∃ text, src !! Path m = Some text
                ∧ ast_ParseModule (Path m) text = inr (Parsed m)
                ∧ Raw m = if includeRaw then String.list_byte_of_string text
                          else []) mods.
Proof.
  intros Hok. unfold getModuleFiles.
  intros (new & -> & Hnew)%parse_modules_Ret. simpl.
  split.
  { rewrite (Forall2_Path_fmap _ _ _ Hnew).
    apply sort_Strings_Permutation. by rewrite (Hok _ src). }
  apply Forall_forall. intros m Hm.
  apply list_elem_of_lookup in Hm as [i Hi].
  destruct (Forall2_lookup_r _ _ _ _ _ Hnew Hi) as (k & Hk & <- & -> & Hp & Hr).
  split; [done|].
  assert (is_Some (src !! Path m)) as [text Htext].
  { apply (sorted_keys_elem_of range src (Path m) Hok).
    by eapply list_elem_of_lookup_2. }
  rewrite Htext in Hp, Hr. by exists text.
Qed.

(** X6. When [getModuleFiles] returns, the module files are in ascending
    order of their paths, as [sort.Strings] orders them; there is exactly
    one for each key of the map; each has the key as its path and as its
    URL and the parse of the key's text as its module; and the raw text is
    attached only when [includeRaw] is set.  The order in which the map
    gives its keys plays no part. *)
Theorem module_files_are_sorted_by_path src includeRaw mods :
  MapRange_ok range →
  getModuleFiles range src includeRaw = Ret mods →
  StronglySorted String.le (Path <$> mods)
  ∧ NoDup (Path <$> mods)
  ∧ length mods = size src
  ∧ (∀ k, k ∈ Path <$> mods ↔ is_Some (src !! k))
  ∧ Forall (λ m,
      URL m = Path m
      ∧ ∃ text, src !! Path m = Some text
                ∧ ast_ParseModule (Path m) text = inr (Parsed m)
                ∧ Raw m = if includeRaw then String.list_byte_of_string text
                          else []) mods.
Proof.
  intros Hok Hg. destruct (getModuleFiles_Ret _ _ _ Hok Hg) as [Hpaths Hall].
  assert (Path <$> mods ≡ₚ (map_to_list src).*1) as Hperm.
  { rewrite Hpaths. apply merge_sort_Permutation. }
  split; [|split; [|split; [|split]]]; [| | | |done].
  - rewrite Hpaths. apply StronglySorted_merge_sort; apply _.
  - rewrite Hperm. apply NoDup_fst_map_to_list.
  - rewrite <- (length_fmap Path), Hperm, length_fmap.
    apply length_map_to_list.
  - intros k. rewrite Hperm, list_elem_of_fmap. split.
    + intros ([k' v] & -> & Hin). apply elem_of_map_to_list in Hin.
      by eexists.
    + intros [v Hv]. exists (k, v). split; [done|].
      by apply elem_of_map_to_list.
Qed.

(** X7. [getModuleFiles] returns if and only if every text of the map
    parses under its key; otherwise it panics, and the value of the panic
    is the parser's error for one of the map's entries. *)
Theorem getModuleFiles_returns_iff_every_module_parses src includeRaw :
  MapRange_ok range →
  ((∃ mods, getModuleFiles range src includeRaw = Ret mods)
   ↔ ∀ k text, src !! k = Some text → ∃ m, ast_ParseModule k text = inr m)
  ∧ ∀ v, getModuleFiles range src includeRaw = Panic v →
         ∃ k text, src !! k = Some text ∧ ast_ParseModule k text = inl v.
Proof.
  intros Hok.
  assert (∀ v, getModuleFiles range src includeRaw = Panic v →
               ∃ k text, src !! k = Some text
                         ∧ ast_ParseModule k text = inl v) as Hpanic.
  { intros v (k & Hin & Hp)%parse_modules_Panic.
    apply (sorted_keys_elem_of range src k Hok) in Hin as [text Htext].
    rewrite Htext in Hp. by exists k, text. }
  split; [|exact Hpanic]. split.
  - intros [mods Hg] k text Hk.
    destruct (ast_ParseModule k text) as [err|m] eqn:Hp; [|by eexists].
    destruct (parse_modules_panic src includeRaw
                (sort_Strings (range _ src).*1) [] k err) as [v Hv].
    + apply sorted_keys_elem_of; [done|]. by eexists.
    + by rewrite Hk.
    + unfold getModuleFiles in Hg. congruence.
  - intros Hall.
    destruct (getModuleFiles range src includeRaw) as [mods|v] eqn:Hg;
      [by eexists|].
    destruct (Hpanic v eq_refl) as (k & text & Hk & Hp).
    destruct (Hall k text Hk) as [m Hm]. congruence.
Qed.
End ModuleOrder.

(** ** The module files of a case *)

Section ModuleNames.
Context `{!Engine} (range : MapRange).

Implicit Types (tc : ExtendedTestCase).

Lemma modules_from_is_Some (name : nat → string) `{!Inj (=) (=) name} xs k :
  is_Some (modules_from name 0 xs ∅ !! k) ↔ k ∈ name <$> seq 0 (length xs).
Proof.
  split.
  - intros Hk.
    destruct (decide (k ∈ name <$> seq 0 (length xs))) as [|Hn]; [done|].
    rewrite modules_from_lookup_ne in Hk.
    { rewrite lookup_empty in Hk. by destruct Hk. }
    intros j Hj ->. apply Hn. apply list_elem_of_fmap. exists j.
    split; [done|]. apply elem_of_seq. lia.
  - intros (j & -> & Hj)%list_elem_of_fmap. apply elem_of_seq in Hj.
    destruct (lookup_lt_is_Some_2 xs j) as [x Hx]; [lia|].
    exists x. exact (modules_from_lookup name xs 0 ∅ j x Hx).
Qed.

Lemma modules_from_keys (name : nat → string) `{!Inj (=) (=) name} xs :
  (map_to_list (modules_from name 0 xs ∅)).*1 ≡ₚ name <$> seq 0 (length xs).
Proof.
  apply NoDup_Permutation.
  - apply NoDup_fst_map_to_list.
  - apply NoDup_fmap_2; [done|]. apply NoDup_seq.
  - intros k. rewrite <- modules_from_is_Some by done.
    rewrite list_elem_of_fmap. split.
    + intros ([k' v] & -> & Hin). apply elem_of_map_to_list in Hin.
      by eexists.
    + intros [v Hv]. exists (k, v). split; [done|].
      by apply elem_of_map_to_list.
Qed.

Lemma StronglySorted_lookup {A} (R : relation A) l i j x y :
  StronglySorted R l → i < j → l !! i = Some x → l !! j = Some y → R x y.
Proof.
  intros Hs. revert i j.
  induction Hs as [|a l Hs IH Hall]; intros i j Hij Hi Hj; [done|].
  destruct i as [|i], j as [|j]; try lia; simpl in *.
  - apply (inj Some) in Hi as <-. rewrite Forall_forall in Hall.
    apply Hall. by eapply list_elem_of_lookup_2.
  - apply (IH i j); [lia|done..].
Qed.

Lemma sort_mod_names n :
  n ≤ 10 → sort_Strings (mod_name <$> seq 0 n) = mod_name <$> seq 0 n.
Proof.
  intros Hn. do 11 (destruct n as [|n]; [vm_compute; reflexivity|]). lia.
Qed.

(** The module files of a case, by the index of the module. *)
Lemma module_files_lookup tc mods i text :
  MapRange_ok range →
  module_files range tc = Ret mods →
  Modules tc !! i = Some text →
  ∃ j m, mods !! j = Some m ∧ Path m = mod_name i
         ∧ ast_ParseModule (mod_name i) text = inr (Parsed m)
         ∧ Raw m = [].
Proof.
  intros Hok Hm Hi.
  destruct (getModuleFiles_Ret _ _ _ _ Hok Hm) as [Hpaths Hall].
  pose proof (modules_from_lookup mod_name (Modules tc) 0 ∅ i text Hi) as Hl.
  simpl in Hl.
  assert (mod_name i ∈ Path <$> mods) as Hin.
  { rewrite Hpaths. unfold sort_Strings. rewrite merge_sort_Permutation.
    rewrite modules_from_keys by apply _. apply list_elem_of_fmap.
    exists i. split; [done|]. apply elem_of_seq.
    apply lookup_lt_Some in Hi. lia. }
  apply list_elem_of_fmap in Hin as (m & Hpath & Hin).
  apply list_elem_of_lookup in Hin as [j Hj].
  rewrite Forall_forall in Hall.
  destruct (Hall m (list_elem_of_lookup_2 _ _ _ Hj))
    as (_ & text' & Htext & Hp & Hr).
  rewrite <- Hpath in Htext, Hp. rewrite Hl in Htext.
  injection Htext as <-. by exists j, m.
Qed.

Lemma module_files_paths tc mods :
  MapRange_ok range →
  module_files range tc = Ret mods →
  Path <$> mods = sort_Strings (mod_name <$> seq 0 (length (Modules tc))).
Proof.
  intros Hok Hm.
  destruct (getModuleFiles_Ret _ _ _ _ Hok Hm) as [-> _].
  apply sort_Strings_Permutation, modules_from_keys. apply _.
Qed.

(** X8. A case of at most ten modules gets its module files in the order
    of its modules: the i-th module file has the path [mod_i] and holds
    the parse of the i-th module, without raw text. *)
Theorem module_files_follow_the_modules_up_to_ten tc mods :
  MapRange_ok range →
  length (Modules tc) ≤ 10 →
  module_files range tc = Ret mods →
  Path <$> mods = mod_name <$> seq 0 (length (Modules tc))
  ∧ Forall2 (λ text m,
      ast_ParseModule (Path m) text = inr (Parsed m) ∧ Raw m = [])
      (Modules tc) mods.
Proof.
  intros Hok Hn Hm.
  pose proof (module_files_paths _ _ Hok Hm) as Hpaths.
  rewrite sort_mod_names in Hpaths by done.
  split; [done|].
  assert (length mods = length (Modules tc)) as Hlen.
  { by rewrite <- (length_fmap Path), Hpaths, length_fmap, length_seq. }
  apply Forall2_same_length_lookup. split; [done|].
  intros i text m Hi Hmi.
  destruct (module_files_lookup _ _ _ _ Hok Hm Hi)
    as (j & m' & Hj & Hpath & Hp & Hr).
  assert (Path m = mod_name i) as Hpm.
  { assert ((Path <$> mods) !! i = Some (Path m)) as Hl
      by by rewrite list_lookup_fmap, Hmi.
    rewrite Hpaths, list_lookup_fmap in Hl.
    rewrite lookup_seq_lt in Hl by (apply lookup_lt_Some in Hi; lia).
    simpl in Hl. by injection Hl as <-. }
  assert (i = j) as <-.
  { assert ((Path <$> mods) !! j = Some (mod_name i)) as Hl
      by by rewrite list_lookup_fmap, Hj, <- Hpath.
    rewrite Hpaths, list_lookup_fmap in Hl.
    rewrite lookup_seq_lt in Hl
      by (apply lookup_lt_Some in Hj; lia).
    apply (inj Some) in Hl. change (mod_name j = mod_name i) in Hl.
    by apply (inj mod_name) in Hl. }
  rewrite Hmi in Hj. injection Hj as <-. by rewrite Hpm.
Qed.

(** X9. From eleven modules on the order is another: the paths are
    compared as strings, [mod_10] sorts before [mod_2], and so the file of
    the eleventh module comes before the file of the third. *)
Theorem eleventh_module_comes_before_the_third tc mods :
  MapRange_ok range →
  11 ≤ length (Modules tc) →
  module_files range tc = Ret mods →
  ∃ i j m10 m2 text10 text2,
    i < j
    ∧ mods !! i = Some m10 ∧ mods !! j = Some m2
    ∧ Modules tc !! 10 = Some text10 ∧ Modules tc !! 2 = Some text2
    ∧ Path m10 = "mod_10" ∧ Path m2 = "mod_2"
    ∧ ast_ParseModule "mod_10" text10 = inr (Parsed m10)
    ∧ ast_ParseModule "mod_2" text2 = inr (Parsed m2).
Proof.
  intros Hok Hn Hm.
  destruct (lookup_lt_is_Some_2 (Modules tc) 10) as [text10 H10]; [lia|].
  destruct (lookup_lt_is_Some_2 (Modules tc) 2) as [text2 H2]; [lia|].
  destruct (module_files_lookup _ _ _ _ Hok Hm H10)
    as (i & m10 & Hi & Hp10 & Hparse10 & _).
  destruct (module_files_lookup _ _ _ _ Hok Hm H2)
    as (j & m2 & Hj & Hp2 & Hparse2 & _).
  exists i, j, m10, m2, text10, text2.
  repeat split; try done.
  assert (StronglySorted String.le (Path <$> mods)) as Hsorted.
  { rewrite (module_files_paths _ _ Hok Hm).
    apply StronglySorted_merge_sort; apply _. }
  destruct (Nat.lt_trichotomy i j) as [Hlt|[->|Hgt]]; [done| |].
  - assert (Some m10 = Some m2) as Heq by congruence.
    apply (inj Some) in Heq. subst m2. rewrite Hp10 in Hp2. discriminate.
  - exfalso.
    assert ((Path <$> mods) !! j = Some "mod_2") as Hlj.
    { rewrite list_lookup_fmap, Hj. simpl. rewrite Hp2. reflexivity. }
    assert ((Path <$> mods) !! i = Some "mod_10") as Hli.
    { rewrite list_lookup_fmap, Hi. simpl. rewrite Hp10. reflexivity. }
    pose proof (StronglySorted_lookup _ _ _ _ _ _ Hsorted Hgt Hlj Hli) as Hle.
    by vm_compute in Hle.
Qed.
End ModuleNames.

Lemma module_files_are_sorted_by_path_witness :
  ∃ mods,
    @getModuleFiles (Script.engine Script.fixtures) Script.forwards
      {[ "b.rego" := "package b q"; "a.rego" := "package a p" ]} true
    = Ret mods
    ∧ StronglySorted String.le (Path <$> mods)
    ∧ NoDup (Path <$> mods)
    ∧ length mods
      = size ({[ "b.rego" := "package b q"; "a.rego" := "package a p" ]}
              : gmap string string)
    ∧ (∀ k, k ∈ Path <$> mods
            ↔ is_Some (({[ "b.rego" := "package b q";
                           "a.rego" := "package a p" ]}
                        : gmap string string) !! k))
    ∧ Forall (λ m,
        URL m = Path m
        ∧ ∃ text,
            ({[ "b.rego" := "package b q"; "a.rego" := "package a p" ]}
             : gmap string string) !! Path m = Some text
            ∧ Script.ParseModule (Path m) text = inr (Parsed m)
            ∧ Raw m = String.list_byte_of_string text) mods.
Proof.
  eexists. split; [vm_compute; reflexivity|].
  exact (module_files_are_sorted_by_path
           (H:=Script.engine Script.fixtures) Script.forwards
           {[ "b.rego" := "package b q"; "a.rego" := "package a p" ]} true _
           forwards_ok eq_refl).
Defined.

Lemma getModuleFiles_returns_iff_every_module_parses_witness :
  ((∃ mods,
       @getModuleFiles (Script.engine Script.fixtures) Script.forwards
         {[ "b.rego" := "not a module"; "a.rego" := "package a p" ]} false
       = Ret mods)
   ↔ ∀ k text,
       ({[ "b.rego" := "not a module"; "a.rego" := "package a p" ]}
        : gmap string string) !! k = Some text →
       ∃ m, Script.ParseModule k text = inr m)
  ∧ ∀ v,
      @getModuleFiles (Script.engine Script.fixtures) Script.forwards
        {[ "b.rego" := "not a module"; "a.rego" := "package a p" ]} false
      = Panic v →
      ∃ k text,
        ({[ "b.rego" := "not a module"; "a.rego" := "package a p" ]}
         : gmap string string) !! k = Some text
        ∧ Script.ParseModule k text = inl v.
Proof.
  exact (getModuleFiles_returns_iff_every_module_parses
           (H:=Script.engine Script.fixtures) Script.forwards
           {[ "b.rego" := "not a module"; "a.rego" := "package a p" ]} false
           forwards_ok).
Defined.

Lemma module_files_follow_the_modules_up_to_ten_witness :
  ∃ mods,
    @module_files (Script.engine Script.fixtures) Script.forwards
      (Script.case "two" ["package b q"; "package a p"] None None)
    = Ret mods
    ∧ Path <$> mods = mod_name <$> seq 0 2
    ∧ Forall2 (λ text m,
        Script.ParseModule (Path m) text = inr (Parsed m) ∧ Raw m = [])
        ["package b q"; "package a p"] mods.
Proof.
  eexists. split; [vm_compute; reflexivity|].
  apply (module_files_follow_the_modules_up_to_ten
           (H:=Script.engine Script.fixtures) Script.forwards
           (Script.case "two" ["package b q"; "package a p"] None None));
    [exact forwards_ok | simpl; lia | reflexivity].
Defined.

Lemma eleventh_module_comes_before_the_third_witness :
  ∃ mods,
    @module_files (Script.engine Script.fixtures) Script.forwards
      (Script.case "eleven" (replicate 11 "package a p") None None)
    = Ret mods
    ∧ ∃ i j m10 m2 text10 text2,
        i < j
        ∧ mods !! i = Some m10 ∧ mods !! j = Some m2
        ∧ replicate 11 "package a p" !! 10 = Some text10
        ∧ replicate 11 "package a p" !! 2 = Some text2
        ∧ Path m10 = "mod_10" ∧ Path m2 = "mod_2"
        ∧ Script.ParseModule "mod_10" text10 = inr (Parsed m10)
        ∧ Script.ParseModule "mod_2" text2 = inr (Parsed m2).
Proof.
  eexists. split; [vm_compute; reflexivity|].
  apply (eleventh_module_comes_before_the_third
           (H:=Script.engine Script.fixtures) Script.forwards
           (Script.case "eleven" (replicate 11 "package a p") None None));
    [exact forwards_ok | simpl; lia | reflexivity].
Defined.

(** ** What [eval] returns *)

Section EvalResults.
Context `{!Engine} (range : MapRange).

Implicit Types (tc : ExtendedTestCase) (st : RunState).

(** The loop over the bindings of one result set: the map of the
    converted terms, or the converter's error. *)
Lemma result_of_omap (qr : gmap string Term) :
  MapRange_ok range →
  match result_of (range _ qr) ∅ with
  | inr m =>
      m = omap term_JSON qr ∧ map_Forall (λ _ t, is_Some (term_JSON t)) qr
  | inl e =>
      (∃ msg, e = LibraryError "ast.JSON" msg)
      ∧ ∃ k t, qr !! k = Some t ∧ term_JSON t = None
  end.
Proof.
  intros Hok.
  assert (NoDup (range _ qr).*1) as Hnd.
  { rewrite (Hok _ qr). apply NoDup_fst_map_to_list. }
  assert ((list_to_map (range _ qr) : gmap string Term) = qr) as Hmap.
  { rewrite <- (list_to_map_to_list qr) at 2.
    apply list_to_map_proper; [done|]. apply Hok. }
  pose proof (result_of_spec (range _ qr) ∅ Hnd) as Hspec.
  destruct (result_of (range _ qr) ∅) as [e|m] eqn:Hr.
  - split; [by eapply result_of_error|].
    apply Exists_exists in Hspec as ([k t] & Hin & Hnone).
    exists k, t. split; [|done].
    rewrite (Hok _ qr) in Hin. by apply elem_of_map_to_list.
  - destruct Hspec as [Hm Hall]. split.
    + apply map_eq. intros k. rewrite Hm, Hmap, lookup_omap.
      destruct (qr !! k); [done|]. by rewrite lookup_empty.
    + intros k t Hk. rewrite Forall_forall in Hall.
      apply (Hall (k, t)). rewrite (Hok _ qr). by apply elem_of_map_to_list.
Qed.

(** X10. When [Run] gives one result set, and its error, if any, is one
    the case expects, [eval] returns one result map that binds exactly the
    variables of the result set, each to the JSON value of its term,
    whatever the order in which the map is iterated; if one of the terms
    cannot be converted, [eval] returns the converter's error and no
    result. *)
Theorem eval_binds_every_variable q tc compiler query txn input qr err :
  MapRange_ok range →
  reaches_Run q tc compiler query txn input →
  topdown_Run query compiler (eval_store tc) txn input (StrictError tc)
  = ([qr], err) →
  err = None ∨ WantError tc ≠ None ∨ WantErrorCode tc ≠ None →
  (map_Forall (λ _ t, is_Some (term_JSON t)) qr
   ∧ eval_query range q tc = Ret (inr [omap term_JSON qr]))
  ∨ ((∃ k t, qr !! k = Some t ∧ term_JSON t = None)
     ∧ ∃ msg, eval_query range q tc = Ret (inl (LibraryError "ast.JSON" msg))).
Proof.
  intros Hok Hreach Hrun Hwant.
  rewrite (eval_query_Run _ _ _ _ _ _ _ Hreach), Hrun.
  assert (eval_results range tc ([qr], err) = resultSet_of range [qr] [])
    as ->.
  { destruct err as [e|]; [|done].
    destruct Hwant as [?|Hwant]; [done|].
    rewrite eval_results_swallowed by tauto. done. }
  simpl. pose proof (result_of_omap qr Hok) as Hspec.
  destruct (result_of (range _ qr) ∅) as [e|m].
  - right. destruct Hspec as [[msg ->] Hex]. split; [done|]. by exists msg.
  - left. destruct Hspec as [-> Hall]. done.
Qed.

Lemma Final_eval_length pkgs tc rs :
  Final.eval range pkgs tc = Ret (inr rs) → length rs ≤ 1.
Proof.
  intros (q & _ & Hq)%Final_eval_Ret.
  apply eval_query_Ret in Hq
    as [(compiler & err & _ & _ & [=])
       |(compiler & query & txn & input & _ & Hr)].
  destruct (topdown_Run _ _ _ _ _ _) as [qrs err].
  symmetry in Hr. apply eval_results_length in Hr. lia.
Qed.

(** X11. [eval] never returns more than one result set: it refuses the
    second.  So when the final revision gives up on the expected result
    of a case, it is with the error [eval] returned or with a result
    count of 0; the line [Unexpected result count] never reports another
    number. *)
Theorem unexpected_result_count_is_zero pkgs tc st st' :
  Final.expected_result range pkgs tc st = Ret (inl st') →
  (∃ err,
      Final.eval range pkgs tc = Ret (inl err)
      ∧ st' = fail ("eval/Skipping " +:+ Note tc +:+ ": " +:+ Error err
                    +:+ newline) st)
  ∨ (Final.eval range pkgs tc = Ret (inr [])
     ∧ st' = fail ("Unexpected result count 0 for " +:+ Note tc
                   +:+ newline) st).
Proof.
  unfold Final.expected_result. case_bool_decide; [|done].
  destruct (Final.eval range pkgs tc) as [[err|rs]|v] eqn:He; simpl; [| |done].
  { intros [= <-]. left. by exists err. }
  apply Final_eval_length in He.
  destruct rs as [|r [|r' rs]]; simpl in *; [| |lia].
  - intros [= <-]. right. done.
  - done.
Qed.
End EvalResults.

Lemma eval_binds_every_variable_witness :
  ∃ qr,
    (map_Forall (λ _ t, is_Some (@term_JSON (Script.engine Script.fixtures) t))
       qr
     ∧ @eval_query (Script.engine Script.fixtures) Script.backwards
         ["example_allow = data.example.allow"]
         (Script.case "allow" ["package example.allow p"] None None)
       = Ret (inr [omap (@term_JSON (Script.engine Script.fixtures)) qr]))
    ∨ ((∃ k t, qr !! k = Some t
               ∧ @term_JSON (Script.engine Script.fixtures) t = None)
       ∧ ∃ msg,
           @eval_query (Script.engine Script.fixtures) Script.backwards
             ["example_allow = data.example.allow"]
             (Script.case "allow" ["package example.allow p"] None None)
           = Ret (inl (LibraryError "ast.JSON" msg))).
Proof.
  eexists.
  eapply (eval_binds_every_variable
            (H:=Script.engine Script.fixtures) Script.backwards
            ["example_allow = data.example.allow"]
            (Script.case "allow" ["package example.allow p"] None None)
            ["p"] ["example_allow = data.example.allow"] () None _ None).
  - exact backwards_ok.
  - repeat split.
  - vm_compute. reflexivity.
  - left. reflexivity.
Defined.

Lemma unexpected_result_count_is_zero_witness :
  ∃ st',
    @Final.expected_result (Script.engine Script.fixtures) Script.forwards
      ["data.a"] (Script.case "no result" ["package a no_result"] None None)
      Script.start
    = Ret (inl st')
    ∧ ((∃ err,
          @Final.eval (Script.engine Script.fixtures) Script.forwards
            ["data.a"]
            (Script.case "no result" ["package a no_result"] None None)
          = Ret (inl err)
          ∧ st' = fail ("eval/Skipping " +:+ "no result" +:+ ": "
                        +:+ Error err +:+ newline) Script.start)
       ∨ (@Final.eval (Script.engine Script.fixtures) Script.forwards
            ["data.a"]
            (Script.case "no result" ["package a no_result"] None None)
          = Ret (inr [])
          ∧ st' = fail ("Unexpected result count 0 for " +:+ "no result"
                        +:+ newline) Script.start)).
Proof.
  eexists. split; [vm_compute; reflexivity|].
  exact (unexpected_result_count_is_zero
           (H:=Script.engine Script.fixtures) Script.forwards ["data.a"]
           (Script.case "no result" ["package a no_result"] None None)
           Script.start _ eq_refl).
Defined.

(** ** What the generator leaves of a case *)

Lemma same_fixture_refl tc : same_fixture tc tc.
Proof. by repeat split. Qed.

Lemma same_fixture_trans tc1 tc2 tc3 :
  same_fixture tc1 tc2 → same_fixture tc2 tc3 → same_fixture tc1 tc3.
Proof.
  unfold same_fixture. intros H12 H23.
  repeat match goal with H : _ ∧ _ |- _ => destruct H end.
  repeat split; congruence.
Qed.

Lemma same_fixture_EntryPoints eps tc : same_fixture tc (set_EntryPoints eps tc).
Proof. by repeat split. Qed.

Lemma same_fixture_Plan plan tc : same_fixture tc (set_Plan plan tc).
Proof. by repeat split. Qed.

Lemma same_fixture_WantPlanResult r tc :
  same_fixture tc (set_WantPlanResult r tc).
Proof. by repeat split. Qed.

Section CaseFrame.
Context `{!Engine} (range : MapRange).

Implicit Types (tc : ExtendedTestCase) (st : RunState).

Lemma Final_expected_frame pkgs tc st tc' :
  Final.expected_result range pkgs tc st = Ret (inr tc') → same_fixture tc tc'.
Proof.
  unfold Final.expected_result. case_bool_decide.
  2:{ intros [= <-]. apply same_fixture_refl. }
  destruct (Final.eval range pkgs tc) as [[err|rs]|v]; simpl; [done| |done].
  destruct rs as [|r [|r' rs]]; simpl; [done| |done].
  intros [= <-]. apply same_fixture_WantPlanResult.
Qed.

Lemma Middle_expected_frame eps tc st tc' :
  Middle.expected_result range eps tc st = Ret (inr tc') → same_fixture tc tc'.
Proof.
  unfold Middle.expected_result. case_bool_decide.
  2:{ intros [= <-]. apply same_fixture_refl. }
  destruct (Middle.eval range eps tc) as [[err|rs]|v]; simpl; [done| |done].
  destruct rs as [|r [|r' rs]]; simpl; [done| |done].
  intros [= <-]. apply same_fixture_WantPlanResult.
Qed.

Lemma Final_case_frame tc st tc' st' :
  Final.generate_case range tc st = Ret (tc', st') → same_fixture tc tc'.
Proof.
  unfold Final.generate_case.
  destruct (module_files range tc) as [modFiles|v]; simpl; [|done].
  case_decide.
  { intros [= <- <-]. apply same_fixture_refl. }
  destruct (Final.entry_points _ _ _ _ _) as [[pkgs eps] st1].
  pose proof (same_fixture_EntryPoints eps tc) as Heps.
  destruct (compiler_Build true eps modFiles) as [[err|] pms].
  { by intros [= <- <-]. }
  case_decide.
  { by intros [= <- <-]. }
  destruct (Final.expected_result range pkgs _ st1) as [[st2|tc2]|v] eqn:He;
    simpl; [|  |done].
  { by intros [= <- <-]. }
  apply Final_expected_frame in He.
  pose proof (same_fixture_trans _ _ _ Heps He) as H2.
  destruct (index pms 0) as [pm|v]; simpl; [|done].
  destruct (json_Unmarshal (plan_Raw pm)) as [err|plan].
  { by intros [= <- <-]. }
  destruct plan; intros [= <- <-]; try done;
    exact (same_fixture_trans _ _ _ H2 (same_fixture_Plan _ _)).
Qed.

Lemma Middle_case_frame tc st tc' st' :
  Middle.generate_case range tc st = Ret (tc', st') → same_fixture tc tc'.
Proof.
  unfold Middle.generate_case.
  destruct (module_files range tc) as [modFiles|v]; simpl; [|done].
  pose proof (same_fixture_EntryPoints (Middle.entry_points modFiles []) tc)
    as Heps.
  destruct (compiler_Build false _ modFiles) as [[err|] pms].
  { by intros [= <- <-]. }
  case_decide.
  { by intros [= <- <-]. }
  destruct (Middle.expected_result range _ _ st) as [[st2|tc2]|v] eqn:He;
    simpl; [|  |done].
  { by intros [= <- <-]. }
  apply Middle_expected_frame in He.
  pose proof (same_fixture_trans _ _ _ Heps He) as H2.
  destruct (index pms 0) as [pm|v]; simpl; [|done].
  destruct (json_Unmarshal (plan_Raw pm)) as [err|plan].
  { by intros [= <- <-]. }
  intros [= <- <-].
  exact (same_fixture_trans _ _ _ H2 (same_fixture_Plan _ _)).
Qed.

(** X12. The loop over the cases of a file returns one case for each
    case it was given, in the same order, failed and skipped cases
    included; and it changes none of the fields the fixture file gave:
    file name, note, modules, data, input, input term, wanted error and
    error code, strictness.  Only the entry points, the plan and the
    wanted plan result are the generator's.  This holds in both
    revisions. *)
Theorem output_keeps_every_case_and_its_fixture cases st cases' st' :
  Final.generate_cases range cases st = Ret (cases', st')
  ∨ Middle.generate_cases range cases st = Ret (cases', st') →
  Forall2 same_fixture cases cases'.
Proof.
  revert st cases' st'. induction cases as [|tc cases IH];
    intros st cases' st' [Hg|Hg]; simpl in Hg.
  - injection Hg as <- <-. constructor.
  - injection Hg as <- <-. constructor.
  - destruct (Final.generate_case range tc st) as [[tc1 st1]|v] eqn:Hc;
      [|done]. simpl in Hg.
    destruct (Final.generate_cases range cases st1) as [[cases1 st2]|v]
      eqn:Hcs; [|done].
    injection Hg as <- <-. constructor.
    + by eapply Final_case_frame.
    + eapply IH. by left.
  - destruct (Middle.generate_case range tc st) as [[tc1 st1]|v] eqn:Hc;
      [|done]. simpl in Hg.
    destruct (Middle.generate_cases range cases st1) as [[cases1 st2]|v]
      eqn:Hcs; [|done].
    injection Hg as <- <-. constructor.
    + by eapply Middle_case_frame.
    + eapply IH. by right.
Qed.

(** X13. In the final revision the plan of a case tells whether it was
    counted: a case counted as a success leaves with a plan that is not
    null, and with a JSON object as its wanted plan result when it wants
    neither an error nor an error code; every other case, failed or
    skipped, leaves with the plan it was loaded with and no success
    counted. *)
Theorem plan_is_set_exactly_for_successes tc st tc' st' :
  Final.generate_case range tc st = Ret (tc', st') →
  (successCount st' = S (successCount st)
   ∧ failureCount st' = failureCount st
   ∧ Plan tc' ≠ JNull
   ∧ (WantError tc = None → WantErrorCode tc = None →
      ∃ result, WantPlanResult tc' = JObject result))
  ∨ (successCount st' = successCount st ∧ Plan tc' = Plan tc).
Proof.
  intros Hg.
  destruct (module_files range tc) as [modFiles|v] eqn:Hm.
  2:{ unfold Final.generate_case in Hg. by rewrite Hm in Hg. }
  destruct (decide (modFiles = [])) as [->|Hne].
  { rewrite Final_case_no_modules in Hg by done. injection Hg as <- <-.
    by right. }
  destruct (Final.entry_points (Note tc) modFiles [] [] st)
    as [[pkgs eps] st1] eqn:He.
  destruct (Final_entry_points_counters _ _ _ _ _ _ _ _ He) as [Hs Hf].
  destruct (Final_case_outcomes _ _ _ _ _ _ _ _ _ Hm Hne He Hg)
    as [(line & -> & Htc)
       |(pm & plan & _ & _ & Hplan & -> & Htc)].
  - right. split; [done|].
    destruct Htc as [->|(_ & _ & result & ->)]; reflexivity.
  - left. simpl. rewrite Hs, Hf. split; [done|]. split; [done|].
    destruct Htc as [(Hw & Hc & result & _ & ->)|(Hw & ->)]; simpl.
    + split; [done|]. intros _ _. by exists result.
    + split; [done|]. intros Hw1 Hw2. by destruct Hw.
Qed.
End CaseFrame.

Lemma output_keeps_every_case_and_its_fixture_witness :
  ∃ cases' st',
    @Final.generate_cases (Script.engine Script.fixtures) Script.forwards
      [Script.case "undefined" ["package a undefined_ref"] None None;
       Script.case "nomod" [] None None;
       Script.case "allow" ["package example.allow p"] None None]
      Script.start
    = Ret (cases', st')
    ∧ Forall2 same_fixture
        [Script.case "undefined" ["package a undefined_ref"] None None;
         Script.case "nomod" [] None None;
         Script.case "allow" ["package example.allow p"] None None]
        cases'.
Proof.
  eexists _, _. split; [vm_compute; reflexivity|].
  exact (output_keeps_every_case_and_its_fixture
           (H:=Script.engine Script.fixtures) Script.forwards
           [Script.case "undefined" ["package a undefined_ref"] None None;
            Script.case "nomod" [] None None;
            Script.case "allow" ["package example.allow p"] None None]
           Script.start _ _ (or_introl eq_refl)).
Defined.

Lemma plan_is_set_exactly_for_successes_witness :
  ∃ tc' st',
    @Final.generate_case (Script.engine Script.fixtures) Script.forwards
      (Script.case "allow" ["package example.allow p"] None None)
      Script.start
    = Ret (tc', st')
    ∧ ((successCount st' = S (successCount Script.start)
        ∧ failureCount st' = failureCount Script.start
        ∧ Plan tc' ≠ JNull
        ∧ (WantError (Script.case "allow" ["package example.allow p"]
                        None None) = None →
           WantErrorCode (Script.case "allow" ["package example.allow p"]
                            None None) = None →
           ∃ result, WantPlanResult tc' = JObject result))
       ∨ (successCount st' = successCount Script.start
          ∧ Plan tc' = Plan (Script.case "allow" ["package example.allow p"]
                               None None))).
Proof.
  eexists _, _. split; [vm_compute; reflexivity|].
  exact (plan_is_set_exactly_for_successes
           (H:=Script.engine Script.fixtures) Script.forwards
           (Script.case "allow" ["package example.allow p"] None None)
           Script.start _ _ eq_refl).
Defined.

(** ** The counters of a whole run *)

Section WholeRun.
Context `{!Engine} `{!OS} (range : MapRange).

Implicit Types (tc : ExtendedTestCase) (t : Test) (st : RunState)
  (fs : FileSystem).

(** Writing a test counts no success and at most one failure. *)
Lemma emit_counters dstPath t st fs st' fs' :
  emit dstPath t st fs = Ret (st', fs') →
  successCount st' = successCount st
  ∧ failureCount st ≤ failureCount st' ≤ S (failureCount st).
Proof.
  unfold emit.
  destruct (json_MarshalIndent t) as [err|tcJson].
  { intros [= <- <-]. simpl. lia. }
  destruct (output_path dstPath t) as [[folderPath name]|v]; simpl; [|done].
  destruct (os_MkdirAll folderPath fs) as [[err|] fs1]; [done|].
  destruct (writeWile folderPath name tcJson fs1) as [[err|] fs2];
    intros [= <- <-]; simpl; lia.
Qed.

Lemma Middle_expected_inl eps tc st st' :
  Middle.expected_result range eps tc st = Ret (inl st') →
  ∃ line, st' = fail line st.
Proof.
  unfold Middle.expected_result. case_bool_decide; [|done].
  destruct (Middle.eval range eps tc) as [[err|rs]|v]; simpl; [| |done].
  { intros [= <-]. by eexists. }
  case_decide.
  { intros [= <-]. by eexists. }
  destruct (index rs 0) as [r|v]; done.
Qed.

(** The middle revision counts every case, as a failure or as a
    success. *)
Lemma Middle_case_counters tc st tc' st' :
  Middle.generate_case range tc st = Ret (tc', st') →
  (successCount st' = successCount st ∧ failureCount st' = S (failureCount st))
  ∨ (successCount st' = S (successCount st)
     ∧ failureCount st' = failureCount st).
Proof.
  unfold Middle.generate_case.
  destruct (module_files range tc) as [modFiles|v]; simpl; [|done].
  destruct (compiler_Build false _ modFiles) as [[err|] pms].
  { intros [= <- <-]. by left. }
  case_decide.
  { intros [= <- <-]. by left. }
  destruct (Middle.expected_result range _ _ st) as [[st2|tc2]|v] eqn:He;
    simpl; [|  |done].
  { apply Middle_expected_inl in He as [line ->]. intros [= <- <-]. by left. }
  destruct (index pms 0) as [pm|v]; simpl; [|done].
  destruct (json_Unmarshal (plan_Raw pm)) as [err|plan];
    intros [= <- <-]; simpl; auto.
Qed.

Lemma Middle_generate_cases_counters cases st cases' st' :
  Middle.generate_cases range cases st = Ret (cases', st') →
  successCount st ≤ successCount st' ∧ failureCount st ≤ failureCount st'
  ∧ successCount st' + failureCount st'
    = successCount st + failureCount st + length cases.
Proof.
  revert st cases' st'. induction cases as [|tc cases IH];
    intros st cases' st'; simpl.
  { intros [= <- <-]. lia. }
  destruct (Middle.generate_case range tc st) as [[tc1 st1]|v] eqn:Hg; [|done].
  simpl.
  destruct (Middle.generate_cases range cases st1) as [[cases1 st2]|v] eqn:Hgs;
    [|done].
  simpl. intros [= <- <-]. apply IH in Hgs.
  apply Middle_case_counters in Hg. lia.
Qed.

Lemma loaded_cases_cons t tests :
  loaded_cases (t :: tests) = length (Cases t) + loaded_cases tests.
Proof. reflexivity. Qed.

Lemma Middle_generate_tests_counters dstPath tests st fs st' fs' :
  Middle.generate_tests range dstPath tests st fs = Ret (st', fs') →
  successCount st ≤ successCount st' ≤ successCount st + loaded_cases tests
  ∧ successCount st + failureCount st + loaded_cases tests
    ≤ successCount st' + failureCount st'
    ≤ successCount st + failureCount st + loaded_cases tests + length tests.
Proof.
  revert st fs. induction tests as [|t tests IH]; intros st fs; simpl.
  { intros [= <- <-]. unfold loaded_cases. simpl. lia. }
  unfold Middle.generate_test.
  destruct (Middle.generate_cases range (Cases t) st) as [[cases st1]|v]
    eqn:Hc; [|done].
  simpl.
  destruct (emit dstPath _ st1 fs) as [[st2 fs2]|v] eqn:He; [|done]. simpl.
  intros Hg%IH. apply Middle_generate_cases_counters in Hc.
  apply emit_counters in He. rewrite loaded_cases_cons. lia.
Qed.

Lemma Final_generate_tests_counters dstPath tests st fs st' fs' :
  Final.generate_tests range dstPath tests st fs = Ret (st', fs') →
  successCount st ≤ successCount st' ≤ successCount st + loaded_cases tests
  ∧ successCount st' + failureCount st'
    ≤ successCount st + failureCount st + loaded_cases tests + length tests.
Proof.
  revert st fs. induction tests as [|t tests IH]; intros st fs; simpl.
  { intros [= <- <-]. unfold loaded_cases. simpl. lia. }
  unfold Final.generate_test.
  destruct (Final.generate_cases range (Cases t) st) as [[cases st1]|v]
    eqn:Hc; [|done].
  simpl.
  destruct (emit dstPath _ st1 fs) as [[st2 fs2]|v] eqn:He; [|done]. simpl.
  intros Hg%IH. apply Final_generate_cases_counters in Hc.
  apply emit_counters in He. rewrite loaded_cases_cons. lia.
Qed.

(** X14. A run of the middle revision that returns has counted every
    loaded case once, as a success or as a failure, and at most one more
    failure for each file: the total it prints lies between the number of
    cases and the number of cases plus the number of files, and the
    successes do not exceed the number of cases.  The last line printed
    is the tally of those counters. *)
Theorem middle_revision_counts_every_case srcPath dstPath fs tests st fs' :
  Middle.loadTests srcPath fs = Ret tests →
  Middle.generate range srcPath dstPath fs = Ret (st, fs') →
  successCount st ≤ loaded_cases tests
  ∧ loaded_cases tests ≤ successCount st + failureCount st
    ≤ loaded_cases tests + length tests
  ∧ last (stdout st) = Some (tally st).
Proof.
  intros Hl. unfold Middle.generate. rewrite Hl. simpl.
  destruct (Middle.generate_tests range dstPath tests _ fs)
    as [[st1 fs1]|v] eqn:Hg; [|done].
  simpl. intros [= <- <-]. apply Middle_generate_tests_counters in Hg.
  simpl in *. split; [lia|]. split; [lia|]. by rewrite last_snoc.
Qed.

(** X15. A run of the final revision that returns has counted at most
    one success or failure for each loaded case and at most one more
    failure for each file; cases it skipped are not counted, so the total
    may fall short of the number of cases.  The last line printed is the
    tally of the counters. *)
Theorem final_revision_counts_at_most_every_case
    srcPath dstPath fs tests out st fs' :
  Final.loadTests srcPath fs = Ret (tests, out) →
  Final.generate range srcPath dstPath fs = Ret (st, fs') →
  successCount st ≤ loaded_cases tests
  ∧ successCount st + failureCount st ≤ loaded_cases tests + length tests
  ∧ last (stdout st) = Some (tally st).
Proof.
  intros Hl. unfold Final.generate. rewrite Hl. simpl.
  destruct (Final.generate_tests range dstPath tests _ fs)
    as [[st1 fs1]|v] eqn:Hg; [|done].
  simpl. intros [= <- <-].
  pose proof (Final_generate_tests_counters _ _ _ _ _ _ Hg) as Hc.
  simpl in *. split; [lia|]. split; [lia|]. by rewrite last_snoc.
Qed.
End WholeRun.

Lemma middle_revision_counts_every_case_witness :
  ∃ tests st fs',
    @Middle.loadTests (Script.engine Script.fixtures) Script.os "testdata"
      (Script.tree "testdata/grp/a.yaml" "failures") = Ret tests
    ∧ @Middle.generate (Script.engine Script.fixtures) Script.os
        Script.forwards "testdata" "out"
        (Script.tree "testdata/grp/a.yaml" "failures") = Ret (st, fs')
    ∧ successCount st ≤ loaded_cases tests
    ∧ loaded_cases tests ≤ successCount st + failureCount st
      ≤ loaded_cases tests + length tests
    ∧ last (stdout st) = Some (tally st).
Proof.
  eexists _, _, _. split; [vm_compute; reflexivity|].
  split; [vm_compute; reflexivity|].
  exact (middle_revision_counts_every_case
           (H:=Script.engine Script.fixtures) (H0:=Script.os)
           Script.forwards "testdata" "out"
           (Script.tree "testdata/grp/a.yaml" "failures") _ _ _
           eq_refl eq_refl).
Defined.

Lemma final_revision_counts_at_most_every_case_witness :
  ∃ tests out st fs',
    @Final.loadTests (Script.engine Script.fixtures) Script.os "testdata"
      (Script.tree "testdata/grp/a.yaml" "failures") = Ret (tests, out)
    ∧ @Final.generate (Script.engine Script.fixtures) Script.os
        Script.forwards "testdata" "out"
        (Script.tree "testdata/grp/a.yaml" "failures") = Ret (st, fs')
    ∧ successCount st ≤ loaded_cases tests
    ∧ successCount st + failureCount st ≤ loaded_cases tests + length tests
    ∧ last (stdout st) = Some (tally st).
Proof.
  eexists _, _, _, _. split; [vm_compute; reflexivity|].
  split; [vm_compute; reflexivity|].
  exact (final_revision_counts_at_most_every_case
           (H:=Script.engine Script.fixtures) (H0:=Script.os)
           Script.forwards "testdata" "out"
           (Script.tree "testdata/grp/a.yaml" "failures") _ _ _ _
           eq_refl eq_refl).
Defined.

(** ** The input of a case, and the calls that end the run *)

Section EvalInput.
Context `{!Engine} (range : MapRange).

Implicit Types (tc : ExtendedTestCase) (st : RunState).

Lemma eval_query_with_Input q tc x :
  InputTerm tc ≠ None →
  eval_query range q (with_Input x tc) = eval_query range q tc.
Proof.
  intros Hi. unfold eval_query, eval_input, eval_store, eval_results. simpl.
  by destruct (InputTerm tc).
Qed.

Lemma Final_expected_with_Input pkgs tc st x :
  InputTerm tc ≠ None →
  Final.expected_result range pkgs (with_Input x tc) st
  = sum_map id (with_Input x) <$> Final.expected_result range pkgs tc st.
Proof.
  intros Hi. unfold Final.expected_result, Final.eval. simpl.
  case_bool_decide; [|done].
  destruct (Final.createQuery pkgs) as [q|v]; simpl; [|done].
  rewrite eval_query_with_Input by done.
  destruct (eval_query range q tc) as [[err|rs]|v]; simpl; [done| |done].
  case_decide; [done|].
  by destruct (index rs 0).
Qed.

(** X16. A case that gives an input term is generated without a look at
    its input: with another input in its place, or none, the generator
    prints the same lines, counts the same and leaves the same entry
    points, plan and wanted plan result. *)
Theorem input_is_not_read_beside_an_input_term tc st x :
  InputTerm tc ≠ None →
  Final.generate_case range (with_Input x tc) st
  = prod_map (with_Input x) id <$> Final.generate_case range tc st.
Proof.
  intros Hi. unfold Final.generate_case.
  change (module_files range (with_Input x tc)) with (module_files range tc).
  destruct (module_files range tc) as [modFiles|v]; simpl; [|done].
  case_decide; [done|].
  destruct (Final.entry_points (Note tc) modFiles [] [] st)
    as [[pkgs eps] st1].
  destruct (compiler_Build true eps modFiles) as [[err|] pms]; [done|].
  case_decide; [done|].
  change (set_EntryPoints eps (with_Input x tc))
    with (with_Input x (set_EntryPoints eps tc)).
  rewrite Final_expected_with_Input by done.
  destruct (Final.expected_result range pkgs (set_EntryPoints eps tc) st1)
    as [[st2|tc2]|v]; simpl; [done| |done].
  destruct (index pms 0) as [pm|v]; simpl; [|done].
  destruct (json_Unmarshal (plan_Raw pm)) as [err|plan]; [done|].
  by destruct plan.
Qed.

Lemma parse_exprs_Panic texts acc v :
  parse_exprs texts acc = Panic v →
  ∃ s, s ∈ texts ∧ ast_MustParseExpr s = None.
Proof.
  revert acc. induction texts as [|s texts IH]; intros acc; simpl; [done|].
  destruct (ast_MustParseExpr s) as [expr|] eqn:Hs.
  - intros (s' & Hin & Hs')%IH. exists s'.
    split; [by apply list_elem_of_further|done].
  - intros _. exists s. split; [apply list_elem_of_here|done].
Qed.

Lemma parse_exprs_None texts acc s :
  s ∈ texts → ast_MustParseExpr s = None →
  ∃ v, parse_exprs texts acc = Panic v.
Proof.
  intros Hin Hs. revert acc.
  induction texts as [|s' texts IH]; intros acc; [by apply elem_of_nil in Hin|].
  simpl. destruct (ast_MustParseExpr s') as [expr|] eqn:Hs'; [|by eexists].
  apply elem_of_cons in Hin as [->|Hin]; [congruence|]. by apply IH.
Qed.

End EvalInput.

Lemma input_is_not_read_beside_an_input_term_witness :
  @Final.generate_case (Script.engine Script.fixtures) Script.forwards
    (with_Input (Some (JNumber "1"))
       {| Filename := "testdata/grp/a.yaml"; Note := "term";
          Modules := ["package example.allow p"]; Data := None;
          Input := None; InputTerm := Some "{}";
          WantErrorCode := None; WantError := None; StrictError := false;
          EntryPoints := []; Plan := JNull; WantPlanResult := JNull |})
    Script.start
  = prod_map (with_Input (Some (JNumber "1"))) id
      <$> @Final.generate_case (Script.engine Script.fixtures)
            Script.forwards
            {| Filename := "testdata/grp/a.yaml"; Note := "term";
               Modules := ["package example.allow p"]; Data := None;
               Input := None; InputTerm := Some "{}";
               WantErrorCode := None; WantError := None;
               StrictError := false;
               EntryPoints := []; Plan := JNull; WantPlanResult := JNull |}
            Script.start.
Proof.
  apply (input_is_not_read_beside_an_input_term
           (H:=Script.engine Script.fixtures) Script.forwards).
  discriminate.
Defined.

(** ** The first revision: the folder of a case *)

Lemma has_char_app c s1 s2 :
  has_char c (s1 +:+ s2) = has_char c s1 || has_char c s2.
Proof.
  induction s1 as [|c1 s1 IH]; simpl; [done|].
  rewrite IH. by rewrite orb_assoc.
Qed.

Lemma prefix_char (c c' : ascii) (s : string) :
  String.prefix (String c "") (String c' s) = Ascii.eqb c' c.
Proof.
  simpl. destruct (ascii_dec c c') as [->|Hne].
  - by rewrite prefix_empty, Ascii.eqb_refl.
  - symmetry. apply Ascii.eqb_neq. congruence.
Qed.

(** The cut at the first [c]: the text before it is free of [c]. *)
Lemma cut_char (c : ascii) (s : string) :
  match cut (String c "") s with
  | Some (before, after) =>
      s = before +:+ String c after ∧ has_char c before = false
  | None => has_char c s = false
  end.
Proof.
  induction s as [|c' s IH]; [done|].
  unfold cut; fold cut. rewrite prefix_char. simpl has_char.
  destruct (Ascii.eqb_spec c' c) as [->|Hne]; [done|].
  destruct (cut (String c "") s) as [[before after]|]; simpl; [|done].
  destruct IH as [-> Hb]. rewrite Hb.
  split; [done|]. rewrite orb_false_r. by apply Ascii.eqb_neq.
Qed.

Lemma cut_None (c : ascii) (s : string) :
  cut (String c "") s = None ↔ has_char c s = false.
Proof.
  pose proof (cut_char c s) as H.
  destruct (cut (String c "") s) as [[before after]|]; [|done].
  destruct H as [-> _]. rewrite has_char_app. simpl.
  rewrite Ascii.eqb_refl, orb_true_r. done.
Qed.

(** Splitting at a character leaves segments free of it, and at least
    one segment. *)
Lemma split_go_char (c : ascii) (s : string) :
  split_go 0 (String c "") s ≠ []
  ∧ Forall (λ seg, has_char c seg = false) (split_go 0 (String c "") s).
Proof.
  induction s as [|c' s [Hne IH]]; [by repeat constructor|].
  unfold split_go; fold split_go. rewrite prefix_char. simpl Nat.pred.
  destruct (Ascii.eqb_spec c' c) as [->|Hc].
  { split; [done|]. by constructor. }
  destruct (split_go 0 (String c "") s) as [|seg rest]; [done|].
  split; [done|]. apply Forall_cons in IH as [Hseg Hrest].
  constructor; [|done]. simpl. rewrite Hseg, orb_false_r.
  by apply Ascii.eqb_neq.
Qed.

Lemma split_go_no_char (c : ascii) (s : string) :
  has_char c s = false → split_go 0 (String c "") s = [s].
Proof.
  induction s as [|c' s IH]; [done|]. simpl has_char.
  intros [Hc Hs]%orb_false_iff.
  unfold split_go; fold split_go. rewrite prefix_char, Hc.
  by rewrite (IH Hs).
Qed.

Lemma map_chars_no_char (a b : ascii) (s : string) :
  a ≠ b → has_char a (map_chars (λ c, if Ascii.eqb c a then b else c) s) = false.
Proof.
  intros Hab. induction s as [|c s IH]; [done|]. simpl. rewrite IH.
  destruct (Ascii.eqb_spec c a) as [->|Hne].
  - rewrite orb_false_r. apply Ascii.eqb_neq. congruence.
  - rewrite orb_false_r. by apply Ascii.eqb_neq.
Qed.

Lemma index_second_last {A} (l : list A) (x : A) :
  index l (Z.of_nat (length l) - 2) = Ret x →
  ∃ segs y, l = segs ++ [x; y].
Proof.
  destruct l as [|y l _] using rev_ind.
  { intros Hi. by rewrite index_short in Hi by (simpl; lia). }
  destruct l as [|z l _] using rev_ind.
  { intros Hi. by rewrite index_short in Hi by (simpl; lia). }
  rewrite <- app_assoc. simpl.
  destruct (index_app_2 l z y) as [-> _]. intros [= ->]. by exists l, y.
Qed.

Lemma split_go_length (c : ascii) (s : string) :
  has_char c s = true → 2 ≤ length (split_go 0 (String c "") s).
Proof.
  induction s as [|c' s IH]; [done|]. simpl has_char.
  unfold split_go; fold split_go. rewrite prefix_char. simpl Nat.pred.
  destruct (Ascii.eqb_spec c' c) as [->|Hc]; simpl.
  - intros _. destruct (split_go_char c s) as [Hne _].
    destruct (split_go 0 (String c "") s); [done|]. simpl. lia.
  - intros Hs%IH.
    destruct (split_go 0 (String c "") s) as [|seg rest]; simpl in *; lia.
Qed.

Lemma index_from_the_end {A} (l : list A) :
  2 ≤ length l → ∃ x, index l (Z.of_nat (length l) - 2) = Ret x.
Proof.
  intros Hl. destruct (lookup_lt_is_Some_2 l (length l - 2)) as [x Hx]; [lia|].
  exists x. rewrite <- (index_lookup _ _ _ Hx). f_equal. lia.
Qed.

Section FirstFolder.
Context `{!Engine} `{!OS} `{!CaseLoader} (range : MapRange).

Implicit Types (tc : ExtendedTestCase) (st : RunState) (fs : FileSystem).

(** X18. When [createFolder] returns a path, it is
    [tmp/group/name], made with [os.MkdirAll]; the group holds no slash
    and the name no space.  For a note with a slash, the group is the
    text before the first slash and the name the rest of the note, with
    every space replaced by an underscore.  For a note without, the name
    is the note, spaces replaced, and the group is the directory of the
    case's file: the segment before the last of its path, which is the
    directory the later revisions write the file's fixture to. *)
Theorem createFolder_makes_tmp_group_name tc fs path fs' :
  First.createFolder tc fs = Ret (inr path, fs') →
  ∃ group name,
    path = "tmp/" +:+ group +:+ "/" +:+ name
    ∧ os_MkdirAll path fs = (None, fs')
    ∧ has_char "/" group = false ∧ has_char " " name = false
    ∧ ((∃ rest, Note tc = group +:+ "/" +:+ rest
                ∧ name = strings_ReplaceAll rest " " "_")
       ∨ (has_char "/" (Note tc) = false
          ∧ name = strings_ReplaceAll (Note tc) " " "_"
          ∧ ∃ segs file,
              strings_Split (Filename tc) "/" = segs ++ [group; file])).
Proof.
  unfold First.createFolder, First.group_and_name, strings_SplitN_2.
  pose proof (cut_char "/" (Note tc)) as Hcut.
  destruct (cut "/" (Note tc)) as [[group rest]|].
  - simpl. destruct Hcut as [Hnote Hgroup].
    destruct (os_MkdirAll _ fs) as [[err|] fs1] eqn:Hmk; intros [= <- <-].
    exists group, (strings_ReplaceAll rest " " "_").
    split; [done|]. split; [done|]. split; [done|]. split.
    { rewrite ReplaceAll_char. by apply map_chars_no_char. }
    left. by exists rest.
  - destruct (length (strings_Split (Filename tc) "/") <? 2); [done|].
    destruct (index _ _) as [group|v] eqn:Hi; simpl; [|done].
    destruct (os_MkdirAll _ fs) as [[err|] fs1] eqn:Hmk; intros [= <- <-].
    apply index_second_last in Hi as (segs & file & Hsegs).
    exists group, (strings_ReplaceAll (Note tc) " " "_").
    split; [done|]. split; [done|]. split.
    { destruct (split_go_char "/" (Filename tc)) as [_ Hall].
      change (split_go 0 "/" (Filename tc))
        with (strings_Split (Filename tc) "/") in Hall.
      rewrite Hsegs in Hall. apply Forall_app in Hall as [_ Hall].
      by apply Forall_cons in Hall as [? _]. }
    split.
    { rewrite ReplaceAll_char. by apply map_chars_no_char. }
    right. split; [done|]. split; [done|]. by exists segs, file.
Qed.

(** X19. [createFolder] never panics: the one index it takes is
    guarded.  The error it returns is the error of [os.MkdirAll], or the
    complaint about the file path, and that only for a case with no
    slash in its note and none in its file name, before anything is
    created; the complaint about the note cannot occur.  Such a case
    ends the run: [main] panics with the complaint. *)
Theorem createFolder_never_panics tc fs :
  (∃ r fs', First.createFolder tc fs = Ret (r, fs'))
  ∧ (∀ err fs',
        First.createFolder tc fs = Ret (inl err, fs') →
        (err = Errorf ("test case file path could not be split into group: "
                       +:+ Filename tc)
         ∧ fs' = fs ∧ has_char "/" (Note tc) = false
         ∧ has_char "/" (Filename tc) = false)
        ∨ ∃ msg, err = LibraryError "os.MkdirAll" msg)
  ∧ (has_char "/" (Note tc) = false → has_char "/" (Filename tc) = false →
     ∀ st, First.generate_case range tc st fs
           = Panic ("test case file path could not be split into group: "
                    +:+ Filename tc)).
Proof.
  unfold First.generate_case, First.createFolder, First.group_and_name,
    strings_SplitN_2.
  pose proof (cut_char "/" (Note tc)) as Hcut.
  pose proof (proj2 (cut_None "/" (Note tc))) as Hnone.
  destruct (cut "/" (Note tc)) as [[group rest]|].
  { simpl. destruct (os_MkdirAll _ fs) as [[err|] fs1].
    - split; [by eexists _, _|]. split.
      + intros ? ? [= <- <-]. right. by eexists.
      + intros Hn. by specialize (Hnone Hn).
    - split; [by eexists _, _|]. split; [done|].
      intros Hn. by specialize (Hnone Hn). }
  destruct (Nat.ltb_spec (length (strings_Split (Filename tc) "/")) 2)
    as [Hl|Hl].
  { simpl. split; [by eexists _, _|].
    assert (has_char "/" (Filename tc) = false) as Hfile.
    { destruct (has_char "/" (Filename tc)) eqn:Hc; [|done].
      apply split_go_length in Hc.
      change (split_go 0 "/" (Filename tc))
        with (strings_Split (Filename tc) "/") in Hc. lia. }
    split; [|done]. intros ? ? [= <- <-]. by left. }
  destruct (index_from_the_end _ Hl) as [group ->]. simpl.
  assert (has_char "/" (Filename tc) = false → False) as Hfile.
  { intros Hc%split_go_no_char.
    change (split_go 0 "/" (Filename tc))
      with (strings_Split (Filename tc) "/") in Hc.
    rewrite Hc in Hl. simpl in Hl. lia. }
  destruct (os_MkdirAll _ fs) as [[err|] fs1].
  - split; [by eexists _, _|]. split.
    + intros ? ? [= <- <-]. right. by eexists.
    + intros _ Hc. by destruct (Hfile Hc).
  - split; [by eexists _, _|]. split; [done|].
    intros _ Hc. by destruct (Hfile Hc).
Qed.
End FirstFolder.

Lemma createFolder_makes_tmp_group_name_witness :
  ∃ path fs',
    @First.createFolder Script.os
      (Script.case "grp/my case" [] None None)
      (Script.tree "testdata/dir/a.yaml" "allow")
    = Ret (inr path, fs')
    ∧ ∃ group name,
        path = "tmp/" +:+ group +:+ "/" +:+ name
        ∧ Script.MkdirAll path (Script.tree "testdata/dir/a.yaml" "allow")
          = (None, fs')
        ∧ has_char "/" group = false ∧ has_char " " name = false
        ∧ ((∃ rest, "grp/my case" = group +:+ "/" +:+ rest
                    ∧ name = strings_ReplaceAll rest " " "_")
           ∨ (has_char "/" "grp/my case" = false
              ∧ name = strings_ReplaceAll "grp/my case" " " "_"
              ∧ ∃ segs file,
                  strings_Split "" "/" = segs ++ [group; file])).
Proof.
  eexists _, _. split; [vm_compute; reflexivity|].
  exact (createFolder_makes_tmp_group_name (H0:=Script.os)
           (Script.case "grp/my case" [] None None)
           (Script.tree "testdata/dir/a.yaml" "allow") _ _ eq_refl).
Defined.

(** ** The first revision: evaluation and counters *)

Section FirstRun.
Context `{!Engine} `{!OS} `{!CaseLoader} (range : MapRange).

Implicit Types (tc : ExtendedTestCase) (st : RunState) (fs : FileSystem).

(** X20. The first revision's [eval] returns every error of [Run],
    wanted by the case or not: the later revisions drop one the case
    expects.  For a case that wants neither an error nor an error code
    the first revision's [eval] is the middle revision's. *)
Theorem first_revision_returns_every_error eps tc :
  (WantError tc = None → WantErrorCode tc = None →
   First.eval range eps tc = Middle.eval range eps tc)
  ∧ (∀ q compiler query txn input qrs e,
        First.createQuery eps = Ret q →
        reaches_Run q tc compiler query txn input →
        topdown_Run query compiler (eval_store tc) txn input (StrictError tc)
        = (qrs, Some e) →
        First.eval range eps tc = Ret (inl (LibraryError "topdown.Run" e))).
Proof.
  split.
  - intros Hw Hc. unfold First.eval, Middle.eval, eval_query.
    change (First.createQuery eps) with (Middle.createQuery eps).
    destruct (Middle.createQuery eps) as [q|v]; simpl; [|done].
    destruct (ast_MustCompileModules _) as [compiler|]; [|done].
    destruct (QueryCompiler_Compile compiler q) as [err|query]; [done|].
    destruct (storage_NewTransactionOrDie _) as [txn|]; [|done].
    destruct (eval_input tc) as [input|]; simpl; [|done].
    destruct (topdown_Run _ _ _ _ _ _) as [qrs [e|]];
      unfold First.eval_results, eval_results; by rewrite ?Hw, ?Hc.
  - intros q compiler query txn input qrs e Hq (Hc & Hqc & Ht & Hi) Hrun.
    unfold First.eval. rewrite Hq. simpl. rewrite Hc, Hqc, Ht, Hi. simpl.
    by rewrite Hrun.
Qed.

Lemma write_json_counters what folderPath name v st fs ok st' fs' :
  First.write_json what folderPath name v st fs = (ok, st', fs') →
  successCount st' = successCount st
  ∧ failureCount st' = (if ok then failureCount st else S (failureCount st)).
Proof.
  unfold First.write_json.
  destruct (json_MarshalIndent_value v) as [err|data].
  { by intros [= <- <- <-]. }
  destruct (writeWile folderPath name data fs) as [[err|] fs1];
    by intros [= <- <- <-].
Qed.

Lemma write_optional_counters what folderPath name v st fs ok st' fs' :
  First.write_optional what folderPath name v st fs = (ok, st', fs') →
  successCount st' = successCount st
  ∧ failureCount st' = (if ok then failureCount st else S (failureCount st)).
Proof.
  destruct v as [v|]; simpl; [apply write_json_counters|].
  by intros [= <- <- <-].
Qed.

Lemma write_expected_counters folderPath results st fs st' fs' :
  First.write_expected folderPath results st fs = (st', fs') →
  successCount st' = successCount st
  ∧ failureCount st ≤ failureCount st' ≤ failureCount st + length results.
Proof.
  revert st fs. induction results as [|[k v] results IH]; intros st fs; simpl.
  { intros [= <- <-]. lia. }
  destruct (First.write_json _ _ _ v st fs) as [[ok st1] fs1] eqn:Hw.
  apply write_json_counters in Hw as [Hs Hf].
  intros [Hs' Hf']%IH. destruct ok; lia.
Qed.

Lemma write_case_counters folderPath tc planData result st fs st' fs' :
  First.write_case range folderPath tc planData result st fs = (st', fs') →
  (successCount st' = successCount st ∧ failureCount st' = S (failureCount st))
  ∨ (successCount st' = S (successCount st)
     ∧ failureCount st ≤ failureCount st'
       ≤ failureCount st + length (range _ result)).
Proof.
  unfold First.write_case.
  destruct (writeWile folderPath "plan.json" planData fs) as [[err|] fs1].
  { intros [= <- <-]. by left. }
  destruct (First.write_optional "input" _ _ _ st fs1) as [[ok st1] fs2]
    eqn:Hi.
  apply write_optional_counters in Hi as [Hs1 Hf1].
  destruct ok; simpl.
  2:{ intros [= <- <-]. left. lia. }
  destruct (First.write_optional "data" _ _ _ st1 fs2) as [[ok st2] fs3]
    eqn:Hd.
  apply write_optional_counters in Hd as [Hs2 Hf2].
  destruct ok; simpl.
  2:{ intros [= <- <-]. left. lia. }
  destruct (First.write_expected _ _ st2 fs3) as [st3 fs4] eqn:He.
  apply write_expected_counters in He as [Hs3 Hf3].
  intros [= <- <-]. right. simpl. lia.
Qed.

(** A case of the first revision is counted as a failure, or as a
    success and then perhaps as a failure too. *)
Lemma First_case_counters tc st fs st' fs' :
  First.generate_case range tc st fs = Ret (st', fs') →
  (successCount st' = successCount st ∧ failureCount st' = S (failureCount st))
  ∨ (successCount st' = S (successCount st)
     ∧ failureCount st ≤ failureCount st').
Proof.
  unfold First.generate_case.
  destruct (First.createFolder tc fs) as [[[err|folderPath] fs1]|v]; simpl;
    [done| |done].
  destruct (module_files range tc) as [modFiles|v]; simpl; [|done].
  destruct (compiler_Build false _ modFiles) as [[err|] pms].
  { intros [= <- <-]. by left. }
  case_decide.
  { intros [= <- <-]. by left. }
  destruct (First.eval range _ tc) as [[err|rs]|v]; simpl; [| |done].
  { intros [= <- <-]. by left. }
  case_decide.
  { intros [= <- <-]. by left. }
  destruct (index pms 0) as [pm|v]; simpl; [|done].
  destruct (First.indent (plan_Raw pm)) as [err|planData].
  { intros [= <- <-]. by left. }
  destruct (index rs 0) as [result|v]; simpl; [|done].
  intros [= Hw]. apply write_case_counters in Hw. lia.
Qed.

Lemma First_generate_cases_counters cases st fs st' fs' :
  First.generate_cases range cases st fs = Ret (st', fs') →
  successCount st ≤ successCount st' ≤ successCount st + length cases
  ∧ failureCount st ≤ failureCount st'
  ∧ successCount st + failureCount st + length cases
    ≤ successCount st' + failureCount st'.
Proof.
  revert st fs. induction cases as [|tc cases IH]; intros st fs; simpl.
  { intros [= <- <-]. lia. }
  destruct (First.generate_case range tc st fs) as [[st1 fs1]|v] eqn:Hg;
    [|done].
  simpl. intros Hgs%IH. apply First_case_counters in Hg. lia.
Qed.

(** X21. A run of the first revision that returns has counted every
    loaded case at least once: the successes do not exceed the number of
    cases, and the total it prints is at least the number of cases.  The
    last line printed is the tally of the counters. *)
Theorem first_revision_counts_every_case_at_least_once fs cases st fs' :
  cases_MustLoad "opa/test/cases/testdata" fs = Some cases →
  First.main range fs = Ret (st, fs') →
  successCount st ≤ length cases ≤ successCount st + failureCount st
  ∧ last (stdout st) = Some (tally st).
Proof.
  intros Hl. unfold First.main. rewrite Hl.
  destruct (First.generate_cases range cases _ fs) as [[st1 fs1]|v] eqn:Hg;
    [|done].
  simpl. intros [= <- <-]. apply First_generate_cases_counters in Hg.
  simpl in *. split; [lia|]. by rewrite last_snoc.
Qed.
End FirstRun.

(** X22. In the first revision a case is counted as a failure, or as a
    success; but a success can be counted as a failure too.  The loop
    that writes the expected results goes on to the next result after one
    that could not be written, and counts the success after it: on the
    scripted engine a case whose expected-result file cannot be written
    leaves both counters one higher. *)
Theorem first_revision_can_count_a_case_twice `{!Engine} `{!OS} `{!CaseLoader}
    (range : MapRange) :
  (∀ tc st fs st' fs',
      First.generate_case range tc st fs = Ret (st', fs') →
      (successCount st' = successCount st
       ∧ failureCount st' = S (failureCount st))
      ∨ (successCount st' = S (successCount st)
         ∧ failureCount st ≤ failureCount st'))
  ∧ ∃ tc fs st' fs',
      @First.generate_case (Script.engine Script.fixtures) Script.os
        (ScriptFirst.loader Script.fixtures) Script.forwards tc Script.start fs
      = Ret (st', fs')
      ∧ successCount st' = 1 ∧ failureCount st' = 1.
Proof.
  split.
  - intros tc st fs st' fs'. apply First_case_counters.
  - exists (Script.case "grp/allow" ["package allow p"] None None),
      (Script.tree_with_dir "testdata/grp/a.yaml" "allow"
         "tmp/grp/allow/expected_allow.json").
    eexists _, _. split; [vm_compute; reflexivity|]. done.
Qed.

Lemma first_revision_counts_every_case_at_least_once_witness :
  ∃ cases st fs',
    ScriptFirst.MustLoad Script.fixtures "opa/test/cases/testdata"
      (Script.tree "opa/test/cases/testdata/grp/a.yaml" "failures")
    = Some cases
    ∧ @First.main (Script.engine Script.fixtures) Script.os
        (ScriptFirst.loader Script.fixtures) Script.forwards
        (Script.tree "opa/test/cases/testdata/grp/a.yaml" "failures")
      = Ret (st, fs')
    ∧ successCount st ≤ length cases ≤ successCount st + failureCount st
    ∧ last (stdout st) = Some (tally st).
Proof.
  eexists _, _, _. split; [vm_compute; reflexivity|].
  split; [vm_compute; reflexivity|].
  exact (first_revision_counts_every_case_at_least_once
           (H:=Script.engine Script.fixtures) (H0:=Script.os)
           (H1:=ScriptFirst.loader Script.fixtures) Script.forwards
           (Script.tree "opa/test/cases/testdata/grp/a.yaml" "failures")
           _ _ _ eq_refl eq_refl).
Defined.

(** ** From the path of a fixture to the path of its output *)

Lemma split_go_cons (c x : ascii) (s : string) :
  split_go 0 (String c "") (String x s)
  = if Ascii.eqb x c then "" :: split_go 0 (String c "") s
    else match split_go 0 (String c "") s with
         | seg :: rest => String x seg :: rest
         | [] => [String x ""]
         end.
Proof. unfold split_go; fold split_go. by rewrite prefix_char. Qed.

Lemma split_go_app (c : ascii) (a b : string) :
  split_go 0 (String c "") (a +:+ String c b)
  = split_go 0 (String c "") a ++ split_go 0 (String c "") b.
Proof.
  induction a as [|x a IH].
  { change ("" +:+ String c b) with (String c b).
    by rewrite split_go_cons, Ascii.eqb_refl. }
  change (String x a +:+ String c b) with (String x (a +:+ String c b)).
  rewrite !split_go_cons, IH.
  destruct (Ascii.eqb x c); [done|].
  destruct (split_go_char c a) as [Hne _].
  by destruct (split_go 0 (String c "") a).
Qed.

Lemma replace_yaml (stem : string) :
  has_char "." stem = false →
  strings_ReplaceAll (stem +:+ ".yaml") ".yaml" ".json" = stem +:+ ".json".
Proof.
  unfold strings_ReplaceAll.
  induction stem as [|x stem IH]; [done|]. simpl has_char.
  intros [Hx Hs]%orb_false_iff.
  change (String x stem +:+ ".yaml") with (String x (stem +:+ ".yaml")).
  unfold replace_go; fold replace_go.
  assert (String.prefix ".yaml" (String x (stem +:+ ".yaml")) = false) as ->.
  { simpl.
    match goal with
    | |- (if ?d then _ else _) = _ => destruct d as [Heq|]; [|done]
    end.
    subst x. by vm_compute in Hx. }
  by rewrite (IH Hs).
Qed.

Section OutputOfPath.
Context `{!Engine} `{!OS}.

End OutputOfPath.

